(** * SecureX scan-orchestration handler

    A shallow embedding of the scan request handler, the edge function
    [supabase/functions/security-scanner/index.ts]: it authenticates the
    caller, validates the request, calls the completion API, parses its
    answer and writes the result to three tables.  The repository holds a
    second variant of the handler ([src/unnamed/part_000]), with the same
    pipeline and fewer checks; it is embedded next to the first.

    The persistence backend, the authentication service and the completion
    API are external collaborators: their answers are inputs of a run
    ([Env]), the tables are explicit state ([Db]), and every write statement
    the handler issues is recorded in order ([issued]). *)

From Stdlib Require Import ZArith QArith Qround List String Ascii Bool Lia.
From stdpp Require Import base option list gmap.

Local Open Scope Z_scope.
Local Open Scope list_scope.

(** ** Text

    An ECMAScript string is a sequence of UTF-16 code units.  Source
    literals are written as Rocq strings (UTF-8 bytes) and decoded. *)

Abbreviation jsstring := (list N).

Module Utf8.

Definition cont (b : N) : N := N.land b 63.

(** Code units of one code point: one unit in the basic plane, a
    surrogate pair above it. *)
Definition units (cp : N) : list N :=
  if (cp <? 65536)%N then [cp]
  else let c := (cp - 65536)%N in
       [(55296 + N.shiftr c 10)%N; (56320 + N.land c 1023)%N].

Fixpoint decode (bs : list N) : list N :=
  match bs with
  | [] => []
  | b :: r =>
      if (b <? 128)%N then b :: decode r
      else if (b <? 224)%N then
        match r with
        | b1 :: r1 => units (N.shiftl (N.land b 31) 6 + cont b1)%N ++ decode r1
        | _ => [65533%N]
        end
      else if (b <? 240)%N then
        match r with
        | b1 :: b2 :: r2 =>
            units (N.shiftl (N.land b 15) 12 + N.shiftl (cont b1) 6 + cont b2)%N
              ++ decode r2
        | _ => [65533%N]
        end
      else
        match r with
        | b1 :: b2 :: b3 :: r3 =>
            units (N.shiftl (N.land b 7) 18 + N.shiftl (cont b1) 12
                   + N.shiftl (cont b2) 6 + cont b3)%N ++ decode r3
        | _ => [65533%N]
        end
  end.

End Utf8.

(** [js "text"] is the ECMAScript string written ["text"] in the source. *)
Definition js (s : string) : jsstring :=
  Utf8.decode (map N_of_ascii (list_ascii_of_string s)).

(** [jq "text"] is [js "text"] with every apostrophe standing for a double
    quote, to write JSON texts. *)
Definition jq (s : string) : jsstring :=
  map (fun c => if (c =? 39)%N then 34%N else c) (js s).

Arguments js : simpl never.
Arguments jq : simpl never.

Definition unit_eqb (a b : N) : bool := (a =? b)%N.

Fixpoint jsstring_eqb (a b : jsstring) : bool :=
  match a, b with
  | [], [] => true
  | x :: a', y :: b' => unit_eqb x y && jsstring_eqb a' b'
  | _, _ => false
  end.

(** [WhiteSpace] and [LineTerminator] of ECMA-262: the characters matched by
    the regular-expression class [\s] and removed by [String.prototype.trim]. *)
Definition is_space (c : N) : bool :=
  ((9 <=? c) && (c <=? 13) || (c =? 32) || (c =? 160) || (c =? 5760)
   || (8192 <=? c) && (c <=? 8202) || (c =? 8232) || (c =? 8233)
   || (c =? 8239) || (c =? 8287) || (c =? 12288) || (c =? 65279))%N.

Fixpoint trim_start (s : jsstring) : jsstring :=
  match s with
  | c :: r => if is_space c then trim_start r else s
  | [] => []
  end.

Definition trim_end (s : jsstring) : jsstring := rev (trim_start (rev s)).

(** [s.trim()] *)
Definition trim (s : jsstring) : jsstring := trim_end (trim_start s).

Fixpoint starts_with (p s : jsstring) : bool :=
  match p, s with
  | [], _ => true
  | x :: p', y :: s' => unit_eqb x y && starts_with p' s'
  | _ :: _, [] => false
  end.

(** [s.replace(p, e)] for a string pattern [p] and the empty string [e]:
    the first occurrence of [p] is removed, the rest is kept. *)
Fixpoint remove_first (p s : jsstring) : jsstring :=
  if starts_with p s then drop (length p) s
  else match s with
       | [] => []
       | c :: r => c :: remove_first p r
       end.

(** Decimal text of an integer, as [`${n}`] prints it. *)
Fixpoint digits_of_pos (fuel : nat) (n : N) (acc : jsstring) : jsstring :=
  match fuel with
  | O => acc
  | S f =>
      let acc' := (48 + n mod 10)%N :: acc in
      if (n <? 10)%N then acc' else digits_of_pos f (n / 10)%N acc'
  end.

Definition int_to_string (z : Z) : jsstring :=
  let d := digits_of_pos (S (N.to_nat (N.log2 (Z.abs_N z)))) (Z.abs_N z) [] in
  if z <? 0 then 45%N :: d else d.

(** ** Values

    The values the handlers compute with are the results of [JSON.parse]
    (and [undefined], the result of reading an absent property).  An object
    lists its own properties in the order of the source text. *)

#[warnings="-register-all"]
Inductive value : Type :=
| VUndefined
| VNull
| VBool (b : bool)
| VNum (q : Q)
| VStr (s : jsstring)
| VArr (elems : list value)
| VObj (fields : list (jsstring * value)).

Inductive js_error : Type :=
| TypeError
| SyntaxError
| FetchError
| Error (message : jsstring).

(** Result of evaluating an expression: a value or a thrown error. *)
Inductive eval (A : Type) : Type :=
| Ok (a : A)
| Raise (e : js_error).
Arguments Ok {A} a.
Arguments Raise {A} e.

Definition num_of_nat (n : nat) : value := VNum (inject_Z (Z.of_nat n)).
Definition num_of_Z (z : Z) : value := VNum (inject_Z z).

(** Own property [k] of an object; of two properties with one key the later
    one counts, as [JSON.parse] keeps it. *)
Fixpoint own_property (k : jsstring) (fields : list (jsstring * value)) : option value :=
  match fields with
  | [] => None
  | (k', v) :: rest =>
      match own_property k rest with
      | Some v' => Some v'
      | None => if jsstring_eqb k k' then Some v else None
      end
  end.

Definition length_key : jsstring := js "length".

(** [v.k] for a data property name [k] (none of the names the handlers read
    this way is a method): reading from [null] or [undefined] throws, an
    absent property is [undefined], arrays and strings have [length]. *)
Definition get_prop (v : value) (k : jsstring) : eval value :=
  match v with
  | VUndefined | VNull => Raise TypeError
  | VObj fields => Ok (default VUndefined (own_property k fields))
  | VArr elems => Ok (if jsstring_eqb k length_key then num_of_nat (length elems) else VUndefined)
  | VStr s => Ok (if jsstring_eqb k length_key then num_of_nat (length s) else VUndefined)
  | VBool _ | VNum _ => Ok VUndefined
  end.

(** [v[0]] *)
Definition get_first (v : value) : eval value :=
  match v with
  | VUndefined | VNull => Raise TypeError
  | VObj fields => Ok (default VUndefined (own_property (js "0") fields))
  | VArr elems => Ok (default VUndefined (head elems))
  | VStr s => Ok (match s with c :: _ => VStr [c] | [] => VUndefined end)
  | VBool _ | VNum _ => Ok VUndefined
  end.

(** [ToBoolean] *)
Definition truthy (v : value) : bool :=
  match v with
  | VUndefined | VNull => false
  | VBool b => b
  | VNum q => negb (Qnum q =? 0)
  | VStr s => match s with [] => false | _ => true end
  | VArr _ | VObj _ => true
  end.

(** The built-ins of the JavaScript runtime that the handlers call and that
    are not part of the repository.  [JSON_parse s] is [None] when
    [JSON.parse(s)] throws.  [coerced_gt0 v] is the comparison [v > 0] for a
    [v] that is neither a number nor [undefined] ([None] when the coercion
    throws).  [engine_message e] is the [message] of an error raised by the
    runtime itself.  [uuid s] is the test of [z.string().uuid()] of the
    validation library. *)
Record Runtime : Type := {
  JSON_parse : jsstring -> option value;
  coerced_gt0 : value -> option bool;
  engine_message : js_error -> jsstring;
  uuid : jsstring -> bool
}.

(** ** Regular expressions

    The two patterns of the source use literal characters, the class [\s],
    the class [[\s\S]], a greedy star, and one lazily starred capture group.
    [match_here] is the backtracking matcher of ECMA-262 for this fragment;
    it yields the text of group 1. *)

Inductive atom : Type :=
| Lit (c : N)
| Space
| AnyChar.

Inductive piece : Type :=
| One (a : atom)
| Greedy (a : atom)
| LazyGroup (a : atom).

Definition atom_matches (a : atom) (c : N) : bool :=
  match a with
  | Lit d => unit_eqb d c
  | Space => is_space c
  | AnyChar => true
  end.

(** [a*] followed by [k]: the longest run first, shorter ones on failure. *)
Fixpoint greedy_star (a : atom) (k : jsstring -> option jsstring) (s : jsstring)
  : option jsstring :=
  match s with
  | c :: s' =>
      if atom_matches a c then
        match greedy_star a k s' with
        | Some m => Some m
        | None => k s
        end
      else k s
  | [] => k s
  end.

(** [(a*?)] followed by [k]: the shortest run first; [acc] is the text
    captured so far, last character first. *)
Fixpoint lazy_group (a : atom) (k : jsstring -> jsstring -> option jsstring)
  (s acc : jsstring) : option jsstring :=
  match k s (rev acc) with
  | Some m => Some m
  | None =>
      match s with
      | c :: s' => if atom_matches a c then lazy_group a k s' (c :: acc) else None
      | [] => None
      end
  end.

Fixpoint match_here (r : list piece) (s cap : jsstring) : option jsstring :=
  match r with
  | [] => Some cap
  | One a :: r' =>
      match s with
      | c :: s' => if atom_matches a c then match_here r' s' cap else None
      | [] => None
      end
  | Greedy a :: r' => greedy_star a (fun s' => match_here r' s' cap) s
  | LazyGroup a :: r' => lazy_group a (fun s' cap' => match_here r' s' cap') s []
  end.

(** [s.match(r)] for a pattern without the global flag: the leftmost match;
    the result is group 1 of the match array, [None] for [null]. *)
Fixpoint regex_match (r : list piece) (s : jsstring) : option jsstring :=
  match match_here r s [] with
  | Some cap => Some cap
  | None =>
      match s with
      | [] => None
      | _ :: s' => regex_match r s'
      end
  end.

Definition lits (s : jsstring) : list piece := map (fun c => One (Lit c)) s.

Definition fence : jsstring := js "```".
Definition fence_json : jsstring := js "```json".

Definition fenced_body : list piece :=
  [Greedy Space; LazyGroup AnyChar; Greedy Space] ++ lits fence.

(** [/```json\s*([\s\S]*?)\s*```/] *)
Definition re_json_block : list piece := lits fence_json ++ fenced_body.

(** [/```\s*([\s\S]*?)\s*```/] *)
Definition re_any_block : list piece := lits fence ++ fenced_body.

(** [jsonMatch ? jsonMatch[1] : content] *)
Definition jsonStr (content : jsstring) : jsstring :=
  match regex_match re_json_block content with
  | Some cap => cap
  | None =>
      match regex_match re_any_block content with
      | Some cap => cap
      | None => content
      end
  end.

Definition nl : string := String (ascii_of_nat 10) EmptyString.

(** ** A JSON reader

    A reader for the JSON grammar (ECMA-404), used to run the handlers on
    concrete texts.  The theorems below hold for every [Runtime]. *)

Module Json.

Definition is_ws (c : N) : bool :=
  ((c =? 32) || (c =? 9) || (c =? 10) || (c =? 13))%N.

Fixpoint skip_ws (s : jsstring) : jsstring :=
  match s with
  | c :: r => if is_ws c then skip_ws r else s
  | [] => []
  end.

Definition is_digit (c : N) : bool := ((48 <=? c) && (c <=? 57))%N.

Definition hex_digit (c : N) : option N :=
  if is_digit c then Some (c - 48)%N
  else if ((97 <=? c) && (c <=? 102))%N then Some (c - 87)%N
  else if ((65 <=? c) && (c <=? 70))%N then Some (c - 55)%N
  else None.

(** The characters of a string literal after its opening quote. *)
Fixpoint read_string (s acc : jsstring) : option (jsstring * jsstring) :=
  match s with
  | [] => None
  | 34%N :: r => Some (rev acc, r)
  | 92%N :: 117%N :: a :: b :: c :: d :: r =>
      match hex_digit a, hex_digit b, hex_digit c, hex_digit d with
      | Some x, Some y, Some z, Some w =>
          read_string r ((x * 4096 + y * 256 + z * 16 + w)%N :: acc)
      | _, _, _, _ => None
      end
  | 92%N :: e :: r =>
      let esc (c : N) := read_string r (c :: acc) in
      if (e =? 34)%N then esc 34%N
      else if (e =? 92)%N then esc 92%N
      else if (e =? 47)%N then esc 47%N
      else if (e =? 98)%N then esc 8%N
      else if (e =? 102)%N then esc 12%N
      else if (e =? 110)%N then esc 10%N
      else if (e =? 114)%N then esc 13%N
      else if (e =? 116)%N then esc 9%N
      else None
  | c :: r => if (c <? 32)%N then None else read_string r (c :: acc)
  end.

(** A run of digits: its value, its length, the rest. *)
Fixpoint read_digits (s : jsstring) (acc : Z) (n : Z) : Z * Z * jsstring :=
  match s with
  | c :: r => if is_digit c then read_digits r (acc * 10 + Z.of_N (c - 48)) (n + 1)
              else (acc, n, s)
  | [] => (acc, n, s)
  end.

Definition scale (m e : Z) : Q :=
  if 0 <=? e then inject_Z (m * 10 ^ e)
  else Qred (Qmake m (Z.to_pos (10 ^ (- e)))).

Definition read_exponent (s : jsstring) : option (Z * jsstring) :=
  match s with
  | c :: r =>
      if ((c =? 101) || (c =? 69))%N then
        let '(neg, r1) :=
          match r with
          | 45%N :: r' => (true, r')
          | 43%N :: r' => (false, r')
          | _ => (false, r)
          end in
        let '(e, n, r2) := read_digits r1 0 0 in
        if n =? 0 then None else Some (if neg : bool then - e else e, r2)
      else Some (0, s)
  | [] => Some (0, s)
  end.

Definition read_number (s : jsstring) : option (Q * jsstring) :=
  let '(neg, s1) := match s with 45%N :: r => (true, r) | _ => (false, s) end in
  let '(i, n, s2) := read_digits s1 0 0 in
  let leading_zero := match s1 with 48%N :: _ => (1 <? n) | _ => false end in
  if (n =? 0) || leading_zero then None
  else
    let frac :=
      match s2 with
      | 46%N :: r =>
          let '(f, k, r') := read_digits r i 0 in
          if k =? 0 then None else Some (f, k, r')
      | _ => Some (i, 0, s2)
      end in
    match frac with
    | None => None
    | Some (m, k, s3) =>
        match read_exponent s3 with
        | None => None
        | Some (e, s4) => Some (scale (if neg : bool then - m else m) (e - k), s4)
        end
    end.

Fixpoint read_value (fuel : nat) (s : jsstring) {struct fuel} : option (value * jsstring) :=
  match fuel with
  | O => None
  | S f =>
      match skip_ws s with
      | [] => None
      | c :: r =>
          if (c =? 123)%N then
            match skip_ws r with
            | 125%N :: r' => Some (VObj [], r')
            | _ => read_members f r []
            end
          else if (c =? 91)%N then
            match skip_ws r with
            | 93%N :: r' => Some (VArr [], r')
            | _ => read_elements f r []
            end
          else if (c =? 34)%N then
            match read_string r [] with
            | Some (t, r') => Some (VStr t, r')
            | None => None
            end
          else if starts_with (js "true") (c :: r) then Some (VBool true, drop 3 r)
          else if starts_with (js "false") (c :: r) then Some (VBool false, drop 4 r)
          else if starts_with (js "null") (c :: r) then Some (VNull, drop 3 r)
          else
            match read_number (c :: r) with
            | Some (q, r') => Some (VNum q, r')
            | None => None
            end
      end
  end
with read_elements (fuel : nat) (s : jsstring) (acc : list value) {struct fuel}
  : option (value * jsstring) :=
  match fuel with
  | O => None
  | S f =>
      match read_value f s with
      | None => None
      | Some (v, r) =>
          match skip_ws r with
          | 44%N :: r' => read_elements f r' (v :: acc)
          | 93%N :: r' => Some (VArr (rev (v :: acc)), r')
          | _ => None
          end
      end
  end
with read_members (fuel : nat) (s : jsstring) (acc : list (jsstring * value)) {struct fuel}
  : option (value * jsstring) :=
  match fuel with
  | O => None
  | S f =>
      match skip_ws s with
      | 34%N :: r =>
          match read_string r [] with
          | None => None
          | Some (k, r1) =>
              match skip_ws r1 with
              | 58%N :: r2 =>
                  match read_value f r2 with
                  | None => None
                  | Some (v, r3) =>
                      match skip_ws r3 with
                      | 44%N :: r' => read_members f r' ((k, v) :: acc)
                      | 125%N :: r' => Some (VObj (rev ((k, v) :: acc)), r')
                      | _ => None
                      end
                  end
              | _ => None
              end
          end
      | _ => None
      end
  end.

(** The whole text must be one value between optional white space. *)
Definition parse (s : jsstring) : option value :=
  match read_value (2 * length s + 2) s with
  | Some (v, r) => match skip_ws r with [] => Some v | _ => None end
  | None => None
  end.

End Json.

(** ** Persisted state

    The three tables the handlers touch, with the columns they read or
    write.  Rows of [applications] and [security_scans] are keyed by their
    identifier; [vulnerabilities] lists its rows in insertion order. *)

Inductive ScanStatus : Type := ScanPending | ScanRunning | ScanCompleted | ScanFailed.
Inductive AppStatus : Type := AppPending | AppScanning | AppCompleted | AppFailed.
Inductive VulnStatus : Type := Open | Acknowledged | Fixed | FalsePositive.

Record Application : Type := {
  app_user_id : jsstring;
  app_name : jsstring;
  app_url : value;
  app_description : value;
  app_technology_stack : value;
  app_status : AppStatus
}.

Record Scan : Type := {
  scan_application_id : jsstring;
  scan_status : ScanStatus;
  overall_score : value;
  risk_level : value;
  vulnerabilities_found : value;
  scan_duration : option Z;
  started_at : option jsstring;
  completed_at : option jsstring
}.

Record Vulnerability : Type := {
  scan_id : value;
  severity : value;
  category : value;
  title : value;
  description : value;
  affected_component : value;
  cve_id : value;
  cvss_score : value;
  recommendation : value;
  code_snippet : value;
  vuln_status : VulnStatus
}.

Record Db : Type := {
  applications : gmap jsstring Application;
  security_scans : gmap jsstring Scan;
  vulnerabilities : list Vulnerability
}.

(** The write statements of the handlers, with the values they send. *)
Inductive write : Type :=
| UpdateScanRunning (id : value) (started : jsstring)
| UpdateScanCompleted (id : value) (score risk found : value) (duration : Z)
    (completed : jsstring)
| UpdateApplication (id : value) (st : AppStatus)
| InsertVulnerabilities (rows : list Vulnerability).

(** The row a filter [.eq('id', v)] can select.  The client sends the text
    of [v]; identifiers have SQL type UUID, so only a string denotes one (or
    an array holding nothing but one, which prints as its element). *)
Fixpoint filter_id (v : value) : option jsstring :=
  match v with
  | VStr s => Some s
  | VArr [x] => filter_id x
  | _ => None
  end.

(** A property whose value is [undefined] is left out of the request, so the
    column keeps its value. *)
Definition sent (new old : value) : value :=
  match new with
  | VUndefined => old
  | _ => new
  end.

Definition set_running (started : jsstring) (s : Scan) : Scan :=
  {| scan_application_id := scan_application_id s;
     scan_status := ScanRunning;
     overall_score := overall_score s;
     risk_level := risk_level s;
     vulnerabilities_found := vulnerabilities_found s;
     scan_duration := scan_duration s;
     started_at := Some started;
     completed_at := completed_at s |}.

Definition set_completed (score risk found : value) (duration : Z)
  (completed : jsstring) (s : Scan) : Scan :=
  {| scan_application_id := scan_application_id s;
     scan_status := ScanCompleted;
     overall_score := sent score (overall_score s);
     risk_level := sent risk (risk_level s);
     vulnerabilities_found := sent found (vulnerabilities_found s);
     scan_duration := Some duration;
     started_at := started_at s;
     completed_at := Some completed |}.

Definition set_app_status (st : AppStatus) (a : Application) : Application :=
  {| app_user_id := app_user_id a;
     app_name := app_name a;
     app_url := app_url a;
     app_description := app_description a;
     app_technology_stack := app_technology_stack a;
     app_status := st |}.

(** [update f id m]: the row selected by [id], if there is one, becomes
    [f row]; otherwise nothing changes. *)
Definition update_row {A : Type} (f : A -> A) (id : value) (m : gmap jsstring A)
  : gmap jsstring A :=
  match filter_id id with
  | Some k =>
      match m !! k with
      | Some row => <[k := f row]> m
      | None => m
      end
  | None => m
  end.

(** The effect of a write the backend accepts. *)
Definition apply_write (w : write) (d : Db) : Db :=
  match w with
  | UpdateScanRunning id started =>
      {| applications := applications d;
         security_scans := update_row (set_running started) id (security_scans d);
         vulnerabilities := vulnerabilities d |}
  | UpdateScanCompleted id score risk found duration completed =>
      {| applications := applications d;
         security_scans :=
           update_row (set_completed score risk found duration completed) id
             (security_scans d);
         vulnerabilities := vulnerabilities d |}
  | UpdateApplication id st =>
      {| applications := update_row (set_app_status st) id (applications d);
         security_scans := security_scans d;
         vulnerabilities := vulnerabilities d |}
  | InsertVulnerabilities rows =>
      {| applications := applications d;
         security_scans := security_scans d;
         vulnerabilities := vulnerabilities d ++ rows |}
  end.

(** ** A run

    What the collaborators answer during one invocation.  The handlers never
    look at the result of a write, and a failed write is not an exception:
    whether the backend persists a statement is decided by [accepts]. *)

Inductive statement : Type :=
| MarkScanRunning
| MarkAppScanning
| CompleteScan
| InsertFindings
| MarkAppCompleted.

Inductive query : Type := SelectApplication | SelectScan.

Inductive Completion : Type :=
| FetchRejected
| Responded (status : Z) (body : option jsstring).

Record Env : Type := {
  getUser : jsstring -> option jsstring;
  answers : query -> bool;
  accepts : statement -> bool;
  completion : Completion;
  started_time : jsstring;
  completed_time : jsstring;
  Math_random : Q;
  randomUUID : jsstring
}.

Record World : Type := {
  db : Db;
  issued : list write
}.

(** ** Requests and responses *)

Record Request : Type := {
  method : jsstring;
  authorization : option jsstring;
  body : jsstring
}.

Inductive issue_code : Type := invalid_type | invalid_string.

(** One entry of [validationResult.error.errors]: what is wrong and the path
    of the field (empty for the body itself). *)
Record issue : Type := {
  code : issue_code;
  path : list jsstring
}.

Inductive Payload : Type :=
| NoContent
| ErrorBody (error : jsstring) (details : option (list issue)) (errorId : option jsstring)
| SuccessBody (results : value).

Record Response : Type := {
  status : Z;
  payload : Payload
}.

(** ** Control flow

    A computation of a handler body runs on the world and ends in one of
    three ways: it goes on with a value, it returns a response from the
    handler, or it throws. *)

Inductive outcome (A : Type) : Type :=
| Next (a : A) (w : World)
| Respond (r : Response) (w : World)
| Thrown (e : js_error) (w : World).
Arguments Next {A} a w.
Arguments Respond {A} r w.
Arguments Thrown {A} e w.

Definition M (A : Type) : Type := World -> outcome A.

Definition ret {A : Type} (a : A) : M A := fun w => Next a w.

Definition bind {A B : Type} (m : M A) (k : A -> M B) : M B :=
  fun w =>
    match m w with
    | Next a w' => k a w'
    | Respond r w' => Respond r w'
    | Thrown e w' => Thrown e w'
    end.

(** [return new Response(...)] *)
Definition reply {A : Type} (r : Response) : M A := fun w => Respond r w.

Definition throw {A : Type} (e : js_error) : M A := fun w => Thrown e w.

Definition lift {A : Type} (x : eval A) : M A :=
  match x with
  | Ok a => ret a
  | Raise e => throw e
  end.

Definition read_db : M Db := fun w => Next (db w) w.

Declare Scope handler_scope.
Delimit Scope handler_scope with handler.
Notation "x <- m ;; k" := (bind m (fun x => k))
  (at level 100, m at next level, right associativity) : handler_scope.
Notation "m ;;; k" := (bind m (fun _ => k))
  (at level 100, right associativity) : handler_scope.

Fixpoint map_eval {A B : Type} (f : A -> eval B) (l : list A) : eval (list B) :=
  match l with
  | [] => Ok []
  | x :: r =>
      match f x with
      | Raise e => Raise e
      | Ok y =>
          match map_eval f r with
          | Raise e => Raise e
          | Ok ys => Ok (y :: ys)
          end
      end
  end.

(** [v.map(f)]: only an array has the method. *)
Definition array_map {B : Type} (v : value) (f : value -> eval B) : eval (list B) :=
  match v with
  | VArr elems => map_eval f elems
  | _ => Raise TypeError
  end.

Definition error_response (st : Z) (msg : string) : Response :=
  {| status := st; payload := ErrorBody (js msg) None None |}.

Definition ok_status (st : Z) : bool := (200 <=? st) && (st <=? 299).

Section Run.

Variable rt : Runtime.
Variable env : Env.

Local Open Scope handler_scope.

(** The world after the write [wr] of statement [st] was sent: the
    backend persisted it or not. *)
Definition send (st : statement) (wr : write) (w : World) : World :=
  {| db := if accepts env st then apply_write wr (db w) else db w;
     issued := issued w ++ [wr] |}.

(** [await supabase.from(...).update(...)] or [.insert(...)], the result
    dropped: the handler goes on either way. *)
Definition issue_write (st : statement) (wr : write) : M unit :=
  fun w => Next tt (send st wr w).

(** [.select(...).eq('id', id).single()]: the row, or [null] with an
    error. *)
Definition single {A : Type} (q : query) (table : gmap jsstring A) (id : value)
  : option A :=
  if answers env q then
    match filter_id id with
    | Some k => table !! k
    | None => None
    end
  else None.

(** [await r.json()] *)
Definition json_of (text : option jsstring) : M value :=
  match text with
  | None => throw FetchError
  | Some t =>
      match JSON_parse rt t with
      | Some v => ret v
      | None => throw SyntaxError
      end
  end.

(** [await r.text()] *)
Definition text_of (text : option jsstring) : M jsstring :=
  match text with
  | None => throw FetchError
  | Some t => ret t
  end.

(** [aiData.choices[0].message.content] *)
Definition message_content (aiData : value) : eval value :=
  match get_prop aiData (js "choices") with
  | Raise e => Raise e
  | Ok choices =>
      match get_first choices with
      | Raise e => Raise e
      | Ok choice =>
          match get_prop choice (js "message") with
          | Raise e => Raise e
          | Ok message => get_prop message (js "content")
          end
      end
  end.

(** The fixed result used when the answer cannot be read. *)
Definition fallback (name : jsstring) : value :=
  VObj [(js "overall_score", num_of_Z 50);
        (js "risk_level", VStr (js "medium"));
        (js "vulnerabilities",
          VArr [VObj [(js "severity", VStr (js "medium"));
                      (js "category", VStr (js "Análise"));
                      (js "title", VStr (js "Análise Incompleta"));
                      (js "description",
                        VStr (js "A análise não pode ser completada no formato esperado."));
                      (js "affected_component", VStr name);
                      (js "cve_id", VNull);
                      (js "cvss_score", VNull);
                      (js "recommendation",
                        VStr (js "Execute uma nova análise ou verifique manualmente."));
                      (js "code_snippet", VNull)]])].

(** The [try]/[catch] around the parse.  [content.match] throws inside the
    [try] when [content] is not a string, and [JSON.parse] throws on a text
    that is not JSON; the [catch] substitutes [fallback]. *)
Definition parse_results (content : value) (name : jsstring) : value :=
  match content with
  | VStr text =>
      match JSON_parse rt (trim (jsonStr text)) with
      | Some v => v
      | None => fallback name
      end
  | _ => fallback name
  end.

(** [Math.floor(Math.random() * 60) + 30] *)
Definition scanDuration : Z := Qfloor (Math_random env * 60) + 30.

(** [v > 0] *)
Definition gt0 (v : value) : eval bool :=
  match v with
  | VNum q => Ok (0 <? Qnum q)
  | VUndefined => Ok false
  | _ =>
      match coerced_gt0 rt v with
      | Some b => Ok b
      | None => Raise TypeError
      end
  end.

(** The row built from one finding by the callback of [map]. *)
Definition row_of (scanId : value) (vuln : value) : eval Vulnerability :=
  match vuln with
  | VUndefined | VNull => Raise TypeError
  | _ =>
      let field (k : jsstring) : value :=
        match get_prop vuln k with
        | Ok v => v
        | Raise _ => VUndefined
        end in
      Ok {| scan_id := scanId;
            severity := field (js "severity");
            category := field (js "category");
            title := field (js "title");
            description := field (js "description");
            affected_component := field (js "affected_component");
            cve_id := field (js "cve_id");
            cvss_score := field (js "cvss_score");
            recommendation := field (js "recommendation");
            code_snippet := field (js "code_snippet");
            vuln_status := Open |}
  end.

(** The insert of the findings: skipped unless
    [scanResults.vulnerabilities && scanResults.vulnerabilities.length > 0]. *)
Definition insert_findings (scanId vulns : value) : M unit :=
  if truthy vulns then
    len <- lift (get_prop vulns length_key);;
    positive <- lift (gt0 len);;
    if positive : bool then
      rows <- lift (array_map vulns (row_of scanId));;
      issue_write InsertFindings (InsertVulnerabilities rows)
    else ret tt
  else ret tt.

(** From "Calculate scan duration" to the success response; the same text
    in both variants. *)
Definition persist (scanId applicationId scanResults : value) : M Response :=
  score <- lift (get_prop scanResults (js "overall_score"));;
  risk <- lift (get_prop scanResults (js "risk_level"));;
  vulns <- lift (get_prop scanResults (js "vulnerabilities"));;
  found <- lift (get_prop vulns length_key);;
  issue_write CompleteScan
    (UpdateScanCompleted scanId score risk found scanDuration (completed_time env));;;
  insert_findings scanId vulns;;;
  issue_write MarkAppCompleted (UpdateApplication applicationId AppCompleted);;;
  ret {| status := 200; payload := SuccessBody scanResults |}.

End Run.

(** ** The handler of [supabase/functions/security-scanner/index.ts] *)

Module SecurityScanner.

Section Handler.

Variable rt : Runtime.
Variable env : Env.

Local Open Scope handler_scope.

(** "Verify authentication" and "Verify user token": the identifier of
    the caller. *)
Definition authenticate (req : Request) : M jsstring :=
  match authorization req with
  | None | Some [] => reply (error_response 401 "Authentication required")
  | Some authHeader =>
      let token := remove_first (js "Bearer ") authHeader in
      match getUser env token with
      | None => reply (error_response 401 "Invalid authentication token")
      | Some user => ret user
      end
  end.

(** One field of [requestSchema]: [z.string().uuid()]. *)
Definition check_field (data : list (jsstring * value)) (k : jsstring)
  : issue + jsstring :=
  match own_property k data with
  | Some (VStr s) =>
      if uuid rt s then inr s else inl {| code := invalid_string; path := [k] |}
  | _ => inl {| code := invalid_type; path := [k] |}
  end.

Definition issues_of (r : issue + jsstring) : list issue :=
  match r with
  | inl i => [i]
  | inr _ => []
  end.

(** [requestSchema.safeParse(body)]: the issues, or the two identifiers
    [(scanId, applicationId)]. *)
Definition safeParse (data : value) : list issue + (jsstring * jsstring) :=
  match data with
  | VObj fields =>
      match check_field fields (js "scanId"),
            check_field fields (js "applicationId") with
      | inr scanId, inr applicationId => inr (scanId, applicationId)
      | r1, r2 => inl (issues_of r1 ++ issues_of r2)
      end
  | _ => inl [{| code := invalid_type; path := [] |}]
  end.

(** "Validate and parse request body" *)
Definition validate (req : Request) : M (jsstring * jsstring) :=
  data <- json_of rt (Some (body req));;
  match safeParse data with
  | inl issues =>
      reply {| status := 400;
               payload := ErrorBody (js "Invalid request parameters")
                            (Some issues) None |}
  | inr ids => ret ids
  end.

(** "Get application details and verify ownership" and "Verify user owns
    the application" *)
Definition verify_application (user applicationId : jsstring) : M Application :=
  d <- read_db;;
  match single env SelectApplication (applications d) (VStr applicationId) with
  | None => reply (error_response 404 "Application not found")
  | Some app =>
      if negb (jsstring_eqb (app_user_id app) user) then
        reply (error_response 403
                 "You do not have permission to scan this application")
      else ret app
  end.

(** "Verify scan belongs to application" *)
Definition verify_scan (scanId applicationId : jsstring) : M unit :=
  d <- read_db;;
  match single env SelectScan (security_scans d) (VStr scanId) with
  | None => reply (error_response 400 "Invalid scan request")
  | Some scan =>
      if negb (jsstring_eqb (scan_application_id scan) applicationId) then
        reply (error_response 400 "Invalid scan request")
      else ret tt
  end.

(** The response of the [catch] block and of the failed completion
    call. *)
Definition scan_failed : Response :=
  {| status := 500;
     payload :=
       ErrorBody (js "Security scan failed. Please try again or contact support.")
         None (Some (randomUUID env)) |}.

(** "Perform AI-powered security scan": the [content] of the answer. *)
Definition ask_model : M value :=
  match completion env with
  | FetchRejected => throw FetchError
  | Responded st text =>
      if negb (ok_status st) then
        errorText <- text_of text;;
        reply scan_failed
      else
        aiData <- json_of rt text;;
        lift (message_content aiData)
  end.

(** The body of the [try] block. *)
Definition handle (req : Request) : M Response :=
  user <- authenticate req;;
  ids <- validate req;;
  let scanId := fst ids in
  let applicationId := snd ids in
  issue_write env MarkScanRunning
    (UpdateScanRunning (VStr scanId) (started_time env));;;
  app <- verify_application user applicationId;;
  verify_scan scanId applicationId;;;
  issue_write env MarkAppScanning
    (UpdateApplication (VStr applicationId) AppScanning);;;
  content <- ask_model;;
  persist rt env (VStr scanId) (VStr applicationId)
    (parse_results rt content (app_name app)).

(** The handler: the [OPTIONS] short cut, then the [try] block with its
    [catch]. *)
Definition serve (req : Request) (w : World) : Response * World :=
  if jsstring_eqb (method req) (js "OPTIONS") then
    ({| status := 200; payload := NoContent |}, w)
  else
    match handle req w with
    | Next r w' | Respond r w' => (r, w')
    | Thrown _ w' => (scan_failed, w')
    end.

End Handler.

End SecurityScanner.

(** ** The handler of the second variant ([src/unnamed/part_000]) *)

Module Part000.

Section Handler.

Variable rt : Runtime.
Variable env : Env.

Local Open Scope handler_scope.

(** [error.message] *)
Definition message_of (e : js_error) : jsstring :=
  match e with
  | Error m => m
  | _ => engine_message rt e
  end.

(** "Get application details" *)
Definition find_application (applicationId : value) : M Application :=
  d <- read_db;;
  match single env SelectApplication (applications d) applicationId with
  | None => throw (Error (js "Application not found"))
  | Some app => ret app
  end.

(** "Perform AI-powered security scan": the [content] of the answer. *)
Definition ask_model : M value :=
  match completion env with
  | FetchRejected => throw FetchError
  | Responded st text =>
      if negb (ok_status st) then
        errorText <- text_of text;;
        throw (Error (js "AI API error: " ++ int_to_string st))
      else
        aiData <- json_of rt text;;
        lift (message_content aiData)
  end.

(** The body of the [try] block. *)
Definition handle (req : Request) : M Response :=
  data <- json_of rt (Some (body req));;
  scanId <- lift (get_prop data (js "scanId"));;
  applicationId <- lift (get_prop data (js "applicationId"));;
  issue_write env MarkScanRunning (UpdateScanRunning scanId (started_time env));;;
  app <- find_application applicationId;;
  issue_write env MarkAppScanning (UpdateApplication applicationId AppScanning);;;
  content <- ask_model;;
  persist rt env scanId applicationId (parse_results rt content (app_name app)).

Definition serve (req : Request) (w : World) : Response * World :=
  if jsstring_eqb (method req) (js "OPTIONS") then
    ({| status := 200; payload := NoContent |}, w)
  else
    match handle req w with
    | Next r w' | Respond r w' => (r, w')
    | Thrown e w' =>
        ({| status := 500; payload := ErrorBody (message_of e) None None |}, w')
    end.

End Handler.

End Part000.

(** ** Notions used by the statements *)

(** The six preconditions of the handler of [index.ts] hold for a request:
    it carries a credential that resolves to [user], its body holds the two
    identifiers, the application exists and is the user's, the scan exists
    and belongs to the application. *)
Record preconditions (rt : Runtime) (env : Env) (req : Request) (w : World)
  (user scanId applicationId : jsstring) (app : Application) : Prop := {
  pass_credential :
    exists h, authorization req = Some h /\ h <> []
              /\ getUser env (remove_first (js "Bearer ") h) = Some user;
  pass_body :
    exists data, JSON_parse rt (body req) = Some data
                 /\ SecurityScanner.safeParse rt data = inr (scanId, applicationId);
  pass_application :
    answers env SelectApplication = true
    /\ applications (db w) !! applicationId = Some app
    /\ app_user_id app = user;
  pass_scan :
    answers env SelectScan = true
    /\ exists scan, security_scans (db w) !! scanId = Some scan
                    /\ scan_application_id scan = applicationId
}.

(** The completion API answered with a success status and a body whose
    first choice has the message content [content]. *)
Definition answers_with (rt : Runtime) (env : Env) (content : value) : Prop :=
  exists st text aiData,
    completion env = Responded st (Some text)
    /\ ok_status st = true
    /\ JSON_parse rt text = Some aiData
    /\ message_content aiData = Ok content.

(** [s.indexOf(p)] *)
Fixpoint index_of (p s : jsstring) : option nat :=
  if starts_with p s then Some O
  else match s with
       | [] => None
       | _ :: r => option_map S (index_of p r)
       end.

(** [s] is, after optional white space, a closing fence: the tail
    [\s*```] of the two patterns matches at [s]. *)
Definition closes (s : jsstring) : bool := starts_with fence (trim_start s).

(** The closing tail matches somewhere inside [body], when [rest] follows
    it. *)
Fixpoint closes_inside (body rest : jsstring) : bool :=
  match body with
  | [] => false
  | _ :: b => closes (body ++ rest) || closes_inside b rest
  end.

Definition belongs_to (id : jsstring) (row : Vulnerability) : bool :=
  match filter_id (scan_id row) with
  | Some k => jsstring_eqb k id
  | None => false
  end.

(** The vulnerability rows of one scan. *)
Definition rows_of_scan (id : jsstring) (d : Db) : list Vulnerability :=
  List.filter (belongs_to id) (vulnerabilities d).

(** The invariant of the data model for one invocation that took the world
    from [w] to [w']: the count on the scan row is the number of rows the
    invocation inserted for the scan. *)
Definition count_matches_inserted (id : jsstring) (w w' : World) : Prop :=
  exists scan,
    security_scans (db w') !! id = Some scan /\
    vulnerabilities_found scan
    = num_of_nat (length (rows_of_scan id (db w')) - length (rows_of_scan id (db w))).

(** The world in which the persistence phase starts: the two status updates
    were sent. *)
Definition scanning (env : Env) (scanId applicationId : value) (w : World) : World :=
  send env MarkAppScanning (UpdateApplication applicationId AppScanning)
    (send env MarkScanRunning (UpdateScanRunning scanId (started_time env)) w).

(** [v.k], [undefined] where the read throws. *)
Definition prop (v : value) (k : string) : value :=
  match get_prop v (js k) with
  | Ok x => x
  | Raise _ => VUndefined
  end.

(** The update that records the result [results] with [n] findings. *)
Definition completed_write (env : Env) (scanId results : value) (n : nat) : write :=
  UpdateScanCompleted scanId (prop results "overall_score") (prop results "risk_level")
    (num_of_nat n) (scanDuration env) (completed_time env).

(** The world after the persistence phase for a result with the findings
    [l], of which the rows [rows] were built: the scan update, the insert
    unless the list is empty, the application update. *)
Definition persisted (env : Env) (scanId applicationId results : value)
  (l : list value) (rows : list Vulnerability) (w : World) : World :=
  let recorded := send env CompleteScan (completed_write env scanId results (length l)) w in
  send env MarkAppCompleted (UpdateApplication applicationId AppCompleted)
    match l with
    | [] => recorded
    | _ :: _ => send env InsertFindings (InsertVulnerabilities rows) recorded
    end.

Definition success (results : value) : Response :=
  {| status := 200; payload := SuccessBody results |}.

(** The same run with another fate for the writes. *)
Definition with_accepts (f : statement -> bool) (env : Env) : Env :=
  {| getUser := getUser env;
     answers := answers env;
     accepts := f;
     completion := completion env;
     started_time := started_time env;
     completed_time := completed_time env;
     Math_random := Math_random env;
     randomUUID := randomUUID env |}.

Definition is_error (r : Response) : Prop :=
  exists msg details errorId, payload r = ErrorBody msg details errorId.

(** What no write of the handlers changes: whose an application is and what
    it is called, and which application a scan belongs to. *)
Definition same_refs (d d' : Db) : Prop :=
  (forall k, option_map (fun a => (app_user_id a, app_name a)) (applications d !! k)
             = option_map (fun a => (app_user_id a, app_name a)) (applications d' !! k))
  /\ (forall k, option_map scan_application_id (security_scans d !! k)
                = option_map scan_application_id (security_scans d' !! k)).

(** [w'] is [w] after the writes [tr], which inserted the rows [rs]. *)
Definition extends (w w' : World) (tr : list write) (rs : list Vulnerability) : Prop :=
  issued w' = issued w ++ tr
  /\ vulnerabilities (db w') = vulnerabilities (db w) ++ rs
  /\ same_refs (db w) (db w').

(** Two computations that, from worlds with the same references, end the
    same way after the same writes. *)
Definition parallel {A : Type} (R : A -> A -> Prop) (m1 m2 : M A) : Prop :=
  forall w v, same_refs (db w) (db v) ->
    exists tr rs,
      match m1 w, m2 v with
      | Next a w', Next b v' => R a b /\ extends w w' tr rs /\ extends v v' tr rs
      | Respond r w', Respond r' v' => r = r' /\ extends w w' tr rs /\ extends v v' tr rs
      | Thrown e w', Thrown e' v' => e = e' /\ extends w w' tr rs /\ extends v v' tr rs
      | _, _ => False
      end.

(** A computation that neither reads nor changes the world. *)
Definition stateless {A : Type} (m : M A) : Prop :=
  (exists a, forall w, m w = Next a w)
  \/ (exists r, forall w, m w = Respond r w)
  \/ (exists e, forall w, m w = Thrown e w).

(** Two worlds that differ at most in the rows of [vulnerabilities]. *)
Definition same_but_rows (w1 w2 : World) : Prop :=
  issued w1 = issued w2
  /\ applications (db w1) = applications (db w2)
  /\ security_scans (db w1) = security_scans (db w2).

(** Two outcomes that end the same way in worlds that differ at most in the
    rows of [vulnerabilities]. *)
Definition same_outcome {A : Type} (o1 o2 : outcome A) : Prop :=
  match o1, o2 with
  | Next a w1, Next b w2 => a = b /\ same_but_rows w1 w2
  | Respond r w1, Respond r' w2 => r = r' /\ same_but_rows w1 w2
  | Thrown e w1, Thrown e' w2 => e = e' /\ same_but_rows w1 w2
  | _, _ => False
  end.

(** ** Fixtures of the examples *)

Module Zod.

Definition is_hex (c : N) : bool :=
  ((48 <=? c) && (c <=? 57) || (97 <=? c) && (c <=? 102)
   || (65 <=? c) && (c <=? 70))%N.

(** [n] hexadecimal digits, then the rest. *)
Fixpoint hex_run (n : nat) (s : jsstring) : option jsstring :=
  match n with
  | O => Some s
  | S n' =>
      match s with
      | c :: r => if is_hex c then hex_run n' r else None
      | [] => None
      end
  end.

Definition dash (s : option jsstring) : option jsstring :=
  match s with
  | Some (45%N :: r) => Some r
  | _ => None
  end.

(** Five groups of 8, 4, 4, 4 and 12 hexadecimal digits joined by
    dashes. *)
Definition uuid_shape (s : jsstring) : bool :=
  match hex_run 8 s with
  | None => false
  | Some r1 =>
      match dash (Some r1) with
      | None => false
      | Some r2 =>
          match dash (hex_run 4 r2) with
          | None => false
          | Some r3 =>
              match dash (hex_run 4 r3) with
              | None => false
              | Some r4 =>
                  match dash (hex_run 4 r4) with
                  | None => false
                  | Some r5 =>
                      match hex_run 12 r5 with
                      | Some [] => true
                      | _ => false
                      end
                  end
              end
          end
      end
  end.

End Zod.

Module Fixture.

(** The runtime of the examples.  No example compares anything but a
    number with 0, and none reads the message of a runtime error, so the
    two fields in question hold stand-ins. *)
Definition runtime : Runtime :=
  {| JSON_parse := Json.parse;
     coerced_gt0 := fun _ => Some false;
     engine_message := fun _ => js "runtime error";
     uuid := Zod.uuid_shape |}.

Definition alice : jsstring := js "a11ce000-0000-4000-8000-000000000001".
Definition bob : jsstring := js "b0b00000-0000-4000-8000-000000000002".
Definition shop : jsstring := js "11111111-1111-4111-8111-111111111111".
Definition blog : jsstring := js "44444444-4444-4444-8444-444444444444".
Definition scan1 : jsstring := js "22222222-2222-4222-8222-222222222222".
Definition unknown : jsstring := js "99999999-9999-4999-8999-999999999999".

Definition application (owner : jsstring) (name : string) : Application :=
  {| app_user_id := owner;
     app_name := js name;
     app_url := VNull;
     app_description := VNull;
     app_technology_stack := VNull;
     app_status := AppPending |}.

(** A scan as the page creates it. *)
Definition pending_scan (applicationId : jsstring) : Scan :=
  {| scan_application_id := applicationId;
     scan_status := ScanPending;
     overall_score := VNull;
     risk_level := VNull;
     vulnerabilities_found := num_of_Z 0;
     scan_duration := None;
     started_at := None;
     completed_at := None |}.

(** Alice owns two applications; the scan belongs to the first. *)
Definition world : World :=
  {| db := {| applications :=
                <[shop := application alice "Shop"]>
                  (<[blog := application alice "Blog"]> ∅);
              security_scans := <[scan1 := pending_scan shop]> ∅;
              vulnerabilities := [] |};
     issued := [] |}.

Definition sign_in (token : jsstring) : option jsstring :=
  if jsstring_eqb token (js "alice-token") then Some alice
  else if jsstring_eqb token (js "bob-token") then Some bob
  else None.

(** A run in which every collaborator answers and the completion API
    returns [answer]. *)
Definition run (answer : Completion) : Env :=
  {| getUser := sign_in;
     answers := fun _ => true;
     accepts := fun _ => true;
     completion := answer;
     started_time := js "2025-01-01T10:00:00.000Z";
     completed_time := js "2025-01-01T10:00:07.000Z";
     Math_random := 1 # 2;
     randomUUID := js "0e0e0e0e-0000-4000-8000-00000000000e" |}.

Definition post (credential : option jsstring) (text : jsstring) : Request :=
  {| method := js "POST"; authorization := credential; body := text |}.

Definition ids (scanId applicationId : jsstring) : jsstring :=
  jq "{'scanId':'" ++ scanId ++ jq "','applicationId':'" ++ applicationId ++ jq "'}".

(** The scan request of Alice for her shop. *)
Definition request : Request :=
  post (Some (js "Bearer alice-token")) (ids scan1 shop).

(** A completion whose message is the prose ["I cannot analyze this."] *)
Definition prose : Completion :=
  Responded 200
    (Some (jq "{'choices':[{'message':{'content':'I cannot analyze this.'}}]}")).

(** A completion whose message is the fenced object of the specification. *)
Definition fenced : Completion :=
  Responded 200
    (Some (jq "{'choices':[{'message':{'content':'```json\n{\'overall_score\':10,\'risk_level\':\'high\',\'vulnerabilities\':[]}\n```'}}]}")).

(** The run in which the backend persists every write but the insert of
    the findings. *)
Definition insert_fails (st : statement) : bool :=
  match st with
  | InsertFindings => false
  | _ => true
  end.

(** The answer of the specification: an object in a fence tagged
    [json]. *)
Definition fenced_text : jsstring :=
  jq ("```json" ++ nl
      ++ "{'overall_score':10,'risk_level':'high','vulnerabilities':[]}" ++ nl
      ++ "```").

(** An object one of whose strings holds a fenced code example. *)
Definition object_with_fence : jsstring :=
  jq "{'overall_score':10,'risk_level':'high','vulnerabilities':[{'severity':'high','title':'XSS','code_snippet':'```html <b>{{ name }}</b> ```'}]}".

(** The same object in a fence tagged [json]. *)
Definition fenced_object_with_fence : jsstring :=
  js "```json" ++ [10%N] ++ object_with_fence ++ [10%N] ++ js "```".

Definition unavailable : Completion :=
  Responded 503 (Some (js "upstream connect error: 10.0.3.7:8443")).

End Fixture.

(** * The rest of the pipeline

    What follows embeds the code around the two handlers: the ends a run
    can come to, the row-level security policies of the schema, the trigger
    that creates a profile, and the pages that create a scan
    ([Applications]) and show its result ([ScanResults]). *)

(** ** The ends of a run *)

(** The world in which a computation ends. *)
Definition end_world {A : Type} (o : outcome A) : World :=
  match o with
  | Next _ w | Respond _ w | Thrown _ w => w
  end.

(** The statement of the pipeline a write belongs to, if any: the handlers
    send an application update only with [scanning] or [completed]. *)
Definition statement_of (wr : write) : option statement :=
  match wr with
  | UpdateScanRunning _ _ => Some MarkScanRunning
  | UpdateApplication _ AppScanning => Some MarkAppScanning
  | UpdateScanCompleted _ _ _ _ _ _ => Some CompleteScan
  | InsertVulnerabilities _ => Some InsertFindings
  | UpdateApplication _ AppCompleted => Some MarkAppCompleted
  | UpdateApplication _ _ => None
  end.

(** Between [w] and [w'] exactly the statements [sts] were sent, in this
    order. *)
Definition statements (w w' : World) (sts : list statement) : Prop :=
  exists tr, issued w' = issued w ++ tr /\ map statement_of tr = map Some sts.

(** The world after the first write of a run. *)
Definition marked (env : Env) (scanId : value) (w : World) : World :=
  send env MarkScanRunning (UpdateScanRunning scanId (started_time env)) w.

(** The world after the scan update of the persistence phase, which records
    the count [found]. *)
Definition recorded (env : Env) (scanId results found : value) (w : World) : World :=
  send env CompleteScan
    (UpdateScanCompleted scanId (prop results "overall_score") (prop results "risk_level")
       found (scanDuration env) (completed_time env)) w.

(** The world after the last write of a run. *)
Definition closed (env : Env) (applicationId : value) (w : World) : World :=
  send env MarkAppCompleted (UpdateApplication applicationId AppCompleted) w.

(** The ends of the persistence phase started in [w]: it throws while it
    reads the result, before any write; it throws while it builds the rows,
    after the scan update; it goes through without an insert; it goes
    through with the insert of one row per finding. *)
Inductive persist_end (env : Env) (scanId applicationId results : value) (w : World)
  : outcome Response -> Prop :=
| unread (e : js_error) :
    persist_end env scanId applicationId results w (Thrown e w)
| rows_failed (found : value) (e : js_error) :
    persist_end env scanId applicationId results w
      (Thrown e (recorded env scanId results found w))
| nothing_to_insert (found : value) :
    (forall x l, get_prop results (js "vulnerabilities") <> Ok (VArr (x :: l))) ->
    persist_end env scanId applicationId results w
      (Next (success results) (closed env applicationId (recorded env scanId results found w)))
| inserted (l : list value) (rows : list Vulnerability) :
    get_prop results (js "vulnerabilities") = Ok (VArr l) ->
    l <> [] ->
    map_eval (row_of scanId) l = Ok rows ->
    persist_end env scanId applicationId results w
      (Next (success results)
         (closed env applicationId
            (send env InsertFindings (InsertVulnerabilities rows)
               (recorded env scanId results (num_of_nat (length l)) w)))).

(** The ends of the [try] block of [index.ts] started in [w]. *)
Inductive scanner_end (env : Env) (w : World) : outcome Response -> Prop :=
| missing_credential :
    scanner_end env w (Respond (error_response 401 "Authentication required") w)
| invalid_token :
    scanner_end env w (Respond (error_response 401 "Invalid authentication token") w)
| invalid_parameters (issues : list issue) :
    scanner_end env w
      (Respond {| status := 400;
                  payload := ErrorBody (js "Invalid request parameters") (Some issues) None |}
         w)
| unreadable_body :
    scanner_end env w (Thrown SyntaxError w)
| unknown_application (scanId : jsstring) :
    scanner_end env w
      (Respond (error_response 404 "Application not found") (marked env (VStr scanId) w))
| foreign_application (scanId : jsstring) :
    scanner_end env w
      (Respond (error_response 403 "You do not have permission to scan this application")
         (marked env (VStr scanId) w))
| invalid_scan (scanId : jsstring) :
    scanner_end env w
      (Respond (error_response 400 "Invalid scan request") (marked env (VStr scanId) w))
| completion_failed (scanId applicationId : jsstring) :
    scanner_end env w
      (Respond (SecurityScanner.scan_failed env)
         (scanning env (VStr scanId) (VStr applicationId) w))
| completion_threw (scanId applicationId : jsstring) (e : js_error) :
    scanner_end env w (Thrown e (scanning env (VStr scanId) (VStr applicationId) w))
| persistence (scanId applicationId : jsstring) (results : value) (o : outcome Response) :
    persist_end env (VStr scanId) (VStr applicationId) results
      (scanning env (VStr scanId) (VStr applicationId) w) o ->
    scanner_end env w o.

(** The ends of the [try] block of [part_000] started in [w]. *)
Inductive part000_end (env : Env) (w : World) : outcome Response -> Prop :=
| body_threw (e : js_error) :
    part000_end env w (Thrown e w)
| application_not_found (scanId : value) :
    part000_end env w
      (Thrown (Error (js "Application not found")) (marked env scanId w))
| model_threw (scanId applicationId : value) (e : js_error) :
    part000_end env w (Thrown e (scanning env scanId applicationId w))
| persistence_000 (scanId applicationId results : value) (o : outcome Response) :
    persist_end env scanId applicationId results (scanning env scanId applicationId w) o ->
    part000_end env w o.

(** ** What a run may do to the tables *)

(** An application row after a run: only its status may differ, and then
    it is [scanning] or [completed]. *)
Definition application_moves (a a' : Application) : Prop :=
  app_user_id a' = app_user_id a
  /\ app_name a' = app_name a
  /\ app_url a' = app_url a
  /\ app_description a' = app_description a
  /\ app_technology_stack a' = app_technology_stack a
  /\ (app_status a' = app_status a \/ app_status a' = AppScanning
      \/ app_status a' = AppCompleted).

(** A scan row after a run: it belongs to the same application, and its
    status is the one it had, [running] or [completed]. *)
Definition scan_moves (s s' : Scan) : Prop :=
  scan_application_id s' = scan_application_id s
  /\ (scan_status s' = scan_status s \/ scan_status s' = ScanRunning
      \/ scan_status s' = ScanCompleted).

(** The two tables hold the same keys, and the rows of a key are related. *)
Definition rows_related {A : Type} (R : A -> A -> Prop) (m m' : gmap jsstring A) : Prop :=
  forall k, option_Forall2 R (m !! k) (m' !! k).

Definition evolves (d d' : Db) : Prop :=
  rows_related application_moves (applications d) (applications d')
  /\ rows_related scan_moves (security_scans d) (security_scans d')
  /\ exists rs, vulnerabilities d' = vulnerabilities d ++ rs
                /\ Forall (fun row => vuln_status row = Open) rs.

(** ** Row-level security

    The [SELECT] policies of the schema, for the user [uid] that
    [auth.uid()] returns.  Identifiers are primary keys, so the [EXISTS]
    over a join is a chain of lookups. *)

Module Policy.

(** "Users can view their own applications": [auth.uid() = user_id] *)
Definition view_application (uid : jsstring) (a : Application) : bool :=
  jsstring_eqb uid (app_user_id a).

(** "Users can view scans of their applications" *)
Definition view_scan (uid : jsstring) (d : Db) (s : Scan) : bool :=
  match applications d !! scan_application_id s with
  | Some a => view_application uid a
  | None => false
  end.


End Policy.

(** ** The constraints of the schema

    What the tables require of the columns the handlers write: the [CHECK]
    and [NOT NULL] constraints of [security_scans] and [vulnerabilities].
    A column that is left out or [null] is SQL [NULL]. *)

Module Schema.

Definition is_null (v : value) : bool :=
  match v with
  | VUndefined | VNull => true
  | _ => false
  end.

(** [v IN (names)] *)
Definition one_of (names : list string) (v : value) : bool :=
  match v with
  | VStr s => existsb (fun n => jsstring_eqb s (js n)) names
  | _ => false
  end.

(** [overall_score INTEGER CHECK (overall_score >= 0 AND overall_score <= 100)]:
    a number passes when it is whole and in the range, [NULL] passes, and
    a value of another kind is no [INTEGER]. *)
Definition overall_score_check (v : value) : bool :=
  match v with
  | VNum q => Qeq_bool q (inject_Z (Qfloor q)) && (0 <=? Qfloor q) && (Qfloor q <=? 100)
  | _ => is_null v
  end.

(** [risk_level TEXT CHECK (risk_level IN (...))] *)
Definition risk_level_check (v : value) : bool :=
  is_null v || one_of ["critical"; "high"; "medium"; "low"; "secure"]%string v.

(** The constraints on a row of [vulnerabilities]. *)
Definition vulnerability_check (row : Vulnerability) : bool :=
  negb (is_null (scan_id row))
  && one_of ["critical"; "high"; "medium"; "low"; "info"]%string (severity row)
  && negb (is_null (category row))
  && negb (is_null (title row))
  && negb (is_null (description row))
  && negb (is_null (recommendation row)).

End Schema.

(** ** The trigger [handle_new_user]

    SQL text is a sequence of characters; [None] is [NULL]. *)

Module Sql.

Definition text : Type := option (list N).











End Sql.

(** ** The page [Applications] *)

Module Applications.

(** [s.split(",")], for a separator of one code unit. *)
Fixpoint split (sep : N) (s : jsstring) : list jsstring :=
  match s with
  | [] => [[]]
  | c :: r =>
      if unit_eqb c sep then [] :: split sep r
      else match split sep r with
           | p :: ps => (c :: p) :: ps
           | [] => [[c]]
           end
  end.

Definition comma : N := 44.

(** "Sanitize and validate technology stack" *)
Definition techStack (technology_stack : jsstring) : list jsstring :=
  take 20
    (List.filter (fun t => truthy (VStr t))
       (map (fun t => take 50 (trim t)) (split comma technology_stack))).

(** [techStack.length > 0 ? techStack : null] *)
Definition technology_stack_column (stack : list jsstring) : value :=
  match stack with
  | [] => VNull
  | _ :: _ => VArr (map VStr stack)
  end.


(** The application row of [handleSubmit], for the signed-in user. *)
Definition new_application (user name : jsstring) (description url technology_stack : jsstring)
  : Application :=
  {| app_user_id := user;
     app_name := name;
     app_url := if truthy (VStr url) then VStr url else VNull;
     app_description := if truthy (VStr description) then VStr description else VNull;
     app_technology_stack := technology_stack_column (techStack technology_stack);
     app_status := AppPending |}.

(** The scan row of [handleSubmit]; the columns it does not send take
    their defaults. *)
Definition new_scan (applicationId : jsstring) : Scan :=
  {| scan_application_id := applicationId;
     scan_status := ScanPending;
     overall_score := VNull;
     risk_level := VNull;
     vulnerabilities_found := num_of_Z 0;
     scan_duration := None;
     started_at := None;
     completed_at := None |}.

(** The tables after the two inserts of [handleSubmit] for the validated
    fields of the form, when the backend gave the application the
    identifier [applicationId] and the scan the identifier [scanId]. *)
Definition handleSubmit_inserts (user applicationId scanId : jsstring)
  (name description url technology_stack : jsstring) (d : Db) : Db :=
  {| applications :=
       <[applicationId := new_application user name description url technology_stack]>
         (applications d);
     security_scans := <[scanId := new_scan applicationId]> (security_scans d);
     vulnerabilities := vulnerabilities d |}.

(** The label of the status badge of an application card. *)
Definition status_label (st : AppStatus) : jsstring :=
  match st with
  | AppCompleted => js "Concluído"
  | AppScanning => js "Analisando"
  | AppFailed => js "Erro"
  | AppPending => js "Pendente"
  end.

End Applications.

(** ** The page [ScanResults] *)

Module ScanResults.

Inductive Icon : Type := XCircle | AlertTriangle | Info | CheckCircle.

(** [v === "text"] *)
Definition strict_eq (v : value) (text : string) : bool :=
  match v with
  | VStr s => jsstring_eqb s (js text)
  | _ => false
  end.

Definition getSeverityColor (severity : value) : jsstring :=
  if strict_eq severity "critical" then js "bg-red-500/20 text-red-500 border-red-500/50"
  else if strict_eq severity "high" then js "bg-orange-500/20 text-orange-500 border-orange-500/50"
  else if strict_eq severity "medium" then js "bg-yellow-500/20 text-yellow-500 border-yellow-500/50"
  else if strict_eq severity "low" then js "bg-blue-500/20 text-blue-500 border-blue-500/50"
  else js "bg-muted text-muted-foreground border-muted".

Definition getSeverityIcon (severity : value) : Icon :=
  if strict_eq severity "critical" || strict_eq severity "high" then XCircle
  else if strict_eq severity "medium" then AlertTriangle
  else if strict_eq severity "low" || strict_eq severity "info" then Info
  else CheckCircle.

(** The state of the component. *)
Record State : Type := {
  loading : bool;
  application : option Application;
  scans : list (jsstring * Scan);
  vulnerabilities : list Vulnerability
}.

Definition initial : State :=
  {| loading := true; application := None; scans := []; vulnerabilities := [] |}.

(** The answers of the backend to the three queries of [loadData]: the
    application with an identifier and an owner, the scans of an
    application (newest first), the vulnerabilities of a scan.  [None] is
    the [data: null] of a failed query. *)
Record Backend : Type := {
  select_application : jsstring -> jsstring -> option Application;
  select_scans : jsstring -> option (list (jsstring * Scan));
  select_vulnerabilities : jsstring -> option (list Vulnerability)
}.

(** [loadData], for the route parameter [id] and the user of the session
    ([None] without a session): the state it leaves, and whether it
    navigates away. *)
Definition loadData (backend : Backend) (session : option jsstring) (id : jsstring)
  (s : State) : State * bool :=
  let s1 := {| loading := true; application := application s; scans := scans s;
               vulnerabilities := vulnerabilities s |} in
  match session with
  | None => (s1, false)
  | Some user =>
      match select_application backend id user with
      | None => (s1, true)
      | Some app =>
          let scansData := default [] (select_scans backend id) in
          let rows :=
            match scansData with
            | (latest, _) :: _ => default [] (select_vulnerabilities backend latest)
            | [] => vulnerabilities s
            end in
          ({| loading := false; application := Some app; scans := scansData;
              vulnerabilities := rows |}, false)
      end
  end.

(** [vulnerabilities.filter(v => v.severity === name).length] *)
Definition count (name : string) (rows : list Vulnerability) : nat :=
  length (List.filter (fun v => strict_eq (severity v) name) rows).

(** The icon and the badge colour of a finding.  The badge prints
    [vuln.severity.toUpperCase()], which throws unless the severity is a
    string. *)
Definition card (v : Vulnerability) : eval (Icon * jsstring) :=
  match severity v with
  | VStr _ => Ok (getSeverityIcon (severity v), getSeverityColor (severity v))
  | _ => Raise TypeError
  end.

(** What is rendered: the pulse while loading, the notice that the scan
    is in progress, or the report with the heading, the score, the three
    counters, the summary line, and the icon and badge colour of every
    finding. *)
Inductive View : Type :=
| Pulse
| InProgress (heading : jsstring)
| Report (heading : jsstring) (score : value) (critical high medium : nat)
    (summary : jsstring) (cards : list (Icon * jsstring)).

Definition secure_summary : jsstring :=
  js "Nenhuma vulnerabilidade encontrada. Sua aplicação está segura! 🎉".

(** The component function; [Raise TypeError] where it reads a property
    of [null]. *)
Definition render (s : State) : eval View :=
  if loading s then Ok Pulse
  else
    match application s with
    | None => Raise TypeError
    | Some app =>
        match scans s with
        | [] => Ok (InProgress (app_name app))
        | (_, latestScan) :: _ =>
            match scan_status latestScan with
            | ScanPending => Ok (InProgress (app_name app))
            | _ =>
                let rows := vulnerabilities s in
                match map_eval card rows with
                | Raise e => Raise e
                | Ok cards =>
                    Ok (Report (app_name app)
                          (if truthy (overall_score latestScan)
                           then overall_score latestScan
                           else num_of_Z 0)
                          (count "critical" rows) (count "high" rows)
                          (count "medium" rows)
                          (match rows with
                           | [] => secure_summary
                           | _ :: _ =>
                               int_to_string (Z.of_nat (length rows))
                                 ++ js " vulnerabilidade(s) detectada(s)"
                           end)
                          cards)
                end
            end
        end
    end.

End ScanResults.

(** ** More fixtures *)

Module Scenario.

Import Fixture.

Definition answer (content : string) : Completion :=
  Responded 200
    (Some (jq "{'choices':[{'message':{'content':'" ++ jq content ++ jq "'}}]}")).

(** A result without findings. *)
Definition shapeless : Completion := answer "{\'overall_score\':90}".

(** A result one of whose findings is [null]. *)
Definition null_finding : Completion :=
  answer "{\'overall_score\':40,\'risk_level\':\'high\',\'vulnerabilities\':[{\'severity\':\'high\',\'title\':\'XSS\'},null]}".

(** An answer of the completion API that holds no choice. *)
Definition refused : Completion :=
  Responded 200 (Some (jq "{'error':{'message':'rate limited'}}")).

(** An answer whose message has no text. *)
Definition silent : Completion :=
  Responded 200 (Some (jq "{'choices':[{'message':{'content':null}}]}")).

(** The request of Fixture.request with the bare token as credential. *)
Definition bare_request : Request := post (Some (js "alice-token")) (ids scan1 shop).

(** A request for an application nobody has. *)
Definition stray_request : Request :=
  post (Some (js "Bearer alice-token")) (ids scan1 unknown).

(** The backend of the page after a run that ended in [w]: Alice's shop
    has the one scan. *)
Definition backend (w : World) : ScanResults.Backend :=
  {| ScanResults.select_application :=
       fun id user =>
         match applications (db w) !! id with
         | Some a => if Policy.view_application user a then Some a else None
         | None => None
         end;
     ScanResults.select_scans :=
       fun id =>
         match security_scans (db w) !! scan1 with
         | Some s => if jsstring_eqb (scan_application_id s) id then Some [(scan1, s)]
                     else Some []
         | None => Some []
         end;
     ScanResults.select_vulnerabilities := fun k => Some (rows_of_scan k (db w)) |}.

Definition wiki : jsstring := js "55555555-5555-4555-8555-555555555555".
Definition scan2 : jsstring := js "66666666-6666-4666-8666-666666666666".

(** Bob adds an application through the page. *)
Definition submitted : World :=
  {| db := Applications.handleSubmit_inserts bob wiki scan2 (js "Wiki") []
             (js "https://wiki.example") (js "Django, PostgreSQL") (db world);
     issued := [] |}.

Definition finding (sev : string) : Vulnerability :=
  {| scan_id := VStr scan1;
     severity := VStr (js sev);
     category := VStr (js "Injection");
     title := VStr (js "SQL injection");
     description := VStr (js "The search form builds its query from the input.");
     affected_component := VStr (js "search");
     cve_id := VNull;
     cvss_score := VNull;
     recommendation := VStr (js "Bind the parameters.");
     code_snippet := VNull;
     vuln_status := Open |}.

(** A backend that holds a finished scan of the shop with two findings. *)
Definition listing : ScanResults.Backend :=
  {| ScanResults.select_application :=
       fun id user =>
         if jsstring_eqb id shop && jsstring_eqb user alice
         then Some (application alice "Shop") else None;
     ScanResults.select_scans :=
       fun _ =>
         Some [(scan1,
                set_completed (num_of_Z 40) (VStr (js "high")) (num_of_Z 2) 45
                  (js "2025-01-01T10:00:07.000Z") (pending_scan shop))];
     ScanResults.select_vulnerabilities := fun _ => Some [finding "high"; finding "info"] |}.

End Scenario.

Example js_ascii : js "```json" = [96; 96; 96; 106; 115; 111; 110]%N.
Proof. reflexivity. Qed.

Example js_latin : js "Análise" = [65; 110; 225; 108; 105; 115; 101]%N.
Proof. reflexivity. Qed.

Example trim_example : trim (js "  {} ") = js "{}".
Proof. reflexivity. Qed.

Example remove_first_bearer : remove_first (js "Bearer ") (js "Bearer abc") = js "abc".
Proof. reflexivity. Qed.

Example int_to_string_503 : int_to_string 503 = js "503".
Proof. reflexivity. Qed.

Example jsonStr_tagged :
  jsonStr (jq ("```json" ++ nl ++ "{'a':1}" ++ nl ++ "```")) = jq "{'a':1}".
Proof. reflexivity. Qed.

Example json_parse_object :
  Json.parse (jq "{'overall_score':10,'risk_level':'high','vulnerabilities':[]}")
  = Some (VObj [(js "overall_score", num_of_Z 10);
                (js "risk_level", VStr (js "high"));
                (js "vulnerabilities", VArr [])]).
Proof. vm_compute. reflexivity. Qed.

Example json_parse_prose : Json.parse (js "I cannot analyze this.") = None.
Proof. vm_compute. reflexivity. Qed.

Example json_parse_nested :
  Json.parse (jq " [ {'a' : [1.5, -2e2, true, null]} , 'x\nA' ] ")
  = Some (VArr [VObj [(js "a", VArr [VNum (3 # 2); num_of_Z (-200); VBool true; VNull])];
                VStr [120; 10; 65]%N]).
Proof. vm_compute. reflexivity. Qed.

Example json_parse_rejects :
  map Json.parse [js "{"; js "[1,]"; js "01"; jq "{'a':1} x"; []; jq "{'a':'"]
  = [None; None; None; None; None; None].
Proof. vm_compute. reflexivity. Qed.

(** * Properties *)

Import Fixture.

(** Closed statements about runs of the fixtures are settled by
    evaluation, one conjunct at a time. *)
Ltac evaluate :=
  repeat first [ progress intros
               | match goal with
                 | |- _ /\ _ => split
                 end ];
  vm_compute; reflexivity.

(** ** Runs of the fixtures *)

Example scanner_prose_run :
  let r := fst (SecurityScanner.serve runtime (run prose) request world) in
  let w' := snd (SecurityScanner.serve runtime (run prose) request world) in
  r = {| status := 200; payload := SuccessBody (fallback (js "Shop")) |}
  /\ length (issued w') = 5%nat
  /\ option_map scan_status (security_scans (db w') !! scan1) = Some ScanCompleted
  /\ option_map vulnerabilities_found (security_scans (db w') !! scan1) = Some (num_of_Z 1)
  /\ option_map app_status (applications (db w') !! shop) = Some AppCompleted
  /\ length (vulnerabilities (db w')) = 1%nat.
Proof. evaluate. Qed.

Example scanner_fenced_run :
  let r := fst (SecurityScanner.serve runtime (run fenced) request world) in
  let w' := snd (SecurityScanner.serve runtime (run fenced) request world) in
  r = {| status := 200;
         payload := SuccessBody (VObj [(js "overall_score", num_of_Z 10);
                                       (js "risk_level", VStr (js "high"));
                                       (js "vulnerabilities", VArr [])]) |}
  /\ length (issued w') = 4%nat
  /\ vulnerabilities (db w') = [].
Proof. evaluate. Qed.

Example scanner_unavailable :
  fst (SecurityScanner.serve runtime (run unavailable) request world)
  = {| status := 500;
       payload := ErrorBody (js "Security scan failed. Please try again or contact support.")
                    None (Some (js "0e0e0e0e-0000-4000-8000-00000000000e")) |}.
Proof. evaluate. Qed.

Example scanner_bad_ids :
  SecurityScanner.serve runtime (run prose)
    (post (Some (js "Bearer alice-token")) (jq "{'scanId':'7','extra':true}")) world
  = ({| status := 400;
        payload := ErrorBody (js "Invalid request parameters")
                     (Some [{| code := invalid_string; path := [js "scanId"] |};
                            {| code := invalid_type; path := [js "applicationId"] |}])
                     None |}, world).
Proof. vm_compute. reflexivity. Qed.

(** Fields besides the two identifiers are ignored by the schema. *)
Example scanner_accepts_extra_fields :
  SecurityScanner.safeParse runtime
    (VObj [(js "scanId", VStr scan1); (js "applicationId", VStr shop);
           (js "force", VBool true)])
  = inr (scan1, shop).
Proof. evaluate. Qed.

(** ** Text *)

Lemma unit_eqb_eq (a b : N) : unit_eqb a b = true <-> a = b.
Proof. unfold unit_eqb. apply N.eqb_eq. Qed.

Lemma jsstring_eqb_eq (a b : jsstring) : jsstring_eqb a b = true <-> a = b.
Proof.
  revert b. induction a as [|x a IH]; intros [|y b]; simpl; split; try congruence; auto.
  - intros H. apply andb_prop in H as [Hx Hab].
    apply unit_eqb_eq in Hx. apply IH in Hab. congruence.
  - intros H. injection H as -> ->. apply andb_true_intro. split.
    + now apply unit_eqb_eq.
    + now apply IH.
Qed.

Lemma jsstring_eqb_refl (a : jsstring) : jsstring_eqb a a = true.
Proof. now apply jsstring_eqb_eq. Qed.

Lemma jsstring_eqb_neq (a b : jsstring) : jsstring_eqb a b = false <-> a <> b.
Proof.
  split.
  - intros H E. apply jsstring_eqb_eq in E. congruence.
  - intros H. destruct (jsstring_eqb a b) eqn:E; [|reflexivity].
    apply jsstring_eqb_eq in E. contradiction.
Qed.

(** ** Control flow *)

Lemma bind_Next {A B : Type} (m : M A) (k : A -> M B) w a w1 :
  m w = Next a w1 -> bind m k w = k a w1.
Proof. unfold bind. now intros ->. Qed.

Lemma bind_Respond {A B : Type} (m : M A) (k : A -> M B) w r w1 :
  m w = Respond r w1 -> bind m k w = Respond r w1.
Proof. unfold bind. now intros ->. Qed.

Lemma bind_Thrown {A B : Type} (m : M A) (k : A -> M B) w e w1 :
  m w = Thrown e w1 -> bind m k w = Thrown e w1.
Proof. unfold bind. now intros ->. Qed.

Lemma bind_Next_inv {A B : Type} (m : M A) (k : A -> M B) w b w' :
  bind m k w = Next b w' -> exists a w1, m w = Next a w1 /\ k a w1 = Next b w'.
Proof. unfold bind. destruct (m w); intros H; try discriminate. eauto. Qed.

Lemma lift_Next_inv {A : Type} (x : eval A) w a w' :
  lift x w = Next a w' -> x = Ok a /\ w' = w.
Proof. destruct x; cbn; intros H; inversion H; auto. Qed.

Lemma lift_not_Respond {A : Type} (x : eval A) w r w' : lift x w <> Respond r w'.
Proof. destruct x; cbn; discriminate. Qed.

(** ** Writes *)

Lemma update_row_lookup {A : Type} (f : A -> A) (id : value) (m : gmap jsstring A) k :
  update_row f id m !! k
  = match filter_id id with
    | Some k' => if decide (k' = k) then f <$> (m !! k) else m !! k
    | None => m !! k
    end.
Proof.
  unfold update_row. destruct (filter_id id) as [k'|]; [|reflexivity].
  destruct (m !! k') as [row|] eqn:E.
  - destruct (decide (k' = k)) as [->|Hne].
    + rewrite lookup_insert_eq, E. reflexivity.
    + now rewrite lookup_insert_ne.
  - destruct (decide (k' = k)) as [->|Hne]; [now rewrite E | reflexivity].
Qed.

Lemma update_row_hit {A : Type} (f : A -> A) (k : jsstring) (m : gmap jsstring A) row :
  m !! k = Some row -> update_row f (VStr k) m !! k = Some (f row).
Proof.
  intros E. rewrite update_row_lookup. cbn.
  destruct (decide (k = k)); [|congruence]. now rewrite E.
Qed.

Section Sending.

Variable env : Env.

Lemma issued_send st wr w : issued (send env st wr w) = issued w ++ [wr].
Proof. reflexivity. Qed.

Lemma send_scan_keeps_applications st id started w :
  applications (db (send env st (UpdateScanRunning id started) w)) = applications (db w).
Proof. unfold send. cbn. now destruct (accepts env st). Qed.

Lemma send_application_keeps_scans st id s w :
  security_scans (db (send env st (UpdateApplication id s) w)) = security_scans (db w).
Proof. unfold send. cbn. now destruct (accepts env st). Qed.

Lemma send_application_keeps_rows st id s w :
  vulnerabilities (db (send env st (UpdateApplication id s) w)) = vulnerabilities (db w).
Proof. unfold send. cbn. now destruct (accepts env st). Qed.

Lemma send_running_keeps_rows st id started w :
  vulnerabilities (db (send env st (UpdateScanRunning id started) w))
  = vulnerabilities (db w).
Proof. unfold send. cbn. now destruct (accepts env st). Qed.

Lemma send_completed_keeps_rows st id a b c d e w :
  vulnerabilities (db (send env st (UpdateScanCompleted id a b c d e) w))
  = vulnerabilities (db w).
Proof. unfold send. cbn. now destruct (accepts env st). Qed.

Lemma send_insert_keeps_scans st rows w :
  security_scans (db (send env st (InsertVulnerabilities rows) w)) = security_scans (db w).
Proof. unfold send. cbn. now destruct (accepts env st). Qed.

(** Marking a scan [running] keeps the application it belongs to. *)
Lemma send_running_scan st id started w k scan :
  security_scans (db w) !! k = Some scan ->
  exists scan',
    security_scans (db (send env st (UpdateScanRunning id started) w)) !! k = Some scan'
    /\ scan_application_id scan' = scan_application_id scan.
Proof.
  intros E. unfold send. cbn. destruct (accepts env st); cbn; [|eauto].
  rewrite update_row_lookup. destruct (filter_id id) as [k'|]; [|eauto].
  destruct (decide (k' = k)); [|eauto]. rewrite E. cbn. eauto.
Qed.

End Sending.

(** ** The way to the persistence phase *)

Section Reach.

Variable rt : Runtime.
Variable env : Env.

Lemma authenticate_passes req w h user :
  authorization req = Some h -> h <> [] ->
  getUser env (remove_first (js "Bearer ") h) = Some user ->
  SecurityScanner.authenticate env req w = Next user w.
Proof.
  intros Hh Hne Hu. unfold SecurityScanner.authenticate. rewrite Hh.
  destruct h as [|c h]; [congruence|]. cbv beta iota. now rewrite Hu.
Qed.

Lemma validate_passes req w data ids :
  JSON_parse rt (body req) = Some data ->
  SecurityScanner.safeParse rt data = inr ids ->
  SecurityScanner.validate rt req w = Next ids w.
Proof.
  intros Hd Hs. unfold SecurityScanner.validate, bind, json_of.
  rewrite Hd. unfold ret. now rewrite Hs.
Qed.

Lemma validate_rejects req w data issues :
  JSON_parse rt (body req) = Some data ->
  SecurityScanner.safeParse rt data = inl issues ->
  SecurityScanner.validate rt req w
  = Respond {| status := 400;
               payload := ErrorBody (js "Invalid request parameters") (Some issues) None |} w.
Proof.
  intros Hd Hs. unfold SecurityScanner.validate, bind, json_of.
  rewrite Hd. unfold ret. now rewrite Hs.
Qed.

Lemma validate_throws req w :
  JSON_parse rt (body req) = None ->
  SecurityScanner.validate rt req w = Thrown SyntaxError w.
Proof.
  intros Hd. unfold SecurityScanner.validate, bind, json_of. now rewrite Hd.
Qed.

Lemma verify_application_passes w user applicationId app :
  answers env SelectApplication = true ->
  applications (db w) !! applicationId = Some app ->
  app_user_id app = user ->
  SecurityScanner.verify_application env user applicationId w = Next app w.
Proof.
  intros Ha Hl Hu. unfold SecurityScanner.verify_application, bind, read_db, single.
  rewrite Ha. cbn. rewrite Hl, Hu, jsstring_eqb_refl. reflexivity.
Qed.

Lemma verify_scan_passes w scanId applicationId scan :
  answers env SelectScan = true ->
  security_scans (db w) !! scanId = Some scan ->
  scan_application_id scan = applicationId ->
  SecurityScanner.verify_scan env scanId applicationId w = Next tt w.
Proof.
  intros Ha Hl Hu. unfold SecurityScanner.verify_scan, bind, read_db, single.
  rewrite Ha. cbn. rewrite Hl, Hu, jsstring_eqb_refl. reflexivity.
Qed.

Lemma ask_model_answers w content :
  answers_with rt env content -> SecurityScanner.ask_model rt env w = Next content w.
Proof.
  intros (st & text & aiData & Hc & Hok & Hj & Hm).
  unfold SecurityScanner.ask_model. rewrite Hc, Hok. cbn.
  unfold bind, json_of. rewrite Hj. cbn. rewrite Hm. reflexivity.
Qed.

(** A request that passes the preconditions reaches the completion call,
    the two status updates sent. *)
Lemma scanner_reaches_model req w user scanId applicationId app :
  preconditions rt env req w user scanId applicationId app ->
  SecurityScanner.handle rt env req w
  = bind (SecurityScanner.ask_model rt env)
      (fun content =>
         persist rt env (VStr scanId) (VStr applicationId)
           (parse_results rt content (app_name app)))
      (scanning env (VStr scanId) (VStr applicationId) w).
Proof.
  intros [(h & Hh & Hne & Hu) (data & Hd & Hs) (Ha & Hl & Ho) (Hq & scan & Hsl & Hsa)].
  unfold SecurityScanner.handle.
  rewrite (bind_Next _ _ _ _ _ (authenticate_passes req w h user Hh Hne Hu)).
  rewrite (bind_Next _ _ _ _ _ (validate_passes req w data _ Hd Hs)).
  cbn [fst snd].
  unfold bind at 1. unfold issue_write at 1.
  set (wA := send env MarkScanRunning _ w).
  assert (HA : applications (db wA) !! applicationId = Some app).
  { subst wA. now rewrite send_scan_keeps_applications. }
  destruct (send_running_scan env MarkScanRunning (VStr scanId) (started_time env)
              w scanId scan Hsl) as (scan' & Hsl' & Hsa').
  fold wA in Hsl'.
  rewrite (bind_Next _ _ _ _ _ (verify_application_passes wA user applicationId app Ha HA Ho)).
  rewrite (bind_Next _ _ _ _ _ (verify_scan_passes wA scanId applicationId scan' Hq Hsl'
                                  (eq_trans Hsa' Hsa))).
  unfold bind at 1. unfold issue_write at 1.
  reflexivity.
Qed.

(** A request that passes the preconditions, with an answer of the
    completion API, reaches the persistence phase. *)
Lemma scanner_reaches_persist req w user scanId applicationId app content :
  preconditions rt env req w user scanId applicationId app ->
  answers_with rt env content ->
  SecurityScanner.handle rt env req w
  = persist rt env (VStr scanId) (VStr applicationId)
      (parse_results rt content (app_name app))
      (scanning env (VStr scanId) (VStr applicationId) w).
Proof.
  intros Hpre Hans.
  rewrite (scanner_reaches_model req w user scanId applicationId app Hpre).
  now rewrite (bind_Next _ _ _ _ _ (ask_model_answers _ content Hans)).
Qed.

(** *** The checks that come after the first write *)

Lemma verify_application_unknown w user applicationId :
  single env SelectApplication (applications (db w)) (VStr applicationId) = None ->
  SecurityScanner.verify_application env user applicationId w
  = Respond (error_response 404 "Application not found") w.
Proof.
  intros H. unfold SecurityScanner.verify_application, bind, read_db. now rewrite H.
Qed.

Lemma verify_application_foreign w user applicationId app :
  single env SelectApplication (applications (db w)) (VStr applicationId) = Some app ->
  app_user_id app <> user ->
  SecurityScanner.verify_application env user applicationId w
  = Respond (error_response 403 "You do not have permission to scan this application") w.
Proof.
  intros H Hne. unfold SecurityScanner.verify_application, bind, read_db. rewrite H.
  apply jsstring_eqb_neq in Hne. now rewrite Hne.
Qed.

Lemma verify_scan_mismatch w scanId applicationId scan :
  single env SelectScan (security_scans (db w)) (VStr scanId) = Some scan ->
  scan_application_id scan <> applicationId ->
  SecurityScanner.verify_scan env scanId applicationId w
  = Respond (error_response 400 "Invalid scan request") w.
Proof.
  intros H Hne. unfold SecurityScanner.verify_scan, bind, read_db. rewrite H.
  apply jsstring_eqb_neq in Hne. now rewrite Hne.
Qed.

(** The first write of the handler of [index.ts] follows the check of the
    credential and of the body, and comes before the three checks that
    need the tables. *)
Lemma scanner_after_gate req w h user data scanId applicationId :
  jsstring_eqb (method req) (js "OPTIONS") = false ->
  authorization req = Some h -> h <> [] ->
  getUser env (remove_first (js "Bearer ") h) = Some user ->
  JSON_parse rt (body req) = Some data ->
  SecurityScanner.safeParse rt data = inr (scanId, applicationId) ->
  let marked := send env MarkScanRunning
                  (UpdateScanRunning (VStr scanId) (started_time env)) w in
  (single env SelectApplication (applications (db w)) (VStr applicationId) = None ->
   SecurityScanner.serve rt env req w
   = (error_response 404 "Application not found", marked))
  /\ (forall app,
        single env SelectApplication (applications (db w)) (VStr applicationId) = Some app ->
        app_user_id app <> user ->
        SecurityScanner.serve rt env req w
        = (error_response 403 "You do not have permission to scan this application",
           marked))
  /\ (forall app scan,
        single env SelectApplication (applications (db w)) (VStr applicationId) = Some app ->
        app_user_id app = user ->
        single env SelectScan (security_scans (db marked)) (VStr scanId) = Some scan ->
        scan_application_id scan <> applicationId ->
        SecurityScanner.serve rt env req w
        = (error_response 400 "Invalid scan request", marked)).
Proof.
  intros Hm Hh Hne Hu Hd Hs marked.
  assert (Hstart :
             SecurityScanner.serve rt env req w
             = match bind (SecurityScanner.verify_application env user applicationId)
                       (fun app =>
                          bind (SecurityScanner.verify_scan env scanId applicationId)
                            (fun _ =>
                               bind (issue_write env MarkAppScanning
                                       (UpdateApplication (VStr applicationId) AppScanning))
                                 (fun _ =>
                                    bind (SecurityScanner.ask_model rt env)
                                      (fun content =>
                                         persist rt env (VStr scanId) (VStr applicationId)
                                           (parse_results rt content (app_name app))))))
                       marked with
               | Next r w' | Respond r w' => (r, w')
               | Thrown _ w' => (SecurityScanner.scan_failed env, w')
               end).
  { unfold SecurityScanner.serve. rewrite Hm. unfold SecurityScanner.handle.
    rewrite (bind_Next _ _ _ _ _ (authenticate_passes req w h user Hh Hne Hu)).
    rewrite (bind_Next _ _ _ _ _ (validate_passes req w data _ Hd Hs)).
    cbn [fst snd]. unfold bind at 1. unfold issue_write at 1. reflexivity. }
  assert (Happs : applications (db marked) = applications (db w)).
  { subst marked. apply send_scan_keeps_applications. }
  split; [|split].
  - intros Hnone. rewrite Hstart.
    rewrite (bind_Respond _ _ _ _ _ (verify_application_unknown marked user applicationId
                                       (eq_trans (f_equal (fun t => single env SelectApplication t _) Happs) Hnone))).
    reflexivity.
  - intros app Hsome Hforeign. rewrite Hstart.
    rewrite (bind_Respond _ _ _ _ _ (verify_application_foreign marked user applicationId app
                                       (eq_trans (f_equal (fun t => single env SelectApplication t _) Happs) Hsome)
                                       Hforeign)).
    reflexivity.
  - intros app scan Hsome Hown Hscan Hmis. rewrite Hstart.
    assert (Hva : SecurityScanner.verify_application env user applicationId marked
                  = Next app marked).
    { unfold single in Hsome.
      destruct (answers env SelectApplication) eqn:Ha; [|discriminate].
      cbn [filter_id] in Hsome.
      apply verify_application_passes; [exact Ha | now rewrite Happs | exact Hown]. }
    rewrite (bind_Next _ _ _ _ _ Hva).
    rewrite (bind_Respond _ _ _ _ _ (verify_scan_mismatch marked scanId applicationId scan
                                       Hscan Hmis)).
    reflexivity.
Qed.

(** When the completion call does not succeed, the handler of [index.ts]
    answers with the fixed message and a fresh identifier, whatever the
    status and the body of the failed call, and writes nothing more. *)
Lemma scanner_hides_completion_failure req w user scanId applicationId app st text :
  jsstring_eqb (method req) (js "OPTIONS") = false ->
  preconditions rt env req w user scanId applicationId app ->
  completion env = Responded st text ->
  ok_status st = false ->
  SecurityScanner.serve rt env req w
  = (SecurityScanner.scan_failed env, scanning env (VStr scanId) (VStr applicationId) w).
Proof.
  intros Hm Hpre Hc Hok. unfold SecurityScanner.serve. rewrite Hm.
  rewrite (scanner_reaches_model req w user scanId applicationId app Hpre).
  unfold bind at 1. unfold SecurityScanner.ask_model. rewrite Hc, Hok.
  cbn [negb]. unfold bind, text_of. destruct text; reflexivity.
Qed.

End Reach.

(** ** Requests that are turned away before any write *)

Section Gate.

Variable rt : Runtime.
Variable env : Env.

(** A request without a credential, or with one the authentication
    service does not resolve to a user, is answered 401 by the handler of
    [index.ts], and nothing is written. *)
Lemma scanner_rejects_unauthenticated (req : Request) (w : World) :
  jsstring_eqb (method req) (js "OPTIONS") = false ->
  authorization req = None \/ authorization req = Some []
  \/ (exists h, authorization req = Some h
                /\ getUser env (remove_first (js "Bearer ") h) = None) ->
  exists msg : string,
    SecurityScanner.serve rt env req w = (error_response 401 msg, w).
Proof.
  intros Hm Hc. unfold SecurityScanner.serve. rewrite Hm.
  unfold SecurityScanner.handle.
  assert (Hr : exists msg : string,
             SecurityScanner.authenticate env req w = Respond (error_response 401 msg) w).
  { unfold SecurityScanner.authenticate.
    destruct Hc as [-> | [-> | (h & -> & Hu)]]; [eexists; reflexivity ..|].
    destruct h as [|c h]; [eexists; reflexivity|].
    cbv beta iota. rewrite Hu. eexists; reflexivity. }
  destruct Hr as (msg & Hr). exists msg.
  rewrite (bind_Respond _ _ _ _ _ Hr). reflexivity.
Qed.

(** A body that is JSON but does not match the schema is answered 400 with
    the issues by the handler of [index.ts], and nothing is written. *)
Lemma scanner_rejects_invalid_ids (req : Request) (w : World) user data issues :
  jsstring_eqb (method req) (js "OPTIONS") = false ->
  SecurityScanner.authenticate env req w = Next user w ->
  JSON_parse rt (body req) = Some data ->
  SecurityScanner.safeParse rt data = inl issues ->
  SecurityScanner.serve rt env req w
  = ({| status := 400;
        payload := ErrorBody (js "Invalid request parameters") (Some issues) None |}, w).
Proof.
  intros Hm Ha Hd Hs. unfold SecurityScanner.serve. rewrite Hm.
  unfold SecurityScanner.handle.
  rewrite (bind_Next _ _ _ _ _ Ha).
  rewrite (bind_Respond _ _ _ _ _ (validate_rejects rt req w data issues Hd Hs)).
  reflexivity.
Qed.

(** A body that is not JSON makes [req.json()] throw: the [catch] answers
    500, and nothing is written. *)
Lemma scanner_fails_on_unreadable_body (req : Request) (w : World) user :
  jsstring_eqb (method req) (js "OPTIONS") = false ->
  SecurityScanner.authenticate env req w = Next user w ->
  JSON_parse rt (body req) = None ->
  SecurityScanner.serve rt env req w = (SecurityScanner.scan_failed env, w).
Proof.
  intros Hm Ha Hd. unfold SecurityScanner.serve. rewrite Hm.
  unfold SecurityScanner.handle.
  rewrite (bind_Next _ _ _ _ _ Ha).
  rewrite (bind_Thrown _ _ _ _ _ (validate_throws rt req w Hd)).
  reflexivity.
Qed.

End Gate.

(** ** The persistence phase *)

Section Persist.

Variable rt : Runtime.
Variable env : Env.

Lemma get_prop_total v k x :
  get_prop v k = Ok x -> forall k', get_prop v (js k') = Ok (prop v k').
Proof.
  intros H k'. unfold prop. destruct v; cbn in *; try discriminate; reflexivity.
Qed.

Lemma row_of_scan_id scanId vuln row : row_of scanId vuln = Ok row -> scan_id row = scanId.
Proof. unfold row_of. destruct vuln; intros H; inversion H; reflexivity. Qed.

Lemma map_eval_rows scanId l rows :
  map_eval (row_of scanId) l = Ok rows ->
  length rows = length l /\ Forall (fun row => scan_id row = scanId) rows.
Proof.
  revert rows. induction l as [|x l IH]; cbn; intros rows H.
  - inversion H. split; [reflexivity | constructor].
  - destruct (row_of scanId x) as [row|] eqn:Er; [|discriminate].
    destruct (map_eval (row_of scanId) l) as [rs|]; [|discriminate].
    inversion H; subst. destruct (IH rs eq_refl) as [Hl Hf]. split.
    + cbn. now rewrite Hl.
    + constructor; [now apply row_of_scan_id in Er | exact Hf].
Qed.

Lemma get_length_of_list l : get_prop (VArr l) length_key = Ok (num_of_nat (length l)).
Proof. unfold get_prop. now rewrite jsstring_eqb_refl. Qed.

Lemma gt0_length n : gt0 rt (num_of_nat n) = Ok (match n with O => false | S _ => true end).
Proof. destruct n; cbn; reflexivity. Qed.

Lemma insert_findings_list scanId l rows w :
  map_eval (row_of scanId) l = Ok rows ->
  insert_findings rt env scanId (VArr l) w
  = Next tt match l with
            | [] => w
            | _ :: _ => send env InsertFindings (InsertVulnerabilities rows) w
            end.
Proof.
  intros Hr. unfold insert_findings. cbn [truthy].
  rewrite get_length_of_list. unfold bind at 1. cbn [lift ret].
  rewrite gt0_length. unfold bind at 1. cbn [lift ret].
  destruct l as [|x l]; [reflexivity|]. cbn [length].
  unfold array_map. rewrite Hr. reflexivity.
Qed.

(** A result whose findings are a list, none of them [null]: the three
    writes are sent in order and the success payload is returned. *)
Lemma persist_list scanId applicationId results l rows w :
  get_prop results (js "vulnerabilities") = Ok (VArr l) ->
  map_eval (row_of scanId) l = Ok rows ->
  persist rt env scanId applicationId results w
  = Next (success results) (persisted env scanId applicationId results l rows w).
Proof.
  intros Hv Hr. unfold persist.
  rewrite (get_prop_total _ _ _ Hv "overall_score"). unfold bind at 1. cbn [lift ret].
  rewrite (get_prop_total _ _ _ Hv "risk_level"). unfold bind at 1. cbn [lift ret].
  rewrite Hv. unfold bind at 1. cbn [lift ret].
  rewrite get_length_of_list. unfold bind at 1. cbn [lift ret].
  unfold bind at 1. unfold issue_write at 1.
  unfold bind at 1. rewrite (insert_findings_list _ _ _ _ Hr).
  unfold bind, issue_write, ret, persisted, completed_write, success.
  destruct l; reflexivity.
Qed.

Lemma fallback_findings name :
  exists finding,
    get_prop (fallback name) (js "vulnerabilities") = Ok (VArr [finding])
    /\ forall scanId, exists row, map_eval (row_of scanId) [finding] = Ok [row].
Proof. eexists. split; [reflexivity|]. intros scanId. eexists. reflexivity. Qed.

End Persist.

(** ** The fallback *)

(** C5.  When the message content of the completion is a text that, after
    the fences are stripped, is not JSON, the handler uses the fixed result
    (score 50, risk level "medium", exactly one finding) and returns it in a
    success payload. *)
Theorem unreadable_answer_gets_fallback
  (rt : Runtime) (env : Env) (req : Request) (w : World)
  (user scanId applicationId : jsstring) (app : Application) (text : jsstring) :
  jsstring_eqb (method req) (js "OPTIONS") = false ->
  preconditions rt env req w user scanId applicationId app ->
  answers_with rt env (VStr text) ->
  JSON_parse rt (trim (jsonStr text)) = None ->
  let results := fallback (app_name app) in
  (exists w', SecurityScanner.serve rt env req w = (success results, w'))
  /\ get_prop results (js "overall_score") = Ok (num_of_Z 50)
  /\ get_prop results (js "risk_level") = Ok (VStr (js "medium"))
  /\ exists finding, get_prop results (js "vulnerabilities") = Ok (VArr [finding]).
Proof.
  intros Hm Hpre Hans Hparse results. split; [|split; [reflexivity|split; [reflexivity|]]].
  - unfold SecurityScanner.serve. rewrite Hm.
    rewrite (scanner_reaches_persist rt env req w user scanId applicationId app _ Hpre Hans).
    unfold parse_results. rewrite Hparse. fold results.
    destruct (fallback_findings (app_name app)) as (finding & Hv & Hrows).
    destruct (Hrows (VStr scanId)) as (row & Hrow).
    rewrite (persist_list rt env _ _ _ _ _ _ Hv Hrow). eauto.
  - eexists. reflexivity.
Qed.

Lemma fixture_preconditions (answer : Completion) :
  preconditions runtime (run answer) request world alice scan1 shop (application alice "Shop").
Proof.
  split.
  - exists (js "Bearer alice-token").
    split; [reflexivity | split; [vm_compute; discriminate | vm_compute; reflexivity]].
  - eexists. split; vm_compute; reflexivity.
  - repeat split; vm_compute; reflexivity.
  - split; [reflexivity|]. eexists. split; vm_compute; reflexivity.
Defined.

Lemma unreadable_answer_gets_fallback_witness :
  let results := fallback (js "Shop") in
  (exists w', SecurityScanner.serve runtime (run prose) request world = (success results, w'))
  /\ get_prop results (js "overall_score") = Ok (num_of_Z 50)
  /\ get_prop results (js "risk_level") = Ok (VStr (js "medium"))
  /\ exists finding, get_prop results (js "vulnerabilities") = Ok (VArr [finding]).
Proof.
  apply (unreadable_answer_gets_fallback runtime (run prose) request world
           alice scan1 shop (application alice "Shop") (js "I cannot analyze this.")).
  - reflexivity.
  - apply fixture_preconditions.
  - eexists _, _, _. repeat split; vm_compute; reflexivity.
  - vm_compute. reflexivity.
Defined.

(** ** What a success payload tells *)

Lemma bind_Respond_inv {A B : Type} (m : M A) (k : A -> M B) w r w' :
  bind m k w = Respond r w' ->
  m w = Respond r w' \/ exists a w1, m w = Next a w1 /\ k a w1 = Respond r w'.
Proof.
  unfold bind. destruct (m w) as [a w1|r1 w1|e w1]; intros H.
  - right. eauto.
  - left. inversion H. reflexivity.
  - discriminate.
Qed.

Lemma is_error_response st msg : is_error (error_response st msg).
Proof. unfold is_error, error_response. cbn [payload]. eauto. Qed.

Section Inversion.

Variable rt : Runtime.
Variable env : Env.

Lemma json_of_not_Respond text w r w' : json_of rt text w <> Respond r w'.
Proof.
  unfold json_of. destruct text as [t|]; [|discriminate].
  destruct (JSON_parse rt t); discriminate.
Qed.

Lemma json_of_Next_inv text w v w' :
  json_of rt text w = Next v w' ->
  w' = w /\ exists t, text = Some t /\ JSON_parse rt t = Some v.
Proof.
  unfold json_of. destruct text as [t|]; [|discriminate].
  destruct (JSON_parse rt t) eqn:E; [|discriminate].
  cbn. intros H. inversion H; subst. eauto.
Qed.

Lemma authenticate_Respond req w r w' :
  SecurityScanner.authenticate env req w = Respond r w' -> is_error r /\ w' = w.
Proof.
  unfold SecurityScanner.authenticate.
  destruct (authorization req) as [[|c h]|]; cbn.
  - intros H; inversion H; subst. split; [apply is_error_response | reflexivity].
  - destruct (getUser env _); cbn; intros H; inversion H; subst.
    split; [apply is_error_response | reflexivity].
  - intros H; inversion H; subst. split; [apply is_error_response | reflexivity].
Qed.

Lemma authenticate_Next_inv req w user w' :
  SecurityScanner.authenticate env req w = Next user w' ->
  w' = w /\ exists h, authorization req = Some h /\ h <> []
                      /\ getUser env (remove_first (js "Bearer ") h) = Some user.
Proof.
  unfold SecurityScanner.authenticate.
  destruct (authorization req) as [[|c h]|]; try discriminate.
  destruct (getUser env _) eqn:E; try discriminate.
  cbn. intros H; inversion H; subst. split; [reflexivity|].
  exists (c :: h). repeat split; [discriminate | exact E].
Qed.

Lemma validate_Respond req w r w' :
  SecurityScanner.validate rt req w = Respond r w' -> is_error r /\ w' = w.
Proof.
  unfold SecurityScanner.validate. intros H.
  apply bind_Respond_inv in H as [H | (data & w1 & Hd & H)].
  - now apply json_of_not_Respond in H.
  - apply json_of_Next_inv in Hd as [-> _].
    destruct (SecurityScanner.safeParse rt data); inversion H; subst.
    split; [|reflexivity]. unfold is_error. cbn. eauto.
Qed.

Lemma validate_Next_inv req w ids w' :
  SecurityScanner.validate rt req w = Next ids w' ->
  w' = w /\ exists data, JSON_parse rt (body req) = Some data
                         /\ SecurityScanner.safeParse rt data = inr ids.
Proof.
  unfold SecurityScanner.validate. intros H.
  apply bind_Next_inv in H as (data & w1 & Hd & H).
  apply json_of_Next_inv in Hd as [-> (t & Ht & Hp)]. inversion Ht; subst.
  destruct (SecurityScanner.safeParse rt data) eqn:E; inversion H; subst. eauto.
Qed.

Lemma verify_application_Respond user applicationId w r w' :
  SecurityScanner.verify_application env user applicationId w = Respond r w' ->
  is_error r /\ w' = w.
Proof.
  unfold SecurityScanner.verify_application, bind, read_db.
  destruct (single env SelectApplication _ _) as [app|].
  - destruct (negb _); intros H; inversion H; subst.
    split; [apply is_error_response | reflexivity].
  - intros H; inversion H; subst. split; [apply is_error_response | reflexivity].
Qed.

Lemma single_Some_inv {A : Type} (q : query) (table : gmap jsstring A)
  (k : jsstring) (row : A) :
  single env q table (VStr k) = Some row -> answers env q = true /\ table !! k = Some row.
Proof. unfold single. destruct (answers env q); cbn; [auto | discriminate]. Qed.

Lemma verify_application_Next_inv user applicationId w app w' :
  SecurityScanner.verify_application env user applicationId w = Next app w' ->
  w' = w /\ answers env SelectApplication = true
  /\ applications (db w) !! applicationId = Some app /\ app_user_id app = user.
Proof.
  unfold SecurityScanner.verify_application, bind, read_db.
  destruct (single env SelectApplication _ _) as [a|] eqn:E; [|discriminate].
  destruct (jsstring_eqb (app_user_id a) user) eqn:Eu; cbn; [|discriminate].
  intros H; inversion H; subst.
  apply single_Some_inv in E as [Ha Hl]. apply jsstring_eqb_eq in Eu. auto.
Qed.

Lemma verify_scan_Respond scanId applicationId w r w' :
  SecurityScanner.verify_scan env scanId applicationId w = Respond r w' ->
  is_error r /\ w' = w.
Proof.
  unfold SecurityScanner.verify_scan, bind, read_db.
  destruct (single env SelectScan _ _) as [scan|].
  - destruct (negb _); intros H; inversion H; subst.
    split; [apply is_error_response | reflexivity].
  - intros H; inversion H; subst. split; [apply is_error_response | reflexivity].
Qed.

Lemma verify_scan_Next_inv scanId applicationId w u w' :
  SecurityScanner.verify_scan env scanId applicationId w = Next u w' ->
  w' = w /\ answers env SelectScan = true
  /\ exists scan, security_scans (db w) !! scanId = Some scan
                  /\ scan_application_id scan = applicationId.
Proof.
  unfold SecurityScanner.verify_scan, bind, read_db.
  destruct (single env SelectScan _ _) as [s|] eqn:E; [|discriminate].
  destruct (jsstring_eqb (scan_application_id s) applicationId) eqn:Eu; cbn; [|discriminate].
  intros H; inversion H; subst.
  apply single_Some_inv in E as [Ha Hl]. apply jsstring_eqb_eq in Eu. eauto.
Qed.

Lemma ask_model_Respond w r w' :
  SecurityScanner.ask_model rt env w = Respond r w' ->
  r = SecurityScanner.scan_failed env /\ w' = w.
Proof.
  unfold SecurityScanner.ask_model.
  destruct (completion env) as [|st text]; [discriminate|].
  destruct (negb (ok_status st)).
  - unfold bind, text_of. destruct text; cbn; intros H; inversion H; auto.
  - intros H. apply bind_Respond_inv in H as [H | (v & w1 & _ & H)].
    + now apply json_of_not_Respond in H.
    + now apply lift_not_Respond in H.
Qed.

Lemma ask_model_Next_inv w content w' :
  SecurityScanner.ask_model rt env w = Next content w' ->
  w' = w /\ answers_with rt env content.
Proof.
  unfold SecurityScanner.ask_model, answers_with.
  destruct (completion env) as [|st text]; [discriminate|].
  destruct (ok_status st) eqn:Eok; cbn.
  - intros H. apply bind_Next_inv in H as (aiData & w1 & Hj & H).
    apply json_of_Next_inv in Hj as [-> (t & -> & Hp)].
    apply lift_Next_inv in H as [Hm ->]. split; [reflexivity|].
    exists st, t, aiData. auto.
  - unfold bind, text_of. destruct text; discriminate.
Qed.

Lemma insert_findings_not_Respond scanId vulns w r w' :
  insert_findings rt env scanId vulns w <> Respond r w'.
Proof.
  unfold insert_findings. destruct (truthy vulns); [|discriminate].
  intros H. apply bind_Respond_inv in H as [H | (len & w1 & _ & H)].
  { now apply lift_not_Respond in H. }
  apply bind_Respond_inv in H as [H | (b & w2 & _ & H)].
  { now apply lift_not_Respond in H. }
  destruct b; [|discriminate].
  apply bind_Respond_inv in H as [H | (rows & w3 & _ & H)].
  { now apply lift_not_Respond in H. }
  discriminate.
Qed.

Lemma persist_not_Respond scanId applicationId results w r w' :
  persist rt env scanId applicationId results w <> Respond r w'.
Proof.
  unfold persist. intros H.
  repeat (apply bind_Respond_inv in H as [H | (? & ? & _ & H)];
          [now apply lift_not_Respond in H|]).
  apply bind_Respond_inv in H as [H | ([] & ? & _ & H)]; [discriminate|].
  apply bind_Respond_inv in H as [H | ([] & ? & _ & H)];
    [now apply insert_findings_not_Respond in H|].
  apply bind_Respond_inv in H as [H | ([] & ? & _ & H)]; discriminate.
Qed.

(** Looking a scan up after it was marked [running]. *)
Lemma send_running_scan_inv st id started w k scan' :
  security_scans (db (send env st (UpdateScanRunning id started) w)) !! k = Some scan' ->
  exists scan, security_scans (db w) !! k = Some scan
               /\ scan_application_id scan = scan_application_id scan'.
Proof.
  unfold send. cbn. destruct (accepts env st); cbn; [|eauto].
  rewrite update_row_lookup. destruct (filter_id id) as [k'|]; [|eauto].
  destruct (decide (k' = k)); [|eauto].
  destruct (security_scans (db w) !! k) as [scan|]; cbn; [|discriminate].
  intros H; inversion H; subst. eauto.
Qed.

(** A success payload is returned only by a run that passed the six
    preconditions, got an answer from the completion API and went through
    the persistence phase. *)
Lemma scanner_success_inv req w r w' results :
  SecurityScanner.serve rt env req w = (r, w') ->
  payload r = SuccessBody results ->
  jsstring_eqb (method req) (js "OPTIONS") = false
  /\ exists user scanId applicationId app content,
       preconditions rt env req w user scanId applicationId app
       /\ answers_with rt env content
       /\ persist rt env (VStr scanId) (VStr applicationId)
            (parse_results rt content (app_name app))
            (scanning env (VStr scanId) (VStr applicationId) w)
          = Next r w'.
Proof.
  unfold SecurityScanner.serve. intros H Hp.
  destruct (jsstring_eqb (method req) (js "OPTIONS")).
  { inversion H; subst. discriminate. }
  split; [reflexivity|].
  destruct (SecurityScanner.handle rt env req w) as [r0 w0|r0 w0|e w0] eqn:Hh;
    inversion H; subst; clear H.
  - unfold SecurityScanner.handle in Hh.
    apply bind_Next_inv in Hh as (user & w1 & Ha & Hh).
    apply authenticate_Next_inv in Ha as [-> Hcred].
    apply bind_Next_inv in Hh as ([scanId applicationId] & w1 & Hv & Hh).
    apply validate_Next_inv in Hv as [-> Hbody]. cbn [fst snd] in Hh.
    apply bind_Next_inv in Hh as ([] & w1 & Hw & Hh).
    unfold issue_write in Hw. inversion Hw; subst w1; clear Hw.
    apply bind_Next_inv in Hh as (app & w1 & Hva & Hh).
    apply verify_application_Next_inv in Hva as (-> & Haa & Hal & Hau).
    rewrite send_scan_keeps_applications in Hal.
    apply bind_Next_inv in Hh as ([] & w1 & Hvs & Hh).
    apply verify_scan_Next_inv in Hvs as (-> & Hsa & scan' & Hsl & Hsu).
    apply send_running_scan_inv in Hsl as (scan & Hsl & Hsame).
    apply bind_Next_inv in Hh as ([] & w1 & Hw & Hh).
    unfold issue_write in Hw. inversion Hw; subst w1; clear Hw.
    apply bind_Next_inv in Hh as (content & w1 & Hask & Hh).
    apply ask_model_Next_inv in Hask as [-> Hans].
    exists user, scanId, applicationId, app, content.
    split; [|split; [exact Hans | exact Hh]].
    split; auto. split; [exact Hsa|]. exists scan. split; [exact Hsl | congruence].
  - exfalso. unfold SecurityScanner.handle in Hh.
    assert (Herr : is_error r).
    { apply bind_Respond_inv in Hh as [Hh | (user & w1 & _ & Hh)].
      { now apply authenticate_Respond in Hh. }
      apply bind_Respond_inv in Hh as [Hh | (ids & w2 & _ & Hh)].
      { now apply validate_Respond in Hh. }
      apply bind_Respond_inv in Hh as [Hh | ([] & w3 & _ & Hh)]; [discriminate|].
      apply bind_Respond_inv in Hh as [Hh | (app & w4 & _ & Hh)].
      { now apply verify_application_Respond in Hh. }
      apply bind_Respond_inv in Hh as [Hh | ([] & w5 & _ & Hh)].
      { now apply verify_scan_Respond in Hh. }
      apply bind_Respond_inv in Hh as [Hh | ([] & w6 & _ & Hh)]; [discriminate|].
      apply bind_Respond_inv in Hh as [Hh | (content & w7 & _ & Hh)].
      { apply ask_model_Respond in Hh as [-> _]. unfold is_error. cbn. eauto. }
      now apply persist_not_Respond in Hh. }
    destruct Herr as (m & d & i & He). congruence.
  - discriminate.
Qed.

End Inversion.

(** ** The count of findings and the rows *)

Section Count.

Variable rt : Runtime.
Variable env : Env.

Lemma insert_findings_list_raise scanId l e w :
  map_eval (row_of scanId) l = Raise e ->
  insert_findings rt env scanId (VArr l) w = Thrown e w.
Proof.
  intros Hr. unfold insert_findings. cbn [truthy].
  rewrite get_length_of_list. unfold bind at 1. cbn [lift ret].
  rewrite gt0_length. unfold bind at 1. cbn [lift ret].
  destruct l as [|x l]; [discriminate|]. cbn [length].
  unfold array_map. rewrite Hr. reflexivity.
Qed.

(** The persistence phase went through for a result whose findings are a
    list: its rows were built, and the world is [persisted]. *)
Lemma persist_list_inv scanId applicationId results l w r w' :
  persist rt env scanId applicationId results w = Next r w' ->
  get_prop results (js "vulnerabilities") = Ok (VArr l) ->
  exists rows,
    map_eval (row_of scanId) l = Ok rows
    /\ r = success results
    /\ w' = persisted env scanId applicationId results l rows w.
Proof.
  intros H Hv. destruct (map_eval (row_of scanId) l) as [rows|e] eqn:Hr.
  - rewrite (persist_list rt env _ _ _ _ _ _ Hv Hr) in H. inversion H. eauto.
  - exfalso. revert H. unfold persist.
    rewrite (get_prop_total _ _ _ Hv "overall_score"). unfold bind at 1. cbn [lift ret].
    rewrite (get_prop_total _ _ _ Hv "risk_level"). unfold bind at 1. cbn [lift ret].
    rewrite Hv. unfold bind at 1. cbn [lift ret].
    rewrite get_length_of_list. unfold bind at 1. cbn [lift ret].
    unfold bind at 1. unfold issue_write at 1.
    unfold bind at 1. rewrite (insert_findings_list_raise _ _ _ _ Hr). discriminate.
Qed.

Lemma persist_Next_response scanId applicationId results w r w' :
  persist rt env scanId applicationId results w = Next r w' -> r = success results.
Proof.
  unfold persist. intros H.
  repeat (apply bind_Next_inv in H as (? & ? & _ & H)).
  inversion H. reflexivity.
Qed.

Lemma persisted_rows scanId applicationId results l rows w :
  accepts env InsertFindings = true ->
  map_eval (row_of scanId) l = Ok rows ->
  vulnerabilities (db (persisted env scanId applicationId results l rows w))
  = vulnerabilities (db w) ++ rows.
Proof.
  intros Hacc Hr. unfold persisted. rewrite send_application_keeps_rows.
  destruct l as [|x l].
  - cbn in Hr. inversion Hr. rewrite app_nil_r. apply send_completed_keeps_rows.
  - unfold send at 1. rewrite Hacc. cbn [db apply_write vulnerabilities].
    unfold completed_write. now rewrite send_completed_keeps_rows.
Qed.

Lemma persisted_scan scanId applicationId results l rows w scan :
  accepts env CompleteScan = true ->
  security_scans (db w) !! scanId = Some scan ->
  security_scans (db (persisted env (VStr scanId) applicationId results l rows w)) !! scanId
  = Some (set_completed (prop results "overall_score") (prop results "risk_level")
            (num_of_nat (length l)) (scanDuration env) (completed_time env) scan).
Proof.
  intros Hacc Hl. unfold persisted. rewrite send_application_keeps_scans.
  assert (Hrec : security_scans
                   (db (send env CompleteScan
                          (completed_write env (VStr scanId) results (length l)) w)) !! scanId
                 = Some (set_completed (prop results "overall_score")
                           (prop results "risk_level") (num_of_nat (length l))
                           (scanDuration env) (completed_time env) scan)).
  { unfold send. rewrite Hacc. unfold completed_write.
    cbn [db apply_write security_scans]. now apply update_row_hit. }
  destruct l; [exact Hrec|]. now rewrite send_insert_keeps_scans.
Qed.

Lemma scanning_rows scanId applicationId w :
  vulnerabilities (db (scanning env scanId applicationId w)) = vulnerabilities (db w).
Proof.
  unfold scanning. now rewrite send_application_keeps_rows, send_running_keeps_rows.
Qed.

Lemma scanning_scan scanId applicationId w k scan :
  security_scans (db w) !! k = Some scan ->
  exists scan',
    security_scans (db (scanning env scanId applicationId w)) !! k = Some scan'
    /\ scan_application_id scan' = scan_application_id scan.
Proof.
  intros H. unfold scanning. rewrite send_application_keeps_scans.
  now apply send_running_scan.
Qed.

Lemma rows_belong id rows :
  Forall (fun row => scan_id row = VStr id) rows -> List.filter (belongs_to id) rows = rows.
Proof.
  induction 1 as [|row rows Hrow _ IH]; [reflexivity|].
  cbn. unfold belongs_to at 1. rewrite Hrow. cbn [filter_id].
  now rewrite jsstring_eqb_refl, IH.
Qed.

Lemma rows_of_scan_app id (d d' : Db) rows :
  vulnerabilities d' = vulnerabilities d ++ rows ->
  Forall (fun row => scan_id row = VStr id) rows ->
  rows_of_scan id d' = rows_of_scan id d ++ rows.
Proof.
  intros Hv Hf. unfold rows_of_scan. rewrite Hv, List.filter_app.
  now rewrite (rows_belong id rows Hf).
Qed.

End Count.

(** ** The outcome of the insert *)

Section InsertOutcome.

Variable rt : Runtime.
Variable env : Env.
Variable f : statement -> bool.
Hypothesis f_elsewhere : forall st, st <> InsertFindings -> f st = accepts env st.

Lemma send_with_accepts st wr w :
  st <> InsertFindings -> send (with_accepts f env) st wr w = send env st wr w.
Proof. intros H. unfold send, with_accepts. cbn [accepts]. now rewrite f_elsewhere. Qed.

Lemma same_but_rows_refl w : same_but_rows w w.
Proof. repeat split. Qed.

Lemma same_but_rows_insert st rows w1 w2 :
  same_but_rows w1 w2 ->
  same_but_rows (send (with_accepts f env) st (InsertVulnerabilities rows) w1)
                (send env st (InsertVulnerabilities rows) w2).
Proof.
  intros (Hi & Ha & Hs). unfold same_but_rows, send. cbn [issued db accepts with_accepts].
  rewrite Hi. split; [reflexivity|].
  destruct (f st), (accepts env st); cbn [apply_write applications security_scans]; auto.
Qed.

Lemma same_but_rows_update_application st id s w1 w2 :
  st <> InsertFindings ->
  same_but_rows w1 w2 ->
  same_but_rows (send (with_accepts f env) st (UpdateApplication id s) w1)
                (send env st (UpdateApplication id s) w2).
Proof.
  intros Hst (Hi & Ha & Hs). rewrite (send_with_accepts _ _ _ Hst).
  unfold same_but_rows, send. cbn [issued db]. rewrite Hi. split; [reflexivity|].
  destruct (accepts env st); cbn [apply_write applications security_scans db];
    rewrite ?Ha, ?Hs; auto.
Qed.

Lemma same_outcome_refl {A : Type} (o : outcome A) : same_outcome o o.
Proof. destruct o; (split; [reflexivity | apply same_but_rows_refl]). Qed.

Lemma same_bind_lift {A B : Type} (x : eval A) (k1 k2 : A -> M B) w :
  (forall a, same_outcome (k1 a w) (k2 a w)) ->
  same_outcome (bind (lift x) k1 w) (bind (lift x) k2 w).
Proof.
  intros H. destruct x as [a|e]; unfold bind, lift, ret, throw.
  - apply H.
  - apply same_outcome_refl.
Qed.

Lemma same_bind {A B : Type} (m1 m2 : M A) (k1 k2 : A -> M B) w1 w2 :
  same_outcome (m1 w1) (m2 w2) ->
  (forall a v1 v2, same_but_rows v1 v2 -> same_outcome (k1 a v1) (k2 a v2)) ->
  same_outcome (bind m1 k1 w1) (bind m2 k2 w2).
Proof.
  intros Hm Hk. unfold bind.
  destruct (m1 w1) as [a v1|r v1|e v1], (m2 w2) as [b v2|r' v2|e' v2];
    unfold same_outcome in Hm; try contradiction.
  - destruct Hm as [<- Hv]. now apply Hk.
  - exact Hm.
  - exact Hm.
Qed.

Lemma insert_findings_same scanId vulns w :
  same_outcome (insert_findings rt (with_accepts f env) scanId vulns w)
               (insert_findings rt env scanId vulns w).
Proof.
  unfold insert_findings. destruct (truthy vulns); [|apply same_outcome_refl].
  apply same_bind_lift. intros len.
  apply same_bind_lift. intros [|]; [|apply same_outcome_refl].
  apply same_bind_lift. intros rows.
  unfold issue_write, same_outcome. split; [reflexivity|].
  apply same_but_rows_insert, same_but_rows_refl.
Qed.

(** The persistence phase ends the same way, after the same writes, and
    with the same applications and scans, whether the backend persists the
    insert or not. *)
Lemma persist_same scanId applicationId results w :
  same_outcome (persist rt (with_accepts f env) scanId applicationId results w)
               (persist rt env scanId applicationId results w).
Proof.
  unfold persist.
  apply same_bind_lift. intros score.
  apply same_bind_lift. intros risk.
  apply same_bind_lift. intros vulns.
  apply same_bind_lift. intros found.
  change (scanDuration (with_accepts f env)) with (scanDuration env).
  change (completed_time (with_accepts f env)) with (completed_time env).
  unfold bind at 1. unfold issue_write at 1.
  rewrite send_with_accepts by discriminate.
  match goal with
  | |- same_outcome _ (bind (issue_write env ?st ?wr) ?k w) =>
      change (bind (issue_write env st wr) k w) with (k tt (send env st wr w))
  end.
  cbv beta.
  apply same_bind; [apply insert_findings_same|].
  intros [] v1 v2 Hv.
  unfold bind, issue_write, ret, same_outcome. split; [reflexivity|].
  apply same_but_rows_update_application; [discriminate | exact Hv].
Qed.

End InsertOutcome.

Section Traces.

Variable env : Env.

Lemma issued_scanning scanId applicationId w :
  issued (scanning env scanId applicationId w)
  = issued w ++ [UpdateScanRunning scanId (started_time env);
                 UpdateApplication applicationId AppScanning].
Proof. unfold scanning. rewrite !issued_send, <- app_assoc. reflexivity. Qed.

Lemma issued_persisted scanId applicationId results l rows w :
  issued (persisted env scanId applicationId results l rows w)
  = issued w ++ [completed_write env scanId results (length l)]
      ++ match l with
         | [] => []
         | _ :: _ => [InsertVulnerabilities rows]
         end
      ++ [UpdateApplication applicationId AppCompleted].
Proof.
  unfold persisted. destruct l; rewrite !issued_send, <- ?app_assoc; reflexivity.
Qed.

Lemma persisted_rows_rejected scanId applicationId results l rows w :
  accepts env InsertFindings = false ->
  vulnerabilities (db (persisted env scanId applicationId results l rows w))
  = vulnerabilities (db w).
Proof.
  intros Hacc. unfold persisted. rewrite send_application_keeps_rows.
  destruct l as [|x l].
  - apply send_completed_keeps_rows.
  - unfold send at 1. rewrite Hacc. cbn [db].
    unfold completed_write. apply send_completed_keeps_rows.
Qed.

End Traces.

Lemma preconditions_with_accepts rt env f req w user scanId applicationId app :
  preconditions rt env req w user scanId applicationId app ->
  preconditions rt (with_accepts f env) req w user scanId applicationId app.
Proof. intros [H1 H2 H3 H4]. split; assumption. Qed.

Lemma answers_with_accepts rt env f content :
  answers_with rt env content -> answers_with rt (with_accepts f env) content.
Proof. intros H. exact H. Qed.

(** C10.  For a run that reaches the persistence phase, the response, the
    writes that are sent and the rows of [applications] and [security_scans]
    are the same whether the backend persists the insert of the findings or
    not.  When the findings are a list, the scan update with the count is
    sent first, then the insert (none for an empty list), then the
    application update, and the success payload is returned, also when the
    insert persisted no row. *)
Theorem insert_outcome_is_ignored
  (rt : Runtime) (env : Env) (req : Request) (w : World)
  (user scanId applicationId : jsstring) (app : Application) (content : value)
  (f : statement -> bool) :
  jsstring_eqb (method req) (js "OPTIONS") = false ->
  preconditions rt env req w user scanId applicationId app ->
  answers_with rt env content ->
  (forall st, st <> InsertFindings -> f st = accepts env st) ->
  let results := parse_results rt content (app_name app) in
  let run := SecurityScanner.serve rt env req w in
  let run' := SecurityScanner.serve rt (with_accepts f env) req w in
  fst run' = fst run
  /\ same_but_rows (snd run') (snd run)
  /\ forall l rows,
       get_prop results (js "vulnerabilities") = Ok (VArr l) ->
       map_eval (row_of (VStr scanId)) l = Ok rows ->
       fst run = success results
       /\ issued (snd run)
          = issued w
              ++ [UpdateScanRunning (VStr scanId) (started_time env);
                  UpdateApplication (VStr applicationId) AppScanning;
                  completed_write env (VStr scanId) results (length l)]
              ++ match l with
                 | [] => []
                 | _ :: _ => [InsertVulnerabilities rows]
                 end
              ++ [UpdateApplication (VStr applicationId) AppCompleted]
       /\ (accepts env InsertFindings = false ->
           vulnerabilities (db (snd run)) = vulnerabilities (db w)).
Proof.
  intros Hm Hpre Hans Hf results run run'.
  assert (Hrun : run = match persist rt env (VStr scanId) (VStr applicationId) results
                               (scanning env (VStr scanId) (VStr applicationId) w) with
                       | Next r w' | Respond r w' => (r, w')
                       | Thrown _ w' => (SecurityScanner.scan_failed env, w')
                       end).
  { subst run. unfold SecurityScanner.serve. rewrite Hm.
    now rewrite (scanner_reaches_persist rt env req w user scanId applicationId app content). }
  assert (Hrun' : run' = match persist rt (with_accepts f env) (VStr scanId)
                                 (VStr applicationId) results
                                 (scanning env (VStr scanId) (VStr applicationId) w) with
                         | Next r w' | Respond r w' => (r, w')
                         | Thrown _ w' => (SecurityScanner.scan_failed env, w')
                         end).
  { subst run'. unfold SecurityScanner.serve. rewrite Hm.
    rewrite (scanner_reaches_persist rt (with_accepts f env) req w user scanId
               applicationId app content
               (preconditions_with_accepts _ _ _ _ _ _ _ _ _ Hpre)
               (answers_with_accepts _ _ _ _ Hans)).
    unfold scanning. rewrite !(send_with_accepts env f Hf) by discriminate.
    reflexivity. }
  pose proof (persist_same rt env f Hf (VStr scanId) (VStr applicationId) results
                (scanning env (VStr scanId) (VStr applicationId) w)) as Hsame.
  split; [|split].
  - rewrite Hrun, Hrun'.
    destruct (persist rt (with_accepts f env) _ _ _ _), (persist rt env _ _ _ _);
      unfold same_outcome in Hsame; try contradiction; destruct Hsame as [-> _]; reflexivity.
  - rewrite Hrun, Hrun'.
    destruct (persist rt (with_accepts f env) _ _ _ _), (persist rt env _ _ _ _);
      unfold same_outcome in Hsame; try contradiction; destruct Hsame as [_ H]; exact H.
  - intros l rows Hl Hrows. rewrite Hrun.
    rewrite (persist_list rt env _ _ _ _ _ _ Hl Hrows). cbn [fst snd].
    split; [reflexivity|]. split.
    + rewrite issued_persisted, issued_scanning, <- !app_assoc. reflexivity.
    + intros Hacc. rewrite persisted_rows_rejected by exact Hacc. apply scanning_rows.
Qed.

Lemma insert_outcome_is_ignored_witness :
  let results := parse_results runtime (VStr (js "I cannot analyze this.")) (js "Shop") in
  let run := SecurityScanner.serve runtime (run prose) request world in
  let run' := SecurityScanner.serve runtime (with_accepts insert_fails (Fixture.run prose))
                request world in
  fst run' = fst run
  /\ same_but_rows (snd run') (snd run)
  /\ forall l rows,
       get_prop results (js "vulnerabilities") = Ok (VArr l) ->
       map_eval (row_of (VStr scan1)) l = Ok rows ->
       fst run = success results
       /\ issued (snd run)
          = issued world
              ++ [UpdateScanRunning (VStr scan1) (started_time (Fixture.run prose));
                  UpdateApplication (VStr shop) AppScanning;
                  completed_write (Fixture.run prose) (VStr scan1) results (length l)]
              ++ match l with
                 | [] => []
                 | _ :: _ => [InsertVulnerabilities rows]
                 end
              ++ [UpdateApplication (VStr shop) AppCompleted]
       /\ (accepts (Fixture.run prose) InsertFindings = false ->
           vulnerabilities (db (snd run)) = vulnerabilities (db world)).
Proof.
  apply (insert_outcome_is_ignored runtime (Fixture.run prose) request world
           alice scan1 shop (application alice "Shop")
           (VStr (js "I cannot analyze this.")) insert_fails).
  - reflexivity.
  - apply fixture_preconditions.
  - eexists _, _, _. repeat split; vm_compute; reflexivity.
  - intros [] H; try reflexivity. now contradiction H.
Defined.

(** ** A second invocation *)

Lemma update_row_proj {A B : Type} (g : A -> B) (f : A -> A) (id : value)
  (m : gmap jsstring A) (k : jsstring) :
  (forall a, g (f a) = g a) ->
  option_map g (update_row f id m !! k) = option_map g (m !! k).
Proof.
  intros H. rewrite update_row_lookup.
  destruct (filter_id id) as [k'|]; [|reflexivity].
  destruct (decide (k' = k)); [|reflexivity].
  destruct (m !! k) as [a|]; [|reflexivity].
  cbn [fmap option_fmap option_map]. now rewrite H.
Qed.

Lemma same_refs_refl d : same_refs d d.
Proof. split; reflexivity. Qed.

Lemma same_refs_sym d d' : same_refs d d' -> same_refs d' d.
Proof. intros [H1 H2]. split; intros k; symmetry; auto. Qed.

Lemma same_refs_trans d1 d2 d3 : same_refs d1 d2 -> same_refs d2 d3 -> same_refs d1 d3.
Proof. intros [H1 H2] [H3 H4]. split; intros k; etransitivity; eauto. Qed.

Lemma same_refs_apply_write wr d : same_refs d (apply_write wr d).
Proof.
  destruct wr; unfold same_refs; cbn [apply_write applications security_scans];
    split; intros k; try reflexivity; symmetry; apply update_row_proj; intros a; reflexivity.
Qed.

Lemma extends_refl w : extends w w [] [].
Proof. unfold extends. rewrite !app_nil_r. auto using same_refs_refl. Qed.

Lemma extends_trans w1 w2 w3 tr rs tr' rs' :
  extends w1 w2 tr rs -> extends w2 w3 tr' rs' -> extends w1 w3 (tr ++ tr') (rs ++ rs').
Proof.
  intros (H1 & H2 & H3) (H4 & H5 & H6). unfold extends.
  rewrite H4, H1, H5, H2, !app_assoc. eauto using same_refs_trans.
Qed.

Ltac ends_alike :=
  unfold reply, ret, throw;
  (split; [first [reflexivity | assumption] | split; apply extends_refl]).

Section Parallel.

Variable rt : Runtime.
Variable env : Env.

Lemma extends_send (st : statement) (wr : write) :
  exists rs, forall v, extends v (send env st wr v) [wr] rs.
Proof.
  destruct (accepts env st) eqn:Hacc.
  - destruct wr as [id t|id a b c d e|id s|rows].
    1-3: exists []; intros v; unfold extends, send; rewrite Hacc;
      cbn [issued db apply_write vulnerabilities]; rewrite app_nil_r;
      (split; [reflexivity|split; [reflexivity|]]).
    + apply (same_refs_apply_write (UpdateScanRunning id t)).
    + apply (same_refs_apply_write (UpdateScanCompleted id a b c d e)).
    + apply (same_refs_apply_write (UpdateApplication id s)).
    + exists rows. intros v. unfold extends, send. rewrite Hacc.
      cbn [issued db apply_write vulnerabilities].
      split; [reflexivity|split; [reflexivity|]].
      apply (same_refs_apply_write (InsertVulnerabilities rows)).
  - exists []. intros v. unfold extends, send. rewrite Hacc. cbn [issued db].
    rewrite app_nil_r. auto using same_refs_refl.
Qed.

Lemma parallel_stateless {A : Type} (m : M A) : stateless m -> parallel eq m m.
Proof.
  intros [(a & H) | [(r & H) | (e & H)]] w v Hwv; exists [], [];
    rewrite (H w), (H v); auto using extends_refl.
Qed.

Lemma parallel_issue_write st wr : parallel eq (issue_write env st wr) (issue_write env st wr).
Proof.
  intros w v Hwv. destruct (extends_send st wr) as (rs & H).
  exists [wr], rs. unfold issue_write. auto.
Qed.

Lemma parallel_bind {A B : Type} (R : A -> A -> Prop) (S : B -> B -> Prop)
  (m1 m2 : M A) (k1 k2 : A -> M B) :
  parallel R m1 m2 ->
  (forall a b, R a b -> parallel S (k1 a) (k2 b)) ->
  parallel S (bind m1 k1) (bind m2 k2).
Proof.
  intros Hm Hk w v Hwv. destruct (Hm w v Hwv) as (tr & rs & H). unfold bind.
  destruct (m1 w) as [a w'|r w'|e w'], (m2 v) as [b v'|r' v'|e' v']; try contradiction.
  - destruct H as (HR & Hw & Hv).
    assert (Hwv' : same_refs (db w') (db v')).
    { destruct Hw as (_ & _ & Hw), Hv as (_ & _ & Hv).
      eauto using same_refs_trans, same_refs_sym. }
    destruct (Hk a b HR w' v' Hwv') as (tr' & rs' & H').
    exists (tr ++ tr'), (rs ++ rs').
    destruct (k1 a w'), (k2 b v'); try contradiction;
      destruct H' as (? & ? & ?); eauto using extends_trans.
  - exists tr, rs. exact H.
  - exists tr, rs. exact H.
Qed.

Lemma stateless_lift {A : Type} (x : eval A) : stateless (lift x).
Proof.
  destruct x as [a|e]; [left; exists a | right; right; exists e]; reflexivity.
Qed.

Lemma stateless_authenticate req : stateless (SecurityScanner.authenticate env req).
Proof.
  unfold SecurityScanner.authenticate.
  destruct (authorization req) as [[|c h]|].
  - right; left. eexists. reflexivity.
  - destruct (getUser env _) as [u|].
    + left. exists u. reflexivity.
    + right; left. eexists. reflexivity.
  - right; left. eexists. reflexivity.
Qed.

Lemma stateless_json_of text : stateless (json_of rt text).
Proof.
  unfold json_of. destruct text as [t|].
  - destruct (JSON_parse rt t) as [v|].
    + left. exists v. reflexivity.
    + right; right. eexists. reflexivity.
  - right; right. eexists. reflexivity.
Qed.

Lemma stateless_validate req : stateless (SecurityScanner.validate rt req).
Proof.
  unfold SecurityScanner.validate, bind.
  destruct (stateless_json_of (Some (body req))) as [(data & H) | [(r & H) | (e & H)]].
  - destruct (SecurityScanner.safeParse rt data) as [issues|ids] eqn:E.
    + right; left. eexists. intros w. rewrite H, E. reflexivity.
    + left. exists ids. intros w. rewrite H, E. reflexivity.
  - right; left. exists r. intros w. now rewrite H.
  - right; right. exists e. intros w. now rewrite H.
Qed.

Lemma stateless_ask_model : stateless (SecurityScanner.ask_model rt env).
Proof.
  unfold SecurityScanner.ask_model. destruct (completion env) as [|st text].
  - right; right. eexists. reflexivity.
  - destruct (negb (ok_status st)).
    + unfold bind, text_of. destruct text.
      * right; left. eexists. reflexivity.
      * right; right. eexists. reflexivity.
    + unfold bind.
      destruct (stateless_json_of text) as [(data & H) | [(r & H) | (e & H)]].
      * destruct (stateless_lift (message_content data)) as [(c & Hc) | [(r & Hc) | (e & Hc)]].
        -- left. exists c. intros w. now rewrite H, Hc.
        -- right; left. exists r. intros w. now rewrite H, Hc.
        -- right; right. exists e. intros w. now rewrite H, Hc.
      * right; left. exists r. intros w. now rewrite H.
      * right; right. exists e. intros w. now rewrite H.
Qed.

Lemma parallel_verify_application user applicationId :
  parallel (fun a b => app_name a = app_name b)
    (SecurityScanner.verify_application env user applicationId)
    (SecurityScanner.verify_application env user applicationId).
Proof.
  intros w v [Happs _]. exists [], [].
  unfold SecurityScanner.verify_application, bind, read_db, single.
  destruct (answers env SelectApplication); [|ends_alike].
  cbn [filter_id]. specialize (Happs applicationId).
  destruct (applications (db w) !! applicationId) as [a|],
           (applications (db v) !! applicationId) as [b|];
    cbn [option_map] in Happs; try discriminate; [|ends_alike].
  injection Happs as Hu Hn. rewrite Hu.
  destruct (negb (jsstring_eqb (app_user_id b) user)); ends_alike.
Qed.

Lemma parallel_verify_scan scanId applicationId :
  parallel eq (SecurityScanner.verify_scan env scanId applicationId)
    (SecurityScanner.verify_scan env scanId applicationId).
Proof.
  intros w v [_ Hscans]. exists [], [].
  unfold SecurityScanner.verify_scan, bind, read_db, single.
  destruct (answers env SelectScan); [|ends_alike].
  cbn [filter_id]. specialize (Hscans scanId).
  destruct (security_scans (db w) !! scanId) as [a|],
           (security_scans (db v) !! scanId) as [b|];
    cbn [option_map] in Hscans; try discriminate; [|ends_alike].
  injection Hscans as Hu. rewrite Hu.
  destruct (negb (jsstring_eqb (scan_application_id b) applicationId)); ends_alike.
Qed.

Lemma parallel_ret {A : Type} (a : A) : parallel eq (ret a) (ret a).
Proof. apply parallel_stateless. left. exists a. reflexivity. Qed.

Lemma parallel_insert_findings scanId vulns :
  parallel eq (insert_findings rt env scanId vulns) (insert_findings rt env scanId vulns).
Proof.
  unfold insert_findings. destruct (truthy vulns); [|apply parallel_ret].
  apply (parallel_bind eq); [apply parallel_stateless, stateless_lift|].
  intros len ? <-.
  apply (parallel_bind eq); [apply parallel_stateless, stateless_lift|].
  intros [|] ? <-; [|apply parallel_ret].
  apply (parallel_bind eq); [apply parallel_stateless, stateless_lift|].
  intros rows ? <-. apply parallel_issue_write.
Qed.

Lemma parallel_persist scanId applicationId results :
  parallel eq (persist rt env scanId applicationId results)
    (persist rt env scanId applicationId results).
Proof.
  unfold persist.
  apply (parallel_bind eq); [apply parallel_stateless, stateless_lift|]. intros score ? <-.
  apply (parallel_bind eq); [apply parallel_stateless, stateless_lift|]. intros risk ? <-.
  apply (parallel_bind eq); [apply parallel_stateless, stateless_lift|]. intros vulns ? <-.
  apply (parallel_bind eq); [apply parallel_stateless, stateless_lift|]. intros found ? <-.
  apply (parallel_bind eq); [apply parallel_issue_write|]. intros _ _ _.
  apply (parallel_bind eq); [apply parallel_insert_findings|]. intros _ _ _.
  apply (parallel_bind eq); [apply parallel_issue_write|]. intros _ _ _.
  apply parallel_ret.
Qed.

(** From two worlds with the same references, the handler of [index.ts]
    ends the same way, after the same writes and the same inserted
    rows. *)
Lemma parallel_handle req :
  parallel eq (SecurityScanner.handle rt env req) (SecurityScanner.handle rt env req).
Proof.
  unfold SecurityScanner.handle.
  apply (parallel_bind eq); [apply parallel_stateless, stateless_authenticate|].
  intros user ? <-.
  apply (parallel_bind eq); [apply parallel_stateless, stateless_validate|].
  intros ids ? <-.
  apply (parallel_bind eq); [apply parallel_issue_write|]. intros _ _ _.
  apply (parallel_bind (fun a b => app_name a = app_name b));
    [apply parallel_verify_application|].
  intros app app' Hname.
  apply (parallel_bind eq); [apply parallel_verify_scan|]. intros _ _ _.
  apply (parallel_bind eq); [apply parallel_issue_write|]. intros _ _ _.
  apply (parallel_bind eq); [apply parallel_stateless, stateless_ask_model|].
  intros content ? <-. rewrite Hname. apply parallel_persist.
Qed.

End Parallel.

Section Again.

Variable rt : Runtime.
Variable env : Env.

Lemma insert_findings_keeps_scans scanId vulns w u w' :
  insert_findings rt env scanId vulns w = Next u w' ->
  security_scans (db w') = security_scans (db w).
Proof.
  unfold insert_findings. destruct (truthy vulns).
  - intros H.
    apply bind_Next_inv in H as (len & w1 & Hl & H). apply lift_Next_inv in Hl as [_ ->].
    apply bind_Next_inv in H as (b & w1 & Hb & H). apply lift_Next_inv in Hb as [_ ->].
    destruct b.
    + apply bind_Next_inv in H as (rows & w1 & Hr & H). apply lift_Next_inv in Hr as [_ ->].
      unfold issue_write in H. inversion H. apply send_insert_keeps_scans.
    + inversion H. reflexivity.
  - intros H. inversion H. reflexivity.
Qed.

(** After the persistence phase went through, the scan is [completed],
    provided the backend persisted the scan update. *)
Lemma persist_completes_scan scanId applicationId results w r w' scan :
  persist rt env (VStr scanId) applicationId results w = Next r w' ->
  accepts env CompleteScan = true ->
  security_scans (db w) !! scanId = Some scan ->
  exists scan', security_scans (db w') !! scanId = Some scan'
                /\ scan_status scan' = ScanCompleted.
Proof.
  unfold persist. intros H Hacc Hl.
  apply bind_Next_inv in H as (score & w1 & H1 & H). apply lift_Next_inv in H1 as [_ ->].
  apply bind_Next_inv in H as (risk & w1 & H1 & H). apply lift_Next_inv in H1 as [_ ->].
  apply bind_Next_inv in H as (vulns & w1 & H1 & H). apply lift_Next_inv in H1 as [_ ->].
  apply bind_Next_inv in H as (found & w1 & H1 & H). apply lift_Next_inv in H1 as [_ ->].
  apply bind_Next_inv in H as ([] & w1 & H1 & H).
  unfold issue_write in H1. inversion H1; subst w1; clear H1.
  apply bind_Next_inv in H as ([] & w2 & H2 & H).
  apply insert_findings_keeps_scans in H2.
  apply bind_Next_inv in H as ([] & w3 & H3 & H).
  unfold issue_write in H3. inversion H3; subst w3; clear H3.
  inversion H; subst; clear H.
  rewrite send_application_keeps_scans, H2.
  unfold send. rewrite Hacc. cbn [db apply_write security_scans].
  rewrite (update_row_hit _ _ _ _ Hl). eexists. split; reflexivity.
Qed.

(** What a success payload with a list of findings leaves behind, when
    the backend persisted the scan update and the insert. *)
Lemma scanner_success_state req w r w' results l :
  SecurityScanner.serve rt env req w = (r, w') ->
  payload r = SuccessBody results ->
  get_prop results (js "vulnerabilities") = Ok (VArr l) ->
  accepts env CompleteScan = true ->
  accepts env InsertFindings = true ->
  exists data scanId applicationId rows scan,
    JSON_parse rt (body req) = Some data
    /\ SecurityScanner.safeParse rt data = inr (scanId, applicationId)
    /\ security_scans (db w') !! scanId = Some scan
    /\ scan_status scan = ScanCompleted
    /\ vulnerabilities_found scan = num_of_nat (length l)
    /\ vulnerabilities (db w') = vulnerabilities (db w) ++ rows
    /\ length rows = length l
    /\ Forall (fun row => scan_id row = VStr scanId) rows.
Proof.
  intros Hrun Hpay Hlist Hacc1 Hacc2.
  destruct (scanner_success_inv rt env req w r w' results Hrun Hpay)
    as (_ & user & scanId & applicationId & app & content & Hpre & _ & Hper).
  pose proof (persist_Next_response rt env _ _ _ _ _ _ Hper) as Hr.
  assert (Hres : parse_results rt content (app_name app) = results).
  { subst r. cbn [payload success] in Hpay. congruence. }
  rewrite Hres in Hper.
  destruct (persist_list_inv rt env _ _ _ _ _ _ _ Hper Hlist) as (rows & Hrows & _ & Hw').
  destruct (map_eval_rows _ _ _ Hrows) as [Hlen Hall].
  destruct Hpre as [_ (data & Hd & Hs) _ (_ & scan & Hsl & _)].
  destruct (scanning_scan env (VStr scanId) (VStr applicationId) w scanId scan Hsl)
    as (scan' & Hsl' & _).
  pose proof (persisted_scan env scanId (VStr applicationId) results l rows _ scan'
                Hacc1 Hsl') as Hfinal.
  pose proof (persisted_rows env (VStr scanId) (VStr applicationId) results l rows
                (scanning env (VStr scanId) (VStr applicationId) w) Hacc2 Hrows) as Hvul.
  rewrite scanning_rows in Hvul. rewrite <- Hw' in Hfinal, Hvul.
  exists data, scanId, applicationId, rows. eexists.
  split; [exact Hd|]. split; [exact Hs|]. split; [exact Hfinal|].
  split; [reflexivity|]. split; [reflexivity|].
  split; [exact Hvul|]. split; [exact Hlen | exact Hall].
Qed.

End Again.

(** C1, as the code has it.  An invocation that returns a success payload
    whose findings are a list, and whose scan update and insert the backend
    both persisted, leaves the scan [completed] with a count equal to the
    number of rows it inserted for the scan: one row per finding. *)
Theorem count_matches_rows_when_writes_persist
  (rt : Runtime) (env : Env) (req : Request) (w w' : World) (r : Response)
  (results : value) (l : list value) :
  SecurityScanner.serve rt env req w = (r, w') ->
  payload r = SuccessBody results ->
  get_prop results (js "vulnerabilities") = Ok (VArr l) ->
  accepts env CompleteScan = true ->
  accepts env InsertFindings = true ->
  exists data scanId applicationId rows scan,
    JSON_parse rt (body req) = Some data
    /\ SecurityScanner.safeParse rt data = inr (scanId, applicationId)
    /\ security_scans (db w') !! scanId = Some scan
    /\ scan_status scan = ScanCompleted
    /\ vulnerabilities_found scan = num_of_nat (length l)
    /\ vulnerabilities (db w') = vulnerabilities (db w) ++ rows
    /\ length rows = length l
    /\ Forall (fun row => scan_id row = VStr scanId) rows
    /\ count_matches_inserted scanId w w'.
Proof.
  intros Hrun Hpay Hlist Hacc1 Hacc2.
  destruct (scanner_success_state rt env req w r w' results l Hrun Hpay Hlist Hacc1 Hacc2)
    as (data & scanId & applicationId & rows & scan & Hd & Hs & Hfinal & Hst & Hfound
        & Hvul & Hlen & Hall).
  exists data, scanId, applicationId, rows, scan.
  split; [exact Hd|]. split; [exact Hs|]. split; [exact Hfinal|].
  split; [exact Hst|]. split; [exact Hfound|].
  split; [exact Hvul|]. split; [exact Hlen|]. split; [exact Hall|].
  exists scan. split; [exact Hfinal|]. rewrite Hfound.
  rewrite (rows_of_scan_app scanId (db w) (db w') rows Hvul Hall), length_app.
  replace (length (rows_of_scan scanId (db w)) + length rows
           - length (rows_of_scan scanId (db w)))%nat with (length l) by lia.
  reflexivity.
Qed.

Lemma count_matches_rows_when_writes_persist_witness :
  let w' := snd (SecurityScanner.serve runtime (run prose) request world) in
  exists data scanId applicationId rows scan,
    JSON_parse runtime (body request) = Some data
    /\ SecurityScanner.safeParse runtime data = inr (scanId, applicationId)
    /\ security_scans (db w') !! scanId = Some scan
    /\ scan_status scan = ScanCompleted
    /\ vulnerabilities_found scan = num_of_nat 1
    /\ vulnerabilities (db w') = vulnerabilities (db world) ++ rows
    /\ length rows = 1%nat
    /\ Forall (fun row => scan_id row = VStr scanId) rows
    /\ count_matches_inserted scanId world w'.
Proof.
  apply (count_matches_rows_when_writes_persist runtime (run prose) request world
           (snd (SecurityScanner.serve runtime (run prose) request world))
           (fst (SecurityScanner.serve runtime (run prose) request world))
           (fallback (js "Shop"))
           (match prop (fallback (js "Shop")) "vulnerabilities" with
            | VArr l => l
            | _ => []
            end)).
  - vm_compute. reflexivity.
  - vm_compute. reflexivity.
  - vm_compute. reflexivity.
  - reflexivity.
  - reflexivity.
Defined.

(** C1, as stated, fails: the backend rejects the insert, the invocation
    still returns a success payload, and the scan row counts one finding
    while no row was inserted for the scan. *)
Lemma count_diverges_when_insert_fails :
  let env := with_accepts insert_fails (run prose) in
  let r := fst (SecurityScanner.serve runtime env request world) in
  let w' := snd (SecurityScanner.serve runtime env request world) in
  r = success (fallback (js "Shop"))
  /\ option_map vulnerabilities_found (security_scans (db w') !! scan1) = Some (num_of_Z 1)
  /\ rows_of_scan scan1 (db w') = []
  /\ ~ count_matches_inserted scan1 world w'.
Proof.
  split; [vm_compute; reflexivity|].
  split; [vm_compute; reflexivity|].
  split; [vm_compute; reflexivity|].
  intros (scan & Hl & Hc).
  assert (Hf : option_map vulnerabilities_found
                 (security_scans
                    (db (snd (SecurityScanner.serve runtime
                                (with_accepts insert_fails (run prose)) request world)))
                  !! scan1) = Some (num_of_Z 1)) by (vm_compute; reflexivity).
  rewrite Hl in Hf. cbn [option_map] in Hf. rewrite Hc in Hf.
  vm_compute in Hf. discriminate.
Qed.

(** C8.  Invoking the handler again for a scan that a first invocation left
    [completed] goes through the whole pipeline once more: it returns the
    same success payload, sends the same writes, and inserts the same rows
    a second time (one per finding); nothing looks at the status of the scan
    or at the rows that are already there. *)
Theorem second_invocation_inserts_again
  (rt : Runtime) (env : Env) (req : Request) (w w1 : World) (r : Response)
  (results : value) :
  SecurityScanner.serve rt env req w = (r, w1) ->
  payload r = SuccessBody results ->
  accepts env CompleteScan = true ->
  accepts env InsertFindings = true ->
  exists data scanId applicationId scan rows writes w2,
    JSON_parse rt (body req) = Some data
    /\ SecurityScanner.safeParse rt data = inr (scanId, applicationId)
    /\ security_scans (db w1) !! scanId = Some scan
    /\ scan_status scan = ScanCompleted
    /\ SecurityScanner.serve rt env req w1 = (r, w2)
    /\ issued w1 = issued w ++ writes
    /\ issued w2 = issued w1 ++ writes
    /\ vulnerabilities (db w1) = vulnerabilities (db w) ++ rows
    /\ vulnerabilities (db w2) = vulnerabilities (db w1) ++ rows
    /\ forall l, get_prop results (js "vulnerabilities") = Ok (VArr l) ->
                 length rows = length l
                 /\ Forall (fun row => scan_id row = VStr scanId) rows.
Proof.
  intros Hrun Hpay Hacc1 Hacc2.
  destruct (scanner_success_inv rt env req w r w1 results Hrun Hpay)
    as (Hm & user & scanId & applicationId & app & content & Hpre & Hans & Hper).
  assert (Hh : SecurityScanner.handle rt env req w = Next r w1).
  { now rewrite (scanner_reaches_persist rt env req w user scanId applicationId app content). }
  destruct (parallel_handle rt env req w w (same_refs_refl _)) as (tr0 & rs0 & H0).
  rewrite Hh in H0. destruct H0 as (_ & (_ & _ & Hrefs) & _).
  destruct (parallel_handle rt env req w w1 Hrefs) as (writes & rows & H1).
  rewrite Hh in H1.
  destruct (SecurityScanner.handle rt env req w1) as [r2 w2|r2 w2|e2 w2] eqn:Hh2;
    try contradiction.
  destruct H1 as (<- & (Hi1 & Hv1 & _) & (Hi2 & Hv2 & _)).
  pose proof Hpre as [_ (data & Hd & Hs) _ (_ & scan & Hsl & _)].
  destruct (scanning_scan env (VStr scanId) (VStr applicationId) w scanId scan Hsl)
    as (scan' & Hsl' & _).
  destruct (persist_completes_scan rt env _ _ _ _ _ _ _ Hper Hacc1 Hsl')
    as (scan1 & Hs1 & Hc1).
  exists data, scanId, applicationId, scan1, rows, writes, w2.
  split; [exact Hd|]. split; [exact Hs|]. split; [exact Hs1|]. split; [exact Hc1|].
  split. { unfold SecurityScanner.serve. now rewrite Hm, Hh2. }
  split; [exact Hi1|]. split; [exact Hi2|]. split; [exact Hv1|]. split; [exact Hv2|].
  intros l Hl.
  destruct (scanner_success_state rt env req w r w1 results l Hrun Hpay Hl Hacc1 Hacc2)
    as (data' & scanId' & applicationId' & rows' & _ & Hd' & Hs' & _ & _ & _ & Hv' & Hlen & Hall).
  assert (scanId' = scanId) by congruence. subst scanId'.
  assert (rows' = rows).
  { rewrite Hv1 in Hv'. now apply app_inv_head in Hv'. }
  subst rows'. split; assumption.
Qed.

(** ** The fences *)

Lemma fence_eq : fence = [96; 96; 96]%N.
Proof. reflexivity. Qed.

Lemma fence_json_eq : fence_json = fence ++ js "json".
Proof. reflexivity. Qed.

Lemma space_not_backtick c : is_space c = true -> unit_eqb 96 c = false.
Proof.
  intros H. destruct (unit_eqb 96 c) eqn:E; [|reflexivity].
  apply unit_eqb_eq in E. subst c. discriminate.
Qed.

Lemma fence_after_space c s : is_space c = true -> starts_with fence (c :: s) = false.
Proof. intros H. rewrite fence_eq. cbn [starts_with]. now rewrite space_not_backtick. Qed.

Lemma starts_with_app p s : starts_with p (p ++ s) = true.
Proof.
  induction p as [|c p IH]; [reflexivity|]. cbn [starts_with app].
  rewrite IH. unfold unit_eqb. now rewrite N.eqb_refl.
Qed.

Lemma lits_app a b : lits (a ++ b) = lits a ++ lits b.
Proof. unfold lits. apply map_app. Qed.

Lemma match_here_lits p r s cap :
  match_here (lits p ++ r) s cap
  = if starts_with p s then match_here r (drop (length p) s) cap else None.
Proof.
  revert s. induction p as [|c p IH]; intros s.
  - cbn [lits map app starts_with length]. now rewrite drop_0.
  - cbn [lits map app match_here atom_matches]. destruct s as [|d s]; [reflexivity|].
    cbn [starts_with length drop]. destruct (unit_eqb c d); [|reflexivity].
    cbn [andb]. apply IH.
Qed.

Lemma match_fence s cap :
  match_here (lits fence) s cap = if starts_with fence s then Some cap else None.
Proof.
  rewrite <- (app_nil_r (lits fence)), match_here_lits.
  destruct (starts_with fence s); reflexivity.
Qed.

(** The tail [\s*```] of the patterns. *)
Lemma match_tail s cap :
  greedy_star Space (fun s' => match_here (lits fence) s' cap) s
  = if closes s then Some cap else None.
Proof.
  unfold closes. induction s as [|c s IH].
  - cbn [greedy_star trim_start]. apply match_fence.
  - cbn [greedy_star atom_matches trim_start]. destruct (is_space c) eqn:E.
    + rewrite IH. destruct (starts_with fence (trim_start s)); [reflexivity|].
      rewrite match_fence. now rewrite fence_after_space.
    + apply match_fence.
Qed.

(** The lazy group takes the shortest text after which the tail matches. *)
Lemma lazy_group_stops (k : jsstring -> jsstring -> option jsstring) body rest acc :
  (forall s cap, k s cap = if closes s then Some cap else None) ->
  closes_inside body rest = false ->
  closes rest = true ->
  lazy_group AnyChar k (body ++ rest) acc = Some (rev acc ++ body).
Proof.
  intros Hk. revert acc. induction body as [|c b IH]; intros acc Hin Hrest.
  - cbn [app]. rewrite app_nil_r.
    destruct rest as [|d rest']; cbn [lazy_group]; now rewrite Hk, Hrest.
  - cbn [closes_inside] in Hin. apply orb_false_elim in Hin as [Hhere Hin].
    change ((c :: b) ++ rest) with (c :: (b ++ rest)) in *.
    cbn [lazy_group]. rewrite Hk, Hhere.
    cbn [atom_matches]. rewrite (IH (c :: acc) Hin Hrest).
    cbn [rev]. now rewrite <- app_assoc.
Qed.

(** The leading [\s*] of the patterns takes all the white space there
    is. *)
Lemma greedy_skips (k : jsstring -> option jsstring) s m :
  k (trim_start s) = Some m -> greedy_star Space k s = Some m.
Proof.
  induction s as [|c s IH]; intros H.
  - exact H.
  - cbn [greedy_star atom_matches]. cbn [trim_start] in H.
    destruct (is_space c); [now rewrite (IH H) | exact H].
Qed.

(** What follows the opening fence: white space, the text, the closing
    tail. *)
Lemma match_fenced_body s body rest :
  trim_start s = body ++ rest ->
  closes_inside body rest = false ->
  closes rest = true ->
  match_here fenced_body s [] = Some body.
Proof.
  intros Hs Hin Hrest. unfold fenced_body.
  change ([Greedy Space; LazyGroup AnyChar; Greedy Space] ++ lits fence)
    with (Greedy Space :: LazyGroup AnyChar :: Greedy Space :: lits fence).
  cbn [match_here]. apply greedy_skips. rewrite Hs.
  rewrite (lazy_group_stops _ body rest []); [reflexivity | | exact Hin | exact Hrest].
  intros s' cap. apply match_tail.
Qed.

(** A pattern that begins with the literal [p] matches first where [p]
    first occurs, if it matches there. *)
Lemma regex_match_at p r s n cap :
  index_of p s = Some n ->
  match_here r (drop (n + length p) s) [] = Some cap ->
  regex_match (lits p ++ r) s = Some cap.
Proof.
  revert n. induction s as [|c s IH]; intros n Hi Hm.
  - cbn [index_of] in Hi. destruct (starts_with p []) eqn:E; [|discriminate].
    injection Hi as <-. cbn [regex_match]. rewrite match_here_lits, E.
    cbn [Nat.add] in Hm. now rewrite Hm.
  - cbn [index_of] in Hi. cbn [regex_match]. rewrite match_here_lits.
    destruct (starts_with p (c :: s)) eqn:E.
    + injection Hi as <-. cbn [Nat.add] in Hm. now rewrite Hm.
    + destruct (index_of p s) as [n'|] eqn:E'; [|discriminate].
      cbn [option_map] in Hi. injection Hi as <-.
      apply (IH n' eq_refl). exact Hm.
Qed.

Lemma regex_match_none p r s : index_of p s = None -> regex_match (lits p ++ r) s = None.
Proof.
  induction s as [|c s IH]; intros Hi; cbn [index_of] in Hi; cbn [regex_match];
    rewrite match_here_lits; destruct (starts_with p _); try discriminate; [reflexivity|].
  destruct (index_of p s); [discriminate|]. now apply IH.
Qed.

(** *** White space around the text *)

Lemma trim_start_length s : (length (trim_start s) <= length s)%nat.
Proof.
  induction s as [|c s IH]; [reflexivity|].
  cbn [trim_start]. destruct (is_space c); cbn [length]; lia.
Qed.

Lemma trim_start_cases s : trim_start s = s \/ (length (trim_start s) < length s)%nat.
Proof.
  destruct s as [|c s]; [now left|]. cbn [trim_start].
  destruct (is_space c); [right | now left].
  pose proof (trim_start_length s). cbn [length]. lia.
Qed.

Lemma trim_start_head c s : trim_start (c :: s) = c :: s -> is_space c = false.
Proof.
  cbn [trim_start]. destruct (is_space c); [|reflexivity].
  intros H. apply (f_equal (@length N)) in H.
  pose proof (trim_start_length s). cbn [length] in H. lia.
Qed.

Lemma trim_end_length s : (length (trim_end s) <= length s)%nat.
Proof.
  unfold trim_end. rewrite length_rev, <- (length_rev s). apply trim_start_length.
Qed.

Lemma trim_fixed s : trim s = s -> trim_start s = s /\ trim_end s = s.
Proof.
  unfold trim. intros H. destruct (trim_start_cases s) as [E|E].
  - rewrite E in H. now split.
  - exfalso. apply (f_equal (@length N)) in H.
    pose proof (trim_end_length (trim_start s)). lia.
Qed.

Lemma trim_end_last s : trim_end s = s -> is_space (List.last s 0%N) = false.
Proof.
  unfold trim_end. intros H.
  assert (Ht : trim_start (rev s) = rev s).
  { apply (f_equal (@rev N)) in H. now rewrite rev_involutive in H. }
  rewrite <- (rev_involutive s). destruct (rev s) as [|c t]; [reflexivity|].
  apply trim_start_head in Ht. cbn [rev]. now rewrite List.last_last.
Qed.

Lemma trim_start_spaces ws t :
  Forall (fun c => is_space c = true) ws -> trim_start (ws ++ t) = trim_start t.
Proof.
  induction 1 as [|c ws Hc _ IH]; [reflexivity|].
  cbn [app trim_start]. now rewrite Hc.
Qed.

Lemma trim_start_fence post : trim_start (fence ++ post) = fence ++ post.
Proof. reflexivity. Qed.

Lemma closes_closing ws post :
  Forall (fun c => is_space c = true) ws -> closes (ws ++ fence ++ post) = true.
Proof.
  intros H. unfold closes. rewrite (trim_start_spaces _ _ H), trim_start_fence.
  apply starts_with_app.
Qed.

Lemma index_of_cons_none p c s :
  index_of p (c :: s) = None -> starts_with p (c :: s) = false /\ index_of p s = None.
Proof.
  cbn [index_of]. destruct (starts_with p (c :: s)); [discriminate|].
  destruct (index_of p s); [discriminate | auto].
Qed.

(** A fence that begins in [x], when the closing fence follows, begins in
    [x] followed by two backticks. *)
Lemma fence_begins_inside x ws post :
  x <> [] ->
  Forall (fun c => is_space c = true) ws ->
  starts_with fence (x ++ js "``") = false ->
  starts_with fence (x ++ ws ++ fence ++ post) = false.
Proof.
  intros Hx Hws. rewrite fence_eq.
  change (js "``") with [96; 96]%N.
  destruct x as [|a [|b [|c x]]]; [congruence | | |].
  - destruct Hws as [|s ws Hs _]; cbn [starts_with app]; [tauto|].
    rewrite (space_not_backtick s Hs).
    intros _. destruct (unit_eqb 96 a); reflexivity.
  - destruct Hws as [|s ws Hs _]; cbn [starts_with app]; [tauto|].
    rewrite (space_not_backtick s Hs).
    intros _. destruct (unit_eqb 96 a), (unit_eqb 96 b); reflexivity.
  - cbn [starts_with app]. tauto.
Qed.

(** No closing tail matches inside a text that does not end in white space
    and in which no fence begins. *)
Lemma no_closing_inside body ws post :
  is_space (List.last body 0%N) = false ->
  index_of fence (body ++ js "``") = None ->
  Forall (fun c => is_space c = true) ws ->
  closes_inside body (ws ++ fence ++ post) = false.
Proof.
  intros Hlast Hidx Hws. induction body as [|c b IH]; [reflexivity|].
  change ((c :: b) ++ js "``") with (c :: (b ++ js "``")) in Hidx.
  apply index_of_cons_none in Hidx as [Hhere Hidx].
  assert (Hb : closes_inside b (ws ++ fence ++ post) = false).
  { destruct b as [|d b']; [reflexivity|]. apply IH; [exact Hlast | exact Hidx]. }
  cbn [closes_inside]. rewrite Hb, orb_false_r.
  unfold closes. change ((c :: b) ++ ws ++ fence ++ post) with (c :: (b ++ ws ++ fence ++ post)).
  cbn [trim_start]. destruct (is_space c) eqn:Ec.
  - destruct b as [|d b'].
    + cbn [List.last] in Hlast. congruence.
    + cbn [closes_inside] in Hb. apply orb_false_elim in Hb as [Hb _]. exact Hb.
  - apply (fence_begins_inside (c :: b) ws post); [discriminate | exact Hws | exact Hhere].
Qed.

(** The text between an opening fence and the closing one is what the
    patterns capture. *)
Lemma fenced_text_is_captured ws1 body ws2 post :
  Forall (fun c => is_space c = true) ws1 ->
  Forall (fun c => is_space c = true) ws2 ->
  trim body = body ->
  index_of fence (body ++ js "``") = None ->
  match_here fenced_body (ws1 ++ body ++ ws2 ++ fence ++ post) [] = Some body.
Proof.
  intros H1 H2 Htrim Hidx. apply trim_fixed in Htrim as [Hstart Hend].
  destruct body as [|c b].
  - apply (match_fenced_body _ [] (fence ++ post)).
    + cbn [app]. now rewrite (trim_start_spaces _ _ H1), (trim_start_spaces _ _ H2).
    + reflexivity.
    + apply (closes_closing [] post). constructor.
  - apply (match_fenced_body _ (c :: b) (ws2 ++ fence ++ post)).
    + rewrite (trim_start_spaces _ _ H1).
      change ((c :: b) ++ ws2 ++ fence ++ post) with (c :: (b ++ ws2 ++ fence ++ post)).
      cbn [trim_start]. now rewrite (trim_start_head c b Hstart).
    + apply no_closing_inside; [now apply trim_end_last | exact Hidx | exact H2].
    + now apply closes_closing.
Qed.

Section Extraction.

Variables ws1 body ws2 : jsstring.
Hypothesis space_before : Forall (fun c => is_space c = true) ws1.
Hypothesis space_after : Forall (fun c => is_space c = true) ws2.
Hypothesis trimmed : trim body = body.
Hypothesis no_fence_inside : index_of fence (body ++ js "``") = None.

Lemma jsonStr_of_tagged_block pre post :
  index_of fence_json (pre ++ fence_json ++ ws1 ++ body ++ ws2 ++ fence ++ post)
  = Some (length pre) ->
  jsonStr (pre ++ fence_json ++ ws1 ++ body ++ ws2 ++ fence ++ post) = body.
Proof.
  intros Hidx. unfold jsonStr, re_json_block.
  rewrite (regex_match_at fence_json fenced_body _ (length pre) body Hidx); [reflexivity|].
  rewrite <- length_app, app_assoc, drop_app_length.
  now apply fenced_text_is_captured.
Qed.

Lemma jsonStr_of_untagged_block pre post :
  index_of fence_json (pre ++ fence ++ ws1 ++ body ++ ws2 ++ fence ++ post) = None ->
  index_of fence (pre ++ fence ++ ws1 ++ body ++ ws2 ++ fence ++ post)
  = Some (length pre) ->
  jsonStr (pre ++ fence ++ ws1 ++ body ++ ws2 ++ fence ++ post) = body.
Proof.
  intros Hnone Hidx. unfold jsonStr, re_json_block, re_any_block.
  rewrite (regex_match_none fence_json fenced_body _ Hnone).
  rewrite (regex_match_at fence fenced_body _ (length pre) body Hidx); [reflexivity|].
  rewrite <- length_app, app_assoc, drop_app_length.
  now apply fenced_text_is_captured.
Qed.

End Extraction.

Lemma jsonStr_of_raw_text raw : index_of fence raw = None -> jsonStr raw = raw.
Proof.
  intros Hnone. unfold jsonStr, re_json_block, re_any_block.
  rewrite fence_json_eq, lits_app, <- app_assoc.
  now rewrite !(regex_match_none fence _ _ Hnone).
Qed.

(** C6, as the code has it.  When the text between the opening fence and
    the closing one holds no further fence, the parser hands that text,
    without the fence markers and the white space around it, to
    [JSON.parse] and uses the value: for the first fence tagged [json]; for
    the first fence when none is tagged [json]; and the whole text,
    trimmed, when there is no fence. *)
Theorem fenced_text_is_parsed
  (rt : Runtime) (name pre ws1 body ws2 post : jsstring) (v : value) :
  Forall (fun c => is_space c = true) ws1 ->
  Forall (fun c => is_space c = true) ws2 ->
  trim body = body ->
  index_of fence (body ++ js "``") = None ->
  JSON_parse rt body = Some v ->
  (index_of fence_json (pre ++ fence_json ++ ws1 ++ body ++ ws2 ++ fence ++ post)
   = Some (length pre) ->
   parse_results rt (VStr (pre ++ fence_json ++ ws1 ++ body ++ ws2 ++ fence ++ post)) name
   = v)
  /\ (index_of fence_json (pre ++ fence ++ ws1 ++ body ++ ws2 ++ fence ++ post) = None ->
      index_of fence (pre ++ fence ++ ws1 ++ body ++ ws2 ++ fence ++ post)
      = Some (length pre) ->
      parse_results rt (VStr (pre ++ fence ++ ws1 ++ body ++ ws2 ++ fence ++ post)) name
      = v)
  /\ (forall raw,
        index_of fence raw = None -> trim raw = body ->
        parse_results rt (VStr raw) name = v).
Proof.
  intros H1 H2 Htrim Hin Hparse. unfold parse_results. split; [|split].
  - intros Hidx. rewrite (jsonStr_of_tagged_block ws1 body ws2 H1 H2 Htrim Hin pre post Hidx).
    now rewrite Htrim, Hparse.
  - intros Hnone Hidx.
    rewrite (jsonStr_of_untagged_block ws1 body ws2 H1 H2 Htrim Hin pre post Hnone Hidx).
    now rewrite Htrim, Hparse.
  - intros raw Hnone Hraw. rewrite (jsonStr_of_raw_text raw Hnone). now rewrite Hraw, Hparse.
Qed.

(** The answer of the specification is parsed to the object in the fence. *)
Lemma fenced_text_is_parsed_witness :
  parse_results runtime (VStr fenced_text) (js "Shop")
  = VObj [(js "overall_score", num_of_Z 10);
          (js "risk_level", VStr (js "high"));
          (js "vulnerabilities", VArr [])].
Proof.
  refine (proj1 (fenced_text_is_parsed runtime (js "Shop") [] [10%N]
                   (jq "{'overall_score':10,'risk_level':'high','vulnerabilities':[]}")
                   [10%N] [] _ _ _ _ _ _) _).
  - repeat constructor.
  - repeat constructor.
  - vm_compute. reflexivity.
  - vm_compute. reflexivity.
  - vm_compute. reflexivity.
  - vm_compute. reflexivity.
Defined.

(** C6, as stated, fails: an object one of whose strings holds a fence is
    cut at that fence; what is left is not JSON, and the fallback is used
    instead of the object. *)
Lemma fence_inside_object_is_cut :
  exists v,
    JSON_parse runtime object_with_fence = Some v
    /\ get_prop v (js "overall_score") = Ok (num_of_Z 10)
    /\ parse_results runtime (VStr fenced_object_with_fence) (js "Shop")
       = fallback (js "Shop")
    /\ parse_results runtime (VStr fenced_object_with_fence) (js "Shop") <> v.
Proof.
  eexists. split; [vm_compute; reflexivity|].
  split; [vm_compute; reflexivity|].
  assert (H : parse_results runtime (VStr fenced_object_with_fence) (js "Shop")
              = fallback (js "Shop")) by (vm_compute; reflexivity).
  split; [exact H|]. rewrite H. intros E.
  apply (f_equal (fun x => get_prop x (js "overall_score"))) in E.
  vm_compute in E. discriminate.
Qed.

Lemma second_invocation_inserts_again_witness :
  let first := SecurityScanner.serve runtime (run prose) request world in
  exists data scanId applicationId scan rows writes w2,
    JSON_parse runtime (body request) = Some data
    /\ SecurityScanner.safeParse runtime data = inr (scanId, applicationId)
    /\ security_scans (db (snd first)) !! scanId = Some scan
    /\ scan_status scan = ScanCompleted
    /\ SecurityScanner.serve runtime (run prose) request (snd first) = (fst first, w2)
    /\ issued (snd first) = issued world ++ writes
    /\ issued w2 = issued (snd first) ++ writes
    /\ vulnerabilities (db (snd first)) = vulnerabilities (db world) ++ rows
    /\ vulnerabilities (db w2) = vulnerabilities (db (snd first)) ++ rows
    /\ forall l, get_prop (fallback (js "Shop")) (js "vulnerabilities") = Ok (VArr l) ->
                 length rows = length l
                 /\ Forall (fun row => scan_id row = VStr scanId) rows.
Proof.
  apply (second_invocation_inserts_again runtime (run prose) request world
           (snd (SecurityScanner.serve runtime (run prose) request world))
           (fst (SecurityScanner.serve runtime (run prose) request world))
           (fallback (js "Shop"))).
  - vm_compute. reflexivity.
  - vm_compute. reflexivity.
  - reflexivity.
  - reflexivity.
Defined.

(** Two invocations in a row leave two rows for the one finding. *)
Example two_runs_two_rows :
  let w1 := snd (SecurityScanner.serve runtime (run prose) request world) in
  let w2 := snd (SecurityScanner.serve runtime (run prose) request w1) in
  length (rows_of_scan scan1 (db w1)) = 1%nat
  /\ length (rows_of_scan scan1 (db w2)) = 2%nat
  /\ option_map vulnerabilities_found (security_scans (db w2) !! scan1) = Some (num_of_Z 1).
Proof. evaluate. Qed.

(** ** Where the code departs from the specification *)

(** C2.  The handler of [index.ts] marks the scan [running] before it looks
    the application up: a caller who does not own the application is
    answered 403, and the scan of the owner has been marked [running]. *)
Theorem scan_is_marked_running_before_the_checks :
  let req := post (Some (js "Bearer bob-token")) (ids scan1 shop) in
  let r := fst (SecurityScanner.serve runtime (run prose) req world) in
  let w' := snd (SecurityScanner.serve runtime (run prose) req world) in
  option_map scan_status (security_scans (db world) !! scan1) = Some ScanPending
  /\ r = error_response 403 "You do not have permission to scan this application"
  /\ issued w' = [UpdateScanRunning (VStr scan1) (started_time (run prose))]
  /\ option_map scan_status (security_scans (db w') !! scan1) = Some ScanRunning
  /\ option_map started_at (security_scans (db w') !! scan1)
     = Some (Some (started_time (run prose))).
Proof. evaluate. Qed.

(** The same for an application that does not exist. *)
Example scan_is_marked_running_for_unknown_application :
  let req := post (Some (js "Bearer alice-token")) (ids scan1 unknown) in
  let r := fst (SecurityScanner.serve runtime (run prose) req world) in
  let w' := snd (SecurityScanner.serve runtime (run prose) req world) in
  r = error_response 404 "Application not found"
  /\ option_map scan_status (security_scans (db w') !! scan1) = Some ScanRunning.
Proof. evaluate. Qed.

(** C4.  A scan that belongs to another application than the one supplied
    is answered 400 by the handler of [index.ts], and no application is
    touched, but the scan has been marked [running]. *)
Theorem mismatched_scan_is_marked_running :
  let req := post (Some (js "Bearer alice-token")) (ids scan1 blog) in
  let r := fst (SecurityScanner.serve runtime (run prose) req world) in
  let w' := snd (SecurityScanner.serve runtime (run prose) req world) in
  option_map scan_application_id (security_scans (db world) !! scan1) = Some shop
  /\ option_map scan_status (security_scans (db world) !! scan1) = Some ScanPending
  /\ r = error_response 400 "Invalid scan request"
  /\ applications (db w') = applications (db world)
  /\ issued w' = [UpdateScanRunning (VStr scan1) (started_time (run prose))]
  /\ option_map scan_status (security_scans (db w') !! scan1) = Some ScanRunning.
Proof. evaluate. Qed.

(** C3.  The handler of [part_000] never looks at the credential: a request
    without an [Authorization] header runs the whole pipeline, writes to the
    three tables and is answered with a success payload. *)
Theorem part000_serves_without_credential :
  let req := post None (ids scan1 shop) in
  let r := fst (Part000.serve runtime (run prose) req world) in
  let w' := snd (Part000.serve runtime (run prose) req world) in
  r = success (fallback (js "Shop"))
  /\ length (issued w') = 5%nat
  /\ option_map scan_status (security_scans (db w') !! scan1) = Some ScanCompleted
  /\ option_map app_status (applications (db w') !! shop) = Some AppCompleted
  /\ length (vulnerabilities (db w')) = 1%nat.
Proof. evaluate. Qed.

(** The handler of [part_000] does the same whatever the header holds. *)
Lemma part000_ignores_credential rt env req w credential :
  Part000.serve rt env req w
  = Part000.serve rt env
      {| method := method req; authorization := credential; body := body req |} w.
Proof. reflexivity. Qed.

(** C7.  When the completion call fails, the handler of [part_000] answers
    with the message of the error it threw, which holds the status of the
    failed call, and with no identifier. *)
Theorem part000_exposes_completion_failure :
  let r := fst (Part000.serve runtime (run unavailable) request world) in
  let w' := snd (Part000.serve runtime (run unavailable) request world) in
  r = {| status := 500; payload := ErrorBody (js "AI API error: 503") None None |}
  /\ option_map scan_status (security_scans (db w') !! scan1) = Some ScanRunning
  /\ option_map app_status (applications (db w') !! shop) = Some AppScanning.
Proof. evaluate. Qed.

(** The handler of [index.ts] on the same failure. *)
Example scanner_hides_unavailable :
  let r := fst (SecurityScanner.serve runtime (run unavailable) request world) in
  let w' := snd (SecurityScanner.serve runtime (run unavailable) request world) in
  r = {| status := 500;
         payload :=
           ErrorBody (js "Security scan failed. Please try again or contact support.")
             None (Some (randomUUID (run unavailable))) |}
  /\ option_map scan_status (security_scans (db w') !! scan1) = Some ScanRunning
  /\ option_map app_status (applications (db w') !! shop) = Some AppScanning.
Proof. evaluate. Qed.

(** C9.  A body that is not JSON is answered 500 by the handler of
    [index.ts], not 400 with the violated fields; the handler of [part_000]
    does not check the body at all: with the application identifier
    missing, it marks the scan [running] and answers 500. *)
Theorem malformed_body_is_not_a_validation_error :
  (let req := post (Some (js "Bearer alice-token")) (js "scanId=1&applicationId=2") in
   SecurityScanner.serve runtime (run prose) req world
   = ({| status := 500;
         payload :=
           ErrorBody (js "Security scan failed. Please try again or contact support.")
             None (Some (randomUUID (run prose))) |}, world))
  /\ (let req := post (Some (js "Bearer alice-token"))
                   (jq "{'scanId':'" ++ scan1 ++ jq "'}") in
      let r := fst (Part000.serve runtime (run prose) req world) in
      let w' := snd (Part000.serve runtime (run prose) req world) in
      r = {| status := 500; payload := ErrorBody (js "Application not found") None None |}
      /\ issued w' = [UpdateScanRunning (VStr scan1) (started_time (run prose))]
      /\ option_map scan_status (security_scans (db w') !! scan1) = Some ScanRunning).
Proof. evaluate. Qed.

(** ** The handler of [part_000] turns no request away *)

Section Part000Facts.

Variable rt : Runtime.
Variable env : Env.

Lemma part000_find_application_not_Respond applicationId w r w' :
  Part000.find_application env applicationId w <> Respond r w'.
Proof.
  unfold Part000.find_application, bind, read_db.
  destruct (single env SelectApplication _ _); discriminate.
Qed.

Lemma part000_ask_model_not_Respond w r w' : Part000.ask_model rt env w <> Respond r w'.
Proof.
  unfold Part000.ask_model. destruct (completion env) as [|st text]; [discriminate|].
  destruct (negb (ok_status st)).
  - unfold bind, text_of. destruct text; discriminate.
  - intros H. apply bind_Respond_inv in H as [H | (v & w1 & _ & H)].
    + now apply json_of_not_Respond in H.
    + now apply lift_not_Respond in H.
Qed.

Lemma part000_handle_not_Respond req w r w' : Part000.handle rt env req w <> Respond r w'.
Proof.
  unfold Part000.handle. intros H.
  apply bind_Respond_inv in H as [H | (data & w1 & _ & H)].
  { now apply json_of_not_Respond in H. }
  apply bind_Respond_inv in H as [H | (scanId & w2 & _ & H)].
  { now apply lift_not_Respond in H. }
  apply bind_Respond_inv in H as [H | (applicationId & w3 & _ & H)].
  { now apply lift_not_Respond in H. }
  apply bind_Respond_inv in H as [H | ([] & w4 & _ & H)]; [discriminate|].
  apply bind_Respond_inv in H as [H | (app & w5 & _ & H)].
  { now apply part000_find_application_not_Respond in H. }
  apply bind_Respond_inv in H as [H | ([] & w6 & _ & H)]; [discriminate|].
  apply bind_Respond_inv in H as [H | (content & w7 & _ & H)].
  { now apply part000_ask_model_not_Respond in H. }
  now apply persist_not_Respond in H.
Qed.

(** Whatever the request, the handler of [part_000] answers 200 or 500:
    never 400, 401, 403 or 404. *)
Lemma part000_answers_200_or_500 req w :
  status (fst (Part000.serve rt env req w)) = 200
  \/ status (fst (Part000.serve rt env req w)) = 500.
Proof.
  unfold Part000.serve. destruct (jsstring_eqb (method req) (js "OPTIONS")); [now left|].
  destruct (Part000.handle rt env req w) as [r w'|r w'|e w'] eqn:H.
  - left. unfold Part000.handle in H.
    do 7 (apply bind_Next_inv in H as (? & ? & _ & H)).
    now rewrite (persist_Next_response rt env _ _ _ _ _ _ H).
  - now apply part000_handle_not_Respond in H.
  - now right.
Qed.

End Part000Facts.

(** * The ends of a run *)

Section Ends.

Variable rt : Runtime.
Variable env : Env.

Lemma row_of_open scanId vuln row : row_of scanId vuln = Ok row -> vuln_status row = Open.
Proof. unfold row_of. destruct vuln; intros H; inversion H; reflexivity. Qed.

Lemma map_eval_open scanId l rows :
  map_eval (row_of scanId) l = Ok rows -> Forall (fun row => vuln_status row = Open) rows.
Proof.
  revert rows. induction l as [|x l IH]; cbn; intros rows H.
  - inversion H. constructor.
  - destruct (row_of scanId x) as [row|] eqn:Er; [|discriminate].
    destruct (map_eval (row_of scanId) l) as [rs|]; [|discriminate].
    inversion H; subst. constructor; [now apply row_of_open in Er | now apply IH].
Qed.

(** The three ends of the insert of the findings. *)
Lemma insert_findings_ends scanId vulns w :
  (exists e, insert_findings rt env scanId vulns w = Thrown e w)
  \/ (insert_findings rt env scanId vulns w = Next tt w
      /\ forall x l, vulns <> VArr (x :: l))
  \/ (exists l rows,
        vulns = VArr l /\ l <> []
        /\ map_eval (row_of scanId) l = Ok rows
        /\ insert_findings rt env scanId vulns w
           = Next tt (send env InsertFindings (InsertVulnerabilities rows) w)).
Proof.
  assert (Hother :
            (forall l, vulns <> VArr l) ->
            (exists e, insert_findings rt env scanId vulns w = Thrown e w)
            \/ insert_findings rt env scanId vulns w = Next tt w).
  { intros Hna. unfold insert_findings. destruct (truthy vulns); [|right; reflexivity].
    unfold bind. destruct (get_prop vulns length_key) as [len|e]; cbn [lift ret throw];
      [|left; eauto].
    destruct (gt0 rt len) as [[|]|e]; cbn [lift ret throw];
      [|right; reflexivity|left; eauto].
    unfold array_map. destruct vulns; try (left; eexists; reflexivity).
    now destruct (Hna elems). }
  destruct vulns as [| |b|q|s|l|fields].
  6: { destruct (map_eval (row_of scanId) l) as [rows|e] eqn:Hr.
       - rewrite (insert_findings_list rt env _ _ _ w Hr). destruct l as [|x l].
         + right; left. split; [reflexivity | discriminate].
         + right; right. exists (x :: l), rows.
           split; [reflexivity|]. split; [discriminate|]. split; [exact Hr | reflexivity].
       - left. exists e. now apply insert_findings_list_raise. }
  all: destruct Hother as [H|H];
    [discriminate | left; exact H | right; left; split; [exact H | discriminate]].
Qed.

Lemma get_prop_raise v k e :
  get_prop v k = Raise e -> forall k', get_prop v k' = Raise TypeError.
Proof. destruct v; cbn; intros H k'; try discriminate; reflexivity. Qed.

(** The persistence phase comes to one of its four ends. *)
Lemma persist_ends scanId applicationId results w :
  persist_end env scanId applicationId results w
    (persist rt env scanId applicationId results w).
Proof.
  unfold persist.
  destruct (get_prop results (js "vulnerabilities")) as [vulns|e] eqn:Hv.
  - rewrite (get_prop_total _ _ _ Hv "overall_score"). unfold bind at 1. cbn [lift ret].
    rewrite (get_prop_total _ _ _ Hv "risk_level"). unfold bind at 1. cbn [lift ret].
    unfold bind at 1. cbn [lift ret].
    destruct (get_prop vulns length_key) as [found|e] eqn:Hf.
    2: { unfold bind at 1. cbn [lift throw]. apply unread. }
    unfold bind at 1. cbn [lift ret].
    unfold bind at 1. unfold issue_write at 1.
    change (send env CompleteScan _ w) with (recorded env scanId results found w).
    set (w1 := recorded env scanId results found w).
    unfold bind at 1.
    destruct (insert_findings_ends scanId vulns w1)
      as [(e & H) | [(H & Hna) | (l & rows & -> & Hne & Hr & H)]]; rewrite H.
    + apply rows_failed.
    + unfold bind, issue_write, ret. apply nothing_to_insert.
      intros x l E. rewrite Hv in E. inversion E. now apply (Hna x l).
    + unfold bind, issue_write, ret. subst w1.
      rewrite get_length_of_list in Hf. inversion Hf; subst found.
      now apply inserted.
  - rewrite (get_prop_raise _ _ _ Hv (js "overall_score")).
    unfold bind at 1. cbn [lift throw]. apply unread.
Qed.

Lemma authenticate_ends req w :
  (exists user, SecurityScanner.authenticate env req w = Next user w)
  \/ SecurityScanner.authenticate env req w
     = Respond (error_response 401 "Authentication required") w
  \/ SecurityScanner.authenticate env req w
     = Respond (error_response 401 "Invalid authentication token") w.
Proof.
  unfold SecurityScanner.authenticate.
  destruct (authorization req) as [[|c h]|]; [right; left; reflexivity | | right; left; reflexivity].
  cbv beta iota. destruct (getUser env _) as [user|].
  - left. exists user. reflexivity.
  - right; right. reflexivity.
Qed.

Lemma validate_ends req w :
  (exists ids, SecurityScanner.validate rt req w = Next ids w)
  \/ (exists issues,
        SecurityScanner.validate rt req w
        = Respond {| status := 400;
                     payload := ErrorBody (js "Invalid request parameters")
                                  (Some issues) None |} w)
  \/ SecurityScanner.validate rt req w = Thrown SyntaxError w.
Proof.
  destruct (JSON_parse rt (body req)) as [data|] eqn:Hd.
  - destruct (SecurityScanner.safeParse rt data) as [issues|ids] eqn:Hs.
    + right; left. exists issues. now apply validate_rejects with (data := data).
    + left. exists ids. now apply validate_passes with (data := data).
  - right; right. now apply validate_throws.
Qed.

Lemma verify_application_ends user applicationId w :
  (exists app, SecurityScanner.verify_application env user applicationId w = Next app w)
  \/ SecurityScanner.verify_application env user applicationId w
     = Respond (error_response 404 "Application not found") w
  \/ SecurityScanner.verify_application env user applicationId w
     = Respond (error_response 403 "You do not have permission to scan this application") w.
Proof.
  unfold SecurityScanner.verify_application, bind, read_db.
  destruct (single env SelectApplication _ _) as [app|]; [|right; left; reflexivity].
  destruct (negb _); [right; right; reflexivity|].
  left. exists app. reflexivity.
Qed.

Lemma verify_scan_ends scanId applicationId w :
  SecurityScanner.verify_scan env scanId applicationId w = Next tt w
  \/ SecurityScanner.verify_scan env scanId applicationId w
     = Respond (error_response 400 "Invalid scan request") w.
Proof.
  unfold SecurityScanner.verify_scan, bind, read_db.
  destruct (single env SelectScan _ _) as [scan|]; [|right; reflexivity].
  destruct (negb _); [right; reflexivity | left; reflexivity].
Qed.

Lemma ask_model_ends w :
  (exists content, SecurityScanner.ask_model rt env w = Next content w)
  \/ SecurityScanner.ask_model rt env w = Respond (SecurityScanner.scan_failed env) w
  \/ (exists e, SecurityScanner.ask_model rt env w = Thrown e w).
Proof.
  unfold SecurityScanner.ask_model.
  destruct (completion env) as [|st text]; [right; right; eexists; reflexivity|].
  destruct (negb (ok_status st)).
  - unfold bind, text_of. destruct text; [right; left; reflexivity|].
    right; right. eexists. reflexivity.
  - unfold bind, json_of. destruct text as [t|]; [|right; right; eexists; reflexivity].
    destruct (JSON_parse rt t) as [aiData|]; [|right; right; eexists; reflexivity].
    cbn [ret]. destruct (message_content aiData) as [content|e]; cbn [lift ret throw].
    + left. exists content. reflexivity.
    + right; right. exists e. reflexivity.
Qed.

(** The [try] block of [index.ts] comes to one of the ends listed. *)
Lemma scanner_ends req w : scanner_end env w (SecurityScanner.handle rt env req w).
Proof.
  unfold SecurityScanner.handle.
  destruct (authenticate_ends req w) as [(user & Ha) | [Ha | Ha]].
  2: { rewrite (bind_Respond _ _ _ _ _ Ha). apply missing_credential. }
  2: { rewrite (bind_Respond _ _ _ _ _ Ha). apply invalid_token. }
  rewrite (bind_Next _ _ _ _ _ Ha).
  destruct (validate_ends req w) as [([scanId applicationId] & Hv) | [(issues & Hv) | Hv]].
  2: { rewrite (bind_Respond _ _ _ _ _ Hv). apply invalid_parameters. }
  2: { rewrite (bind_Thrown _ _ _ _ _ Hv). apply unreadable_body. }
  rewrite (bind_Next _ _ _ _ _ Hv). cbn [fst snd].
  unfold bind at 1. unfold issue_write at 1.
  change (send env MarkScanRunning _ w) with (marked env (VStr scanId) w).
  destruct (verify_application_ends user applicationId (marked env (VStr scanId) w))
    as [(app & H) | [H | H]].
  2: { rewrite (bind_Respond _ _ _ _ _ H). apply unknown_application. }
  2: { rewrite (bind_Respond _ _ _ _ _ H). apply foreign_application. }
  rewrite (bind_Next _ _ _ _ _ H). clear H.
  destruct (verify_scan_ends scanId applicationId (marked env (VStr scanId) w)) as [H | H].
  2: { rewrite (bind_Respond _ _ _ _ _ H). apply invalid_scan. }
  rewrite (bind_Next _ _ _ _ _ H). clear H.
  unfold bind at 1. unfold issue_write at 1.
  change (send env MarkAppScanning _ (marked env (VStr scanId) w))
    with (scanning env (VStr scanId) (VStr applicationId) w).
  destruct (ask_model_ends (scanning env (VStr scanId) (VStr applicationId) w))
    as [(content & H) | [H | (e & H)]].
  2: { rewrite (bind_Respond _ _ _ _ _ H). apply completion_failed. }
  2: { rewrite (bind_Thrown _ _ _ _ _ H). apply completion_threw. }
  rewrite (bind_Next _ _ _ _ _ H). eapply persistence, persist_ends.
Qed.

Lemma part000_ask_model_ends w :
  (exists content, Part000.ask_model rt env w = Next content w)
  \/ (exists e, Part000.ask_model rt env w = Thrown e w).
Proof.
  unfold Part000.ask_model.
  destruct (completion env) as [|st text]; [right; eexists; reflexivity|].
  destruct (negb (ok_status st)).
  - unfold bind, text_of. destruct text; right; eexists; reflexivity.
  - unfold bind, json_of. destruct text as [t|]; [|right; eexists; reflexivity].
    destruct (JSON_parse rt t) as [aiData|]; [|right; eexists; reflexivity].
    cbn [ret]. destruct (message_content aiData) as [content|e]; cbn [lift ret throw].
    + left. exists content. reflexivity.
    + right. exists e. reflexivity.
Qed.

(** The [try] block of [part_000] comes to one of the ends listed. *)
Lemma part000_ends req w : part000_end env w (Part000.handle rt env req w).
Proof.
  unfold Part000.handle.
  unfold bind at 1. unfold json_of.
  destruct (JSON_parse rt (body req)) as [data|]; [|apply body_threw].
  cbn [ret].
  unfold bind at 1. destruct (get_prop data (js "scanId")) as [scanId|e];
    cbn [lift ret throw]; [|apply body_threw].
  unfold bind at 1. destruct (get_prop data (js "applicationId")) as [applicationId|e];
    cbn [lift ret throw]; [|apply body_threw].
  unfold bind at 1. unfold issue_write at 1.
  change (send env MarkScanRunning _ w) with (marked env scanId w).
  unfold bind at 1. unfold Part000.find_application at 1. unfold bind at 1, read_db at 1.
  destruct (single env SelectApplication _ applicationId) as [app|];
    [|apply application_not_found].
  cbn [ret].
  unfold bind at 1. unfold issue_write at 1.
  change (send env MarkAppScanning _ (marked env scanId w))
    with (scanning env scanId applicationId w).
  destruct (part000_ask_model_ends (scanning env scanId applicationId w))
    as [(content & H) | (e & H)].
  2: { rewrite (bind_Thrown _ _ _ _ _ H). apply model_threw. }
  rewrite (bind_Next _ _ _ _ _ H). eapply persistence_000, persist_ends.
Qed.

End Ends.

(** ** The statements a run sent *)

Lemma statements_nil w : statements w w [].
Proof. exists []. now rewrite app_nil_r. Qed.

Lemma statements_send env st wr w s :
  statement_of wr = Some s -> statements w (send env st wr w) [s].
Proof. intros H. exists [wr]. split; [reflexivity|]. cbn [map]. now rewrite H. Qed.

Lemma statements_app w1 w2 w3 s1 s2 :
  statements w1 w2 s1 -> statements w2 w3 s2 -> statements w1 w3 (s1 ++ s2).
Proof.
  intros (t1 & H1 & E1) (t2 & H2 & E2). exists (t1 ++ t2).
  rewrite H2, H1, <- app_assoc, !map_app, E1, E2. auto.
Qed.

Lemma statements_then env st wr w0 w s sts :
  statements w0 w sts -> statement_of wr = Some s ->
  statements w0 (send env st wr w) (sts ++ [s]).
Proof. intros H Hs. apply (statements_app _ w); [exact H | now apply statements_send]. Qed.

Lemma statements_marked env scanId w : statements w (marked env scanId w) [MarkScanRunning].
Proof. now apply statements_send. Qed.

Lemma statements_scanning env scanId applicationId w :
  statements w (scanning env scanId applicationId w) [MarkScanRunning; MarkAppScanning].
Proof.
  unfold scanning.
  apply (statements_then _ _ _ _ _ _ [MarkScanRunning]); [apply statements_marked | reflexivity].
Qed.

Lemma statements_recorded env scanId results found w :
  statements w (recorded env scanId results found w) [CompleteScan].
Proof. now apply statements_send. Qed.

(** What the persistence phase sent, by the way it ended. *)
Lemma persist_end_statements env scanId applicationId results w o :
  persist_end env scanId applicationId results w o ->
  match o with
  | Next r w' =>
      r = success results
      /\ (statements w w' [CompleteScan; MarkAppCompleted]
          \/ statements w w' [CompleteScan; InsertFindings; MarkAppCompleted])
  | Respond _ _ => False
  | Thrown _ w' => w' = w \/ statements w w' [CompleteScan]
  end.
Proof.
  intros [e|found e|found Hna|l rows Hv Hne Hr].
  - now left.
  - right. apply statements_recorded.
  - split; [reflexivity|]. left. unfold closed.
    apply (statements_then _ _ _ _ _ _ [CompleteScan]);
      [apply statements_recorded | reflexivity].
  - split; [reflexivity|]. right. unfold closed.
    apply (statements_then _ _ _ _ _ _ [CompleteScan; InsertFindings]); [|reflexivity].
    apply (statements_then _ _ _ _ _ _ [CompleteScan]);
      [apply statements_recorded | reflexivity].
Qed.

(** X1.  The answers of the handler of [index.ts] and the writes behind
    them.  The preflight answer, a 401 and a 400 with validation details
    come before any write.  A 404, a 403 and the 400 of a scan that does not
    fit come after exactly one write, the one that marks the scan
    [running].  The generic 500 comes after no write, after the two status
    updates, or after these and the scan update, never after an insert.  A
    success payload comes after the whole pipeline, with or without the
    insert.  No other answer and no other sequence of writes exists. *)
Theorem scanner_answers_and_writes (rt : Runtime) (env : Env) (req : Request) (w : World) :
  let r := fst (SecurityScanner.serve rt env req w) in
  let w' := snd (SecurityScanner.serve rt env req w) in
  (r = {| status := 200; payload := NoContent |} /\ w' = w)
  \/ ((r = error_response 401 "Authentication required"
       \/ r = error_response 401 "Invalid authentication token")
      /\ w' = w)
  \/ ((exists issues,
         r = {| status := 400;
                payload := ErrorBody (js "Invalid request parameters") (Some issues) None |})
      /\ w' = w)
  \/ ((r = error_response 404 "Application not found"
       \/ r = error_response 403 "You do not have permission to scan this application"
       \/ r = error_response 400 "Invalid scan request")
      /\ statements w w' [MarkScanRunning])
  \/ (r = SecurityScanner.scan_failed env
      /\ (w' = w
          \/ statements w w' [MarkScanRunning; MarkAppScanning]
          \/ statements w w' [MarkScanRunning; MarkAppScanning; CompleteScan]))
  \/ ((exists results, r = success results)
      /\ (statements w w' [MarkScanRunning; MarkAppScanning; CompleteScan; MarkAppCompleted]
          \/ statements w w' [MarkScanRunning; MarkAppScanning; CompleteScan;
                              InsertFindings; MarkAppCompleted])).
Proof.
  intros r w'. subst r w'. unfold SecurityScanner.serve.
  destruct (jsstring_eqb (method req) (js "OPTIONS")); [left; split; reflexivity|].
  right. pose proof (scanner_ends rt env req w) as H.
  remember (SecurityScanner.handle rt env req w) as o eqn:E. clear E.
  destruct H as [| |issues| |scanId|scanId|scanId|scanId applicationId|scanId applicationId e
                 |scanId applicationId results o Hp]; cbn [fst snd].
  - left. split; [now left | reflexivity].
  - left. split; [now right | reflexivity].
  - right; left. split; [now exists issues | reflexivity].
  - do 3 right; left. split; [reflexivity | now left].
  - do 2 right; left. split; [now left | apply statements_marked].
  - do 2 right; left. split; [right; now left | apply statements_marked].
  - do 2 right; left. split; [right; now right | apply statements_marked].
  - do 3 right; left. split; [reflexivity | right; left; apply statements_scanning].
  - do 3 right; left. split; [reflexivity | right; left; apply statements_scanning].
  - apply persist_end_statements in Hp.
    pose proof (statements_scanning env (VStr scanId) (VStr applicationId) w) as Hs.
    destruct o as [r w'|r w'|e w']; cbn [fst snd]; [|contradiction|].
    + destruct Hp as [-> [Hp | Hp]]; do 4 right; (split; [now exists results|]).
      * left. apply (statements_app _ _ _ _ _ Hs Hp).
      * right. apply (statements_app _ _ _ _ _ Hs Hp).
    + do 3 right; left. split; [reflexivity|]. right.
      destruct Hp as [-> | Hp]; [now left | right].
      apply (statements_app _ _ _ _ _ Hs Hp).
Qed.

(** X2.  The answers of the handler of [part_000] and the writes behind
    them.  Apart from the preflight answer it knows two answers: the 500
    that carries the message of whatever was thrown, and the success
    payload.  The 500 with "Application not found" comes after the write
    that marks the scan [running]; any other 500 comes after no write, after
    the two status updates, or after these and the scan update. *)
Theorem part000_answers_and_writes (rt : Runtime) (env : Env) (req : Request) (w : World) :
  let r := fst (Part000.serve rt env req w) in
  let w' := snd (Part000.serve rt env req w) in
  (r = {| status := 200; payload := NoContent |} /\ w' = w)
  \/ (r = {| status := 500; payload := ErrorBody (js "Application not found") None None |}
      /\ statements w w' [MarkScanRunning])
  \/ ((exists e, r = {| status := 500;
                       payload := ErrorBody (Part000.message_of rt e) None None |})
      /\ (w' = w
          \/ statements w w' [MarkScanRunning; MarkAppScanning]
          \/ statements w w' [MarkScanRunning; MarkAppScanning; CompleteScan]))
  \/ ((exists results, r = success results)
      /\ (statements w w' [MarkScanRunning; MarkAppScanning; CompleteScan; MarkAppCompleted]
          \/ statements w w' [MarkScanRunning; MarkAppScanning; CompleteScan;
                              InsertFindings; MarkAppCompleted])).
Proof.
  intros r w'. subst r w'. unfold Part000.serve.
  destruct (jsstring_eqb (method req) (js "OPTIONS")); [left; split; reflexivity|].
  right. pose proof (part000_ends rt env req w) as H.
  remember (Part000.handle rt env req w) as o eqn:E. clear E.
  destruct H as [e|scanId|scanId applicationId e|scanId applicationId results o Hp];
    cbn [fst snd].
  - right; left. split; [now exists e | now left].
  - left. split; [reflexivity | apply statements_marked].
  - right; left. split; [now exists e | right; left; apply statements_scanning].
  - apply persist_end_statements in Hp.
    pose proof (statements_scanning env scanId applicationId w) as Hs.
    destruct o as [r w'|r w'|e w']; cbn [fst snd]; [|contradiction|].
    + destruct Hp as [-> [Hp | Hp]]; do 2 right; (split; [now exists results|]).
      * left. apply (statements_app _ _ _ _ _ Hs Hp).
      * right. apply (statements_app _ _ _ _ _ Hs Hp).
    + right; left. split; [now exists e|]. right.
      destruct Hp as [-> | Hp]; [now left | right].
      apply (statements_app _ _ _ _ _ Hs Hp).
Qed.

(** ** What a run may do to the tables *)

Lemma application_moves_refl a : application_moves a a.
Proof. unfold application_moves. auto 10. Qed.

Lemma application_moves_trans a b c :
  application_moves a b -> application_moves b c -> application_moves a c.
Proof.
  unfold application_moves.
  intros (H1 & H2 & H3 & H4 & H5 & H6) (G1 & G2 & G3 & G4 & G5 & G6).
  repeat split; try congruence.
  destruct G6 as [G6 | [G6 | G6]]; [|auto ..]. rewrite G6. exact H6.
Qed.

Lemma scan_moves_refl s : scan_moves s s.
Proof. unfold scan_moves. auto. Qed.

Lemma scan_moves_trans a b c : scan_moves a b -> scan_moves b c -> scan_moves a c.
Proof.
  unfold scan_moves. intros (H1 & H2) (G1 & G2). split; [congruence|].
  destruct G2 as [G2 | [G2 | G2]]; [|auto ..]. rewrite G2. exact H2.
Qed.

Lemma rows_related_refl {A : Type} (R : A -> A -> Prop) (m : gmap jsstring A) :
  (forall a, R a a) -> rows_related R m m.
Proof. intros HR k. destruct (m !! k); constructor; auto. Qed.

Lemma rows_related_trans {A : Type} (R : A -> A -> Prop) (m1 m2 m3 : gmap jsstring A) :
  (forall a b c, R a b -> R b c -> R a c) ->
  rows_related R m1 m2 -> rows_related R m2 m3 -> rows_related R m1 m3.
Proof.
  intros HR H1 H2 k. specialize (H1 k). specialize (H2 k).
  destruct H1 as [a b Hab|]; inversion H2; subst; constructor; eauto.
Qed.

Lemma rows_related_update {A : Type} (R : A -> A -> Prop) (f : A -> A) (id : value)
  (m : gmap jsstring A) :
  (forall a, R a a) -> (forall a, R a (f a)) -> rows_related R m (update_row f id m).
Proof.
  intros Hrefl Hf k. rewrite update_row_lookup.
  destruct (filter_id id) as [k'|]; [|destruct (m !! k); constructor; auto].
  destruct (decide (k' = k)); destruct (m !! k); constructor; auto.
Qed.

Lemma evolves_refl d : evolves d d.
Proof.
  split; [apply rows_related_refl, application_moves_refl|].
  split; [apply rows_related_refl, scan_moves_refl|].
  exists []. split; [now rewrite app_nil_r | constructor].
Qed.

Lemma evolves_trans d1 d2 d3 : evolves d1 d2 -> evolves d2 d3 -> evolves d1 d3.
Proof.
  intros (A1 & S1 & r1 & V1 & O1) (A2 & S2 & r2 & V2 & O2).
  split; [exact (rows_related_trans _ _ _ _ application_moves_trans A1 A2)|].
  split; [exact (rows_related_trans _ _ _ _ scan_moves_trans S1 S2)|].
  exists (r1 ++ r2). split; [now rewrite V2, V1, app_assoc | now apply Forall_app].
Qed.

(** A write of the pipeline, whether the backend persists it or not. *)
Lemma evolves_send env st wr w :
  statement_of wr <> None ->
  (forall rows, wr = InsertVulnerabilities rows ->
                Forall (fun row => vuln_status row = Open) rows) ->
  evolves (db w) (db (send env st wr w)).
Proof.
  intros Hst Hrows. unfold send. cbn [db].
  destruct (accepts env st); [|apply evolves_refl].
  destruct wr as [id started|id score risk found duration completed|id s|rows];
    cbn [apply_write]; unfold evolves; cbn [applications security_scans vulnerabilities].
  - split; [apply rows_related_refl, application_moves_refl|].
    split; [|exists []; split; [now rewrite app_nil_r | constructor]].
    apply rows_related_update; [apply scan_moves_refl|].
    intros a. unfold scan_moves, set_running. cbn. auto.
  - split; [apply rows_related_refl, application_moves_refl|].
    split; [|exists []; split; [now rewrite app_nil_r | constructor]].
    apply rows_related_update; [apply scan_moves_refl|].
    intros a. unfold scan_moves, set_completed. cbn. auto.
  - split; [|split; [apply rows_related_refl, scan_moves_refl
                    |exists []; split; [now rewrite app_nil_r | constructor]]].
    apply rows_related_update; [apply application_moves_refl|].
    intros a. unfold application_moves, set_app_status. cbn.
    repeat split. destruct s; cbn in Hst; auto; congruence.
  - split; [apply rows_related_refl, application_moves_refl|].
    split; [apply rows_related_refl, scan_moves_refl|].
    exists rows. split; [reflexivity | now apply Hrows].
Qed.

Lemma evolves_update env st wr w :
  statement_of wr <> None -> (forall rows, wr <> InsertVulnerabilities rows) ->
  evolves (db w) (db (send env st wr w)).
Proof. intros Hst Hni. apply evolves_send; [exact Hst|]. intros rows E. now destruct (Hni rows). Qed.

Lemma evolves_scanning env scanId applicationId w :
  evolves (db w) (db (scanning env scanId applicationId w)).
Proof.
  unfold scanning.
  eapply evolves_trans; [|apply evolves_update; discriminate].
  apply evolves_update; discriminate.
Qed.

Lemma persist_end_evolves env scanId applicationId results w o :
  persist_end env scanId applicationId results w o -> evolves (db w) (db (end_world o)).
Proof.
  intros [e|found e|found Hna|l rows Hv Hne Hr]; cbn [end_world]; unfold closed, recorded.
  - apply evolves_refl.
  - apply evolves_update; discriminate.
  - eapply evolves_trans; [|apply evolves_update; discriminate].
    apply evolves_update; discriminate.
  - eapply evolves_trans; [|apply evolves_update; discriminate].
    eapply evolves_trans; [|apply evolves_send; [discriminate|]].
    + apply evolves_update; discriminate.
    + intros rows' E. inversion E; subst. exact (map_eval_open _ _ _ Hr).
Qed.

Lemma scanner_end_evolves env w o : scanner_end env w o -> evolves (db w) (db (end_world o)).
Proof.
  intros [| |issues| |scanId|scanId|scanId|scanId applicationId|scanId applicationId e
          |scanId applicationId results o' Hp]; cbn [end_world]; unfold marked;
    try apply evolves_refl; try (apply evolves_update; discriminate);
    try apply evolves_scanning.
  eapply evolves_trans; [apply evolves_scanning | exact (persist_end_evolves _ _ _ _ _ _ Hp)].
Qed.


Lemma scanner_serve_end rt env req w :
  snd (SecurityScanner.serve rt env req w) = w
  \/ snd (SecurityScanner.serve rt env req w)
     = end_world (SecurityScanner.handle rt env req w).
Proof.
  unfold SecurityScanner.serve.
  destruct (jsstring_eqb (method req) (js "OPTIONS")); [now left|].
  right. now destruct (SecurityScanner.handle rt env req w).
Qed.


Lemma scanner_evolves rt env req w :
  evolves (db w) (db (snd (SecurityScanner.serve rt env req w))).
Proof.
  destruct (scanner_serve_end rt env req w) as [-> | ->]; [apply evolves_refl|].
  apply (scanner_end_evolves env), scanner_ends.
Qed.




(** ** The success payload and the policies *)


Lemma option_Forall2_Some_l {A : Type} (R : A -> A -> Prop) (a : A) (o : option A) :
  option_Forall2 R (Some a) o -> exists b, o = Some b /\ R a b.
Proof. intros H. inversion H; subst. eauto. Qed.



(** ** Results of the wrong shape *)

Section Shapes.

Variable rt : Runtime.
Variable env : Env.

Lemma persist_unread scanId applicationId results w :
  prop results "vulnerabilities" = VUndefined \/ prop results "vulnerabilities" = VNull ->
  persist rt env scanId applicationId results w = Thrown TypeError w.
Proof.
  intros H. unfold persist.
  destruct (get_prop results (js "vulnerabilities")) as [vulns|e] eqn:Hv.
  - rewrite (get_prop_total _ _ _ Hv "overall_score"). unfold bind at 1. cbn [lift ret].
    rewrite (get_prop_total _ _ _ Hv "risk_level"). unfold bind at 1. cbn [lift ret].
    unfold bind at 1. cbn [lift ret].
    assert (Hp : prop results "vulnerabilities" = vulns) by (unfold prop; now rewrite Hv).
    rewrite Hp in H. unfold bind at 1. destruct H as [-> | ->]; reflexivity.
  - rewrite (get_prop_raise _ _ _ Hv (js "overall_score")). reflexivity.
Qed.

Lemma map_eval_null scanId l :
  In VNull l -> map_eval (row_of scanId) l = Raise TypeError.
Proof.
  induction l as [|x l IH]; [intros []|]. intros [-> | Hin]; [reflexivity|].
  cbn [map_eval]. destruct (row_of scanId x) as [row|e] eqn:Hx.
  - now rewrite (IH Hin).
  - unfold row_of in Hx. destruct x; inversion Hx; reflexivity.
Qed.

Lemma persist_rows_fail scanId applicationId results l e w :
  get_prop results (js "vulnerabilities") = Ok (VArr l) ->
  map_eval (row_of scanId) l = Raise e ->
  persist rt env scanId applicationId results w
  = Thrown e (recorded env scanId results (num_of_nat (length l)) w).
Proof.
  intros Hv Hr. unfold persist.
  rewrite (get_prop_total _ _ _ Hv "overall_score"). unfold bind at 1. cbn [lift ret].
  rewrite (get_prop_total _ _ _ Hv "risk_level"). unfold bind at 1. cbn [lift ret].
  rewrite Hv. unfold bind at 1. cbn [lift ret].
  rewrite get_length_of_list. unfold bind at 1. cbn [lift ret].
  unfold bind at 1. unfold issue_write at 1.
  unfold bind at 1. rewrite (insert_findings_list_raise _ _ _ _ _ _ Hr). reflexivity.
Qed.

End Shapes.

(** X6.  The fixed result stands in only for an answer that is not JSON.
    An answer that is JSON but holds no findings ([null], a number, a
    string, an object without [vulnerabilities] or with [null] there) makes
    the handler of [index.ts] answer the generic 500 once the two status
    updates are sent: nothing of the result is stored, and the scan is left
    as the first write made it. *)
Theorem result_without_findings_is_a_500
  (rt : Runtime) (env : Env) (req : Request) (w : World)
  (user scanId applicationId : jsstring) (app : Application) (text : jsstring)
  (results : value) :
  jsstring_eqb (method req) (js "OPTIONS") = false ->
  preconditions rt env req w user scanId applicationId app ->
  answers_with rt env (VStr text) ->
  JSON_parse rt (trim (jsonStr text)) = Some results ->
  prop results "vulnerabilities" = VUndefined \/ prop results "vulnerabilities" = VNull ->
  SecurityScanner.serve rt env req w
  = (SecurityScanner.scan_failed env, scanning env (VStr scanId) (VStr applicationId) w).
Proof.
  intros Hm Hpre Hans Hparse Hshape. unfold SecurityScanner.serve. rewrite Hm.
  rewrite (scanner_reaches_persist rt env req w user scanId applicationId app _ Hpre Hans).
  unfold parse_results. rewrite Hparse.
  now rewrite (persist_unread rt env _ _ _ _ Hshape).
Qed.

Lemma result_without_findings_is_a_500_witness :
  SecurityScanner.serve runtime (run Scenario.shapeless) request world
  = (SecurityScanner.scan_failed (run Scenario.shapeless),
     scanning (run Scenario.shapeless) (VStr scan1) (VStr shop) world).
Proof.
  apply (result_without_findings_is_a_500 runtime (run Scenario.shapeless) request world
           alice scan1 shop (application alice "Shop") (jq "{'overall_score':90}")
           (VObj [(js "overall_score", num_of_Z 90)])).
  - reflexivity.
  - apply fixture_preconditions.
  - eexists _, _, _. repeat split; vm_compute; reflexivity.
  - vm_compute. reflexivity.
  - left. vm_compute. reflexivity.
Defined.

(** X7.  A list of findings one of which is [null]: the handler of
    [index.ts] has sent the scan update with the length of the list before
    it builds the rows, and building them throws.  It answers the generic
    500; no row is inserted and the application is not marked [completed],
    but the scan, if the backend persisted the update, is [completed] with
    the count of the list. *)
Theorem null_finding_leaves_a_count_without_rows
  (rt : Runtime) (env : Env) (req : Request) (w : World)
  (user scanId applicationId : jsstring) (app : Application) (text : jsstring)
  (results : value) (l : list value) :
  jsstring_eqb (method req) (js "OPTIONS") = false ->
  preconditions rt env req w user scanId applicationId app ->
  answers_with rt env (VStr text) ->
  JSON_parse rt (trim (jsonStr text)) = Some results ->
  get_prop results (js "vulnerabilities") = Ok (VArr l) ->
  In VNull l ->
  let w' := recorded env (VStr scanId) results (num_of_nat (length l))
              (scanning env (VStr scanId) (VStr applicationId) w) in
  SecurityScanner.serve rt env req w = (SecurityScanner.scan_failed env, w')
  /\ statements w w' [MarkScanRunning; MarkAppScanning; CompleteScan]
  /\ vulnerabilities (db w') = vulnerabilities (db w)
  /\ (accepts env CompleteScan = true ->
      exists scan', security_scans (db w') !! scanId = Some scan'
                    /\ scan_status scan' = ScanCompleted
                    /\ vulnerabilities_found scan' = num_of_nat (length l)).
Proof.
  intros Hm Hpre Hans Hparse Hv Hin w'. split; [|split; [|split]].
  - unfold SecurityScanner.serve. rewrite Hm.
    rewrite (scanner_reaches_persist rt env req w user scanId applicationId app _ Hpre Hans).
    unfold parse_results. rewrite Hparse.
    now rewrite (persist_rows_fail rt env _ _ _ _ _ _ Hv (map_eval_null _ _ Hin)).
  - unfold w', recorded.
    apply (statements_then _ _ _ _ _ _ [MarkScanRunning; MarkAppScanning]);
      [apply statements_scanning | reflexivity].
  - unfold w', recorded. now rewrite send_completed_keeps_rows, scanning_rows.
  - intros Hacc. destruct Hpre as [_ _ _ (_ & scan & Hsl & _)].
    destruct (scanning_scan env (VStr scanId) (VStr applicationId) w scanId scan Hsl)
      as (scan1 & Hs1 & _).
    unfold w', recorded, send. rewrite Hacc. cbn [db apply_write security_scans].
    rewrite (update_row_hit _ _ _ _ Hs1). eexists. split; [reflexivity|].
    split; reflexivity.
Qed.

Lemma null_finding_leaves_a_count_without_rows_witness :
  let env := run Scenario.null_finding in
  let results :=
    VObj [(js "overall_score", num_of_Z 40); (js "risk_level", VStr (js "high"));
          (js "vulnerabilities",
            VArr [VObj [(js "severity", VStr (js "high")); (js "title", VStr (js "XSS"))];
                  VNull])] in
  let w' := recorded env (VStr scan1) results (num_of_nat 2)
              (scanning env (VStr scan1) (VStr shop) world) in
  SecurityScanner.serve runtime env request world = (SecurityScanner.scan_failed env, w')
  /\ statements world w' [MarkScanRunning; MarkAppScanning; CompleteScan]
  /\ vulnerabilities (db w') = vulnerabilities (db world)
  /\ (accepts env CompleteScan = true ->
      exists scan', security_scans (db w') !! scan1 = Some scan'
                    /\ scan_status scan' = ScanCompleted
                    /\ vulnerabilities_found scan' = num_of_nat 2).
Proof.
  intros env results.
  apply (null_finding_leaves_a_count_without_rows runtime env request world
           alice scan1 shop (application alice "Shop")
           (jq "{'overall_score':40,'risk_level':'high','vulnerabilities':[{'severity':'high','title':'XSS'},null]}")
           results
           [VObj [(js "severity", VStr (js "high")); (js "title", VStr (js "XSS"))]; VNull]).
  - reflexivity.
  - apply fixture_preconditions.
  - eexists _, _, _. repeat split; vm_compute; reflexivity.
  - vm_compute. reflexivity.
  - vm_compute. reflexivity.
  - right. left. reflexivity.
Defined.

(** ** Answers of the completion API without a text *)

(** X8.  The fixed result also stands in for a message whose content is
    not a string ([null], a number, a list): looking for the fences throws
    inside the [try], and the [catch] takes over.  The handler of
    [index.ts] then goes through the whole pipeline with the fixed result,
    insert included, and returns it in a success payload. *)
Theorem content_without_text_gets_fallback
  (rt : Runtime) (env : Env) (req : Request) (w : World)
  (user scanId applicationId : jsstring) (app : Application) (content : value) :
  jsstring_eqb (method req) (js "OPTIONS") = false ->
  preconditions rt env req w user scanId applicationId app ->
  answers_with rt env content ->
  (forall text, content <> VStr text) ->
  fst (SecurityScanner.serve rt env req w) = success (fallback (app_name app))
  /\ statements w (snd (SecurityScanner.serve rt env req w))
       [MarkScanRunning; MarkAppScanning; CompleteScan; InsertFindings; MarkAppCompleted].
Proof.
  intros Hm Hpre Hans Hnot. unfold SecurityScanner.serve. rewrite Hm.
  rewrite (scanner_reaches_persist rt env req w user scanId applicationId app _ Hpre Hans).
  assert (Hres : parse_results rt content (app_name app) = fallback (app_name app)).
  { destruct content; try reflexivity. now destruct (Hnot s). }
  rewrite Hres.
  destruct (fallback_findings (app_name app)) as (finding & Hv & Hrows).
  destruct (Hrows (VStr scanId)) as (row & Hrow).
  rewrite (persist_list rt env _ _ _ _ _ _ Hv Hrow). cbn [fst snd].
  split; [reflexivity|]. unfold persisted.
  apply (statements_then _ _ _ _ _ _
           [MarkScanRunning; MarkAppScanning; CompleteScan; InsertFindings]); [|reflexivity].
  apply (statements_then _ _ _ _ _ _ [MarkScanRunning; MarkAppScanning; CompleteScan]);
    [|reflexivity].
  apply (statements_then _ _ _ _ _ _ [MarkScanRunning; MarkAppScanning]);
    [apply statements_scanning | reflexivity].
Qed.

Lemma content_without_text_gets_fallback_witness :
  fst (SecurityScanner.serve runtime (run Scenario.silent) request world)
  = success (fallback (js "Shop"))
  /\ statements world (snd (SecurityScanner.serve runtime (run Scenario.silent) request world))
       [MarkScanRunning; MarkAppScanning; CompleteScan; InsertFindings; MarkAppCompleted].
Proof.
  apply (content_without_text_gets_fallback runtime (run Scenario.silent) request world
           alice scan1 shop (application alice "Shop") VNull).
  - reflexivity.
  - apply fixture_preconditions.
  - eexists _, _, _. repeat split; vm_compute; reflexivity.
  - discriminate.
Defined.

(** X9.  An answer of the completion API that arrives with a success
    status but is not JSON, or is JSON without a first choice and its
    message, makes the handler of [index.ts] answer the generic 500 after
    the two status updates: the scan stays [running] and the application
    [scanning]. *)
Theorem answer_without_choices_is_a_500
  (rt : Runtime) (env : Env) (req : Request) (w : World)
  (user scanId applicationId : jsstring) (app : Application) (st : Z) (text : jsstring) :
  jsstring_eqb (method req) (js "OPTIONS") = false ->
  preconditions rt env req w user scanId applicationId app ->
  completion env = Responded st (Some text) ->
  ok_status st = true ->
  JSON_parse rt text = None
  \/ (exists aiData e, JSON_parse rt text = Some aiData /\ message_content aiData = Raise e) ->
  SecurityScanner.serve rt env req w
  = (SecurityScanner.scan_failed env, scanning env (VStr scanId) (VStr applicationId) w).
Proof.
  intros Hm Hpre Hc Hok Hbad. unfold SecurityScanner.serve. rewrite Hm.
  rewrite (scanner_reaches_model rt env req w user scanId applicationId app Hpre).
  unfold bind at 1. unfold SecurityScanner.ask_model. rewrite Hc, Hok. cbn [negb].
  unfold bind at 1. unfold json_of.
  destruct Hbad as [-> | (aiData & e & -> & Hmc)]; [reflexivity|].
  cbn [ret]. now rewrite Hmc.
Qed.

Lemma answer_without_choices_is_a_500_witness :
  SecurityScanner.serve runtime (run Scenario.refused) request world
  = (SecurityScanner.scan_failed (run Scenario.refused),
     scanning (run Scenario.refused) (VStr scan1) (VStr shop) world).
Proof.
  apply (answer_without_choices_is_a_500 runtime (run Scenario.refused) request world
           alice scan1 shop (application alice "Shop") 200
           (jq "{'error':{'message':'rate limited'}}")).
  - reflexivity.
  - apply fixture_preconditions.
  - reflexivity.
  - reflexivity.
  - right. eexists _, _. split; vm_compute; reflexivity.
Defined.

(** ** Where the two variants agree *)

Lemma check_field_inr rt fields k s :
  SecurityScanner.check_field rt fields k = inr s -> own_property k fields = Some (VStr s).
Proof.
  unfold SecurityScanner.check_field.
  destruct (own_property k fields) as [[| |b|q|t|l|f]|]; try discriminate.
  destruct (uuid rt t); [|discriminate]. intros H. now inversion H.
Qed.

Lemma safeParse_inr_inv rt data scanId applicationId :
  SecurityScanner.safeParse rt data = inr (scanId, applicationId) ->
  exists fields,
    data = VObj fields
    /\ own_property (js "scanId") fields = Some (VStr scanId)
    /\ own_property (js "applicationId") fields = Some (VStr applicationId).
Proof.
  unfold SecurityScanner.safeParse. destruct data as [| |b|q|t|l|fields]; try discriminate.
  destruct (SecurityScanner.check_field rt fields (js "scanId")) as [i1|s1] eqn:E1;
    destruct (SecurityScanner.check_field rt fields (js "applicationId")) as [i2|a1] eqn:E2;
    try discriminate.
  intros H. inversion H; subst. exists fields.
  split; [reflexivity|]. split; now apply check_field_inr with (rt := rt).
Qed.

Lemma part000_ask_model_answers rt env w content :
  answers_with rt env content -> Part000.ask_model rt env w = Next content w.
Proof.
  intros (st & text & aiData & Hc & Hok & Hj & Hm).
  unfold Part000.ask_model. rewrite Hc, Hok. cbn [negb].
  unfold bind, json_of. rewrite Hj. cbn [ret]. rewrite Hm. reflexivity.
Qed.

(** X10.  On a request that passes the checks of [index.ts], and for which
    the completion API gives an answer, the [try] block of [part_000] does
    exactly what the one of [index.ts] does: the same writes in the same
    order, the same end.  The variant differs only in what it lets through
    and in what its [catch] tells. *)
Theorem variants_agree_on_admitted_requests
  (rt : Runtime) (env : Env) (req : Request) (w : World)
  (user scanId applicationId : jsstring) (app : Application) (content : value) :
  preconditions rt env req w user scanId applicationId app ->
  answers_with rt env content ->
  Part000.handle rt env req w = SecurityScanner.handle rt env req w
  /\ snd (Part000.serve rt env req w) = snd (SecurityScanner.serve rt env req w).
Proof.
  intros Hpre Hans.
  assert (Hh : Part000.handle rt env req w = SecurityScanner.handle rt env req w).
  { rewrite (scanner_reaches_persist rt env req w user scanId applicationId app _ Hpre Hans).
    destruct Hpre as [_ (data & Hd & Hs) (Ha & Hal & _) _].
    apply safeParse_inr_inv in Hs as (fields & -> & Hsid & Haid).
    unfold Part000.handle.
    unfold bind at 1. unfold json_of. rewrite Hd. cbn [ret].
    unfold bind at 1. unfold get_prop at 1. rewrite Hsid. cbn [default from_option id lift ret].
    unfold bind at 1. unfold get_prop at 1. rewrite Haid. cbn [default from_option id lift ret].
    unfold bind at 1. unfold issue_write at 1.
    unfold bind at 1. unfold Part000.find_application at 1.
    unfold bind at 1, read_db at 1. unfold single. rewrite Ha. cbn [filter_id].
    rewrite send_scan_keeps_applications, Hal. cbn [ret].
    unfold bind at 1. unfold issue_write at 1.
    rewrite (bind_Next _ _ _ _ _ (part000_ask_model_answers rt env _ content Hans)).
    reflexivity. }
  split; [exact Hh|].
  unfold Part000.serve, SecurityScanner.serve. rewrite Hh.
  destruct (jsstring_eqb (method req) (js "OPTIONS")); [reflexivity|].
  now destruct (SecurityScanner.handle rt env req w).
Qed.

Lemma variants_agree_on_admitted_requests_witness :
  Part000.handle runtime (run fenced) request world
  = SecurityScanner.handle runtime (run fenced) request world
  /\ snd (Part000.serve runtime (run fenced) request world)
     = snd (SecurityScanner.serve runtime (run fenced) request world).
Proof.
  apply (variants_agree_on_admitted_requests runtime (run fenced) request world
           alice scan1 shop (application alice "Shop")
           (VStr (jq ("```json" ++ nl
                      ++ "{'overall_score':10,'risk_level':'high','vulnerabilities':[]}"
                      ++ nl ++ "```")))).
  - apply fixture_preconditions.
  - eexists _, _, _. repeat split; vm_compute; reflexivity.
Defined.

(** ** The credential *)

Lemma remove_first_eq p s :
  remove_first p s
  = if starts_with p s then drop (length p) s
    else match s with
         | [] => []
         | c :: r => c :: remove_first p r
         end.
Proof. destruct s; reflexivity. Qed.

Lemma index_of_eq p s :
  index_of p s
  = if starts_with p s then Some O
    else match s with
         | [] => None
         | _ :: r => option_map S (index_of p r)
         end.
Proof. destruct s; reflexivity. Qed.

Lemma remove_first_absent p s : index_of p s = None -> remove_first p s = s.
Proof.
  induction s as [|c r IH]; rewrite index_of_eq, remove_first_eq;
    destruct (starts_with p _); try discriminate; [reflexivity|].
  intros H. f_equal. apply IH. now destruct (index_of p r).
Qed.

Lemma remove_first_prefix p s : remove_first p (p ++ s) = s.
Proof. rewrite remove_first_eq, starts_with_app. apply drop_app_length. Qed.

Lemma authenticate_fails env req w h :
  authorization req = Some h -> h <> [] ->
  getUser env (remove_first (js "Bearer ") h) = None ->
  SecurityScanner.authenticate env req w
  = Respond (error_response 401 "Invalid authentication token") w.
Proof.
  intros Hh Hne Hu. unfold SecurityScanner.authenticate. rewrite Hh.
  destruct h as [|c h]; [congruence|]. cbv beta iota. now rewrite Hu.
Qed.

Lemma bind_head {A B : Type} (m1 m2 : M A) (k : A -> M B) w :
  m1 w = m2 w -> bind m1 k w = bind m2 k w.
Proof. unfold bind. now intros ->. Qed.

(** X11.  The scheme in front of the credential is optional for the handler
    of [index.ts]: it removes the first ["Bearer "] of the header, if there
    is one, and hands the rest to the authentication service.  So a request
    whose header is the bare token is served exactly like the request that
    puts ["Bearer "] in front of it. *)
Theorem bearer_prefix_is_optional
  (rt : Runtime) (env : Env) (req req' : Request) (token : jsstring) (w : World) :
  token <> [] ->
  index_of (js "Bearer ") token = None ->
  authorization req = Some (js "Bearer " ++ token) ->
  authorization req' = Some token ->
  method req' = method req ->
  body req' = body req ->
  SecurityScanner.serve rt env req' w = SecurityScanner.serve rt env req w.
Proof.
  intros Hne Habs Hh Hh' Hm Hb.
  assert (Hlong : js "Bearer " ++ token <> []).
  { intros E. apply app_eq_nil in E as [_ E]. contradiction. }
  assert (Ha : SecurityScanner.authenticate env req' w = SecurityScanner.authenticate env req w).
  { destruct (getUser env token) as [user|] eqn:Hu.
    - rewrite (authenticate_passes env req' w token user Hh' Hne);
        [|now rewrite (remove_first_absent _ _ Habs)].
      rewrite (authenticate_passes env req w _ user Hh Hlong);
        [reflexivity | now rewrite remove_first_prefix].
    - rewrite (authenticate_fails env req' w token Hh' Hne);
        [|now rewrite (remove_first_absent _ _ Habs)].
      rewrite (authenticate_fails env req w _ Hh Hlong);
        [reflexivity | now rewrite remove_first_prefix]. }
  unfold SecurityScanner.serve. rewrite Hm.
  assert (Hh2 : SecurityScanner.handle rt env req' w = SecurityScanner.handle rt env req w).
  { unfold SecurityScanner.handle, SecurityScanner.validate. rewrite Hb.
    apply bind_head. exact Ha. }
  now rewrite Hh2.
Qed.

Lemma bearer_prefix_is_optional_witness :
  SecurityScanner.serve runtime (run prose) Scenario.bare_request world
  = SecurityScanner.serve runtime (run prose) request world.
Proof.
  apply (bearer_prefix_is_optional runtime (run prose) request Scenario.bare_request
           (js "alice-token") world).
  - vm_compute. discriminate.
  - vm_compute. reflexivity.
  - reflexivity.
  - reflexivity.
  - reflexivity.
  - reflexivity.
Defined.

(** ** The duration *)

(** X12.  The duration the persistence phase stores is drawn from
    [Math.random()], a number from 0 up to but not including 1: it is a
    whole number of seconds from 30 to 89. *)
Theorem scan_duration_range (env : Env) :
  (0 <= Math_random env)%Q -> (Math_random env < 1)%Q ->
  30 <= scanDuration env <= 89.
Proof.
  intros H0 H1. unfold scanDuration.
  assert (Hlo : 0 <= Qfloor (Math_random env * 60)).
  { change 0 with (Qfloor 0). apply Qfloor_resp_le.
    apply Qmult_le_0_compat; [exact H0 | discriminate]. }
  assert (Hhi : Qfloor (Math_random env * 60) < 60).
  { rewrite Zlt_Qlt. eapply Qle_lt_trans; [apply Qfloor_le|].
    change (inject_Z 60) with (1 * 60)%Q.
    apply Qmult_lt_compat_r; [reflexivity | exact H1]. }
  lia.
Qed.

Lemma scan_duration_range_witness : 30 <= scanDuration (run prose) <= 89.
Proof.
  apply (scan_duration_range (run prose)).
  - vm_compute. discriminate.
  - vm_compute. reflexivity.
Defined.

(** ** An application the variant does not find *)

(** X13.  When the lookup of the application yields no row (the identifier
    is unknown, is missing from the body, or the query fails), the handler
    of [part_000] has already sent the update that marks the scan
    [running]; it then throws, and its [catch] answers 500 with the message
    "Application not found". *)
Theorem part000_unknown_application_is_a_500
  (rt : Runtime) (env : Env) (req : Request) (w : World) (data scanId applicationId : value) :
  jsstring_eqb (method req) (js "OPTIONS") = false ->
  JSON_parse rt (body req) = Some data ->
  get_prop data (js "scanId") = Ok scanId ->
  get_prop data (js "applicationId") = Ok applicationId ->
  single env SelectApplication (applications (db w)) applicationId = None ->
  Part000.serve rt env req w
  = ({| status := 500; payload := ErrorBody (js "Application not found") None None |},
     marked env scanId w).
Proof.
  intros Hm Hd Hs Ha Hnone. unfold Part000.serve. rewrite Hm.
  unfold Part000.handle.
  unfold bind at 1. unfold json_of. rewrite Hd. cbn [ret].
  unfold bind at 1. rewrite Hs. cbn [lift ret].
  unfold bind at 1. rewrite Ha. cbn [lift ret].
  unfold bind at 1. unfold issue_write at 1.
  change (send env MarkScanRunning _ w) with (marked env scanId w).
  unfold bind at 1. unfold Part000.find_application at 1. unfold bind at 1, read_db at 1.
  unfold marked at 1. rewrite send_scan_keeps_applications, Hnone.
  reflexivity.
Qed.

Lemma part000_unknown_application_is_a_500_witness :
  Part000.serve runtime (run prose) Scenario.stray_request world
  = ({| status := 500; payload := ErrorBody (js "Application not found") None None |},
     marked (run prose) (VStr scan1) world).
Proof.
  apply (part000_unknown_application_is_a_500 runtime (run prose) Scenario.stray_request
           world
           (VObj [(js "scanId", VStr scan1); (js "applicationId", VStr unknown)])
           (VStr scan1) (VStr unknown)).
  - reflexivity.
  - vm_compute. reflexivity.
  - vm_compute. reflexivity.
  - vm_compute. reflexivity.
  - vm_compute. reflexivity.
Defined.

(** ** The badge of an application *)

Lemma status_label_error st : Applications.status_label st = js "Erro" -> st = AppFailed.
Proof. destruct st; intros H; try reflexivity; vm_compute in H; discriminate. Qed.

(** X14.  The page [Applications] has a badge "Erro" for an application
    whose status is [failed].  No run of the handler of [index.ts] makes an
    application show it: an application that did not show the badge before
    a run does not show it after, however the run ended. *)
Theorem no_run_turns_on_the_error_badge
  (rt : Runtime) (env : Env) (req : Request) (w : World) (k : jsstring) (a : Application) :
  applications (db w) !! k = Some a ->
  Applications.status_label (app_status a) <> js "Erro" ->
  exists a',
    applications (db (snd (SecurityScanner.serve rt env req w))) !! k = Some a'
    /\ Applications.status_label (app_status a') <> js "Erro".
Proof.
  intros Hl Hlabel. destruct (scanner_evolves rt env req w) as (HA & _).
  specialize (HA k). rewrite Hl in HA.
  apply option_Forall2_Some_l in HA as (a' & Hl' & (_ & _ & _ & _ & _ & Hst)).
  exists a'. split; [exact Hl'|]. intros E. apply status_label_error in E.
  destruct Hst as [Hst | [Hst | Hst]]; rewrite E in Hst; try discriminate.
  apply Hlabel. now rewrite <- Hst.
Qed.

Lemma no_run_turns_on_the_error_badge_witness :
  exists a',
    applications (db (snd (SecurityScanner.serve runtime (run unavailable) request world)))
      !! shop = Some a'
    /\ Applications.status_label (app_status a') <> js "Erro".
Proof.
  apply (no_run_turns_on_the_error_badge runtime (run unavailable) request world shop
           (application alice "Shop")).
  - vm_compute. reflexivity.
  - vm_compute. discriminate.
Defined.

(** * The page [Applications] *)

(** ** The technology stack *)

Lemma trim_start_sub c s : In c (trim_start s) -> In c s.
Proof.
  induction s as [|x s IH]; [intros []|]. cbn [trim_start].
  destruct (is_space x); [|auto]. intros H. right. auto.
Qed.

Lemma trim_sub c s : In c (trim s) -> In c s.
Proof.
  unfold trim, trim_end. intros H. apply in_rev, trim_start_sub, in_rev in H.
  now apply trim_start_sub.
Qed.

Lemma take_sub {A : Type} (c : A) n (l : list A) : In c (take n l) -> In c l.
Proof. intros H. rewrite <- (take_drop n l). apply in_or_app. now left. Qed.

Lemma trim_start_snoc s c :
  is_space c = false -> trim_start (s ++ [c]) = trim_start s ++ [c].
Proof.
  intros Hc. induction s as [|x s IH]; cbn [app trim_start]; [now rewrite Hc|].
  destruct (is_space x); [exact IH | reflexivity].
Qed.

(** A text that does not begin with white space keeps its first unit when
    the white space at its end is removed. *)
Lemma trim_end_cons c s : is_space c = false -> trim_end (c :: s) = c :: trim_end s.
Proof.
  intros Hc. unfold trim_end. cbn [rev].
  now rewrite (trim_start_snoc _ _ Hc), rev_app_distr.
Qed.

Lemma trim_start_idem s : trim_start (trim_start s) = trim_start s.
Proof.
  induction s as [|c s IH]; [reflexivity|]. cbn [trim_start].
  destruct (is_space c) eqn:Hc; [exact IH|]. cbn [trim_start]. now rewrite Hc.
Qed.

Lemma trim_no_leading_space s : trim_start (trim s) = trim s.
Proof.
  unfold trim. pose proof (trim_start_idem s) as H.
  destruct (trim_start s) as [|c r]; [reflexivity|].
  apply trim_start_head in H. rewrite (trim_end_cons _ _ H).
  cbn [trim_start]. now rewrite H.
Qed.

Lemma take_no_leading_space n s : trim_start s = s -> trim_start (take n s) = take n s.
Proof.
  intros H. destruct s as [|c r]; [now destruct n|].
  apply trim_start_head in H. destruct n; [reflexivity|].
  cbn [take trim_start]. now rewrite H.
Qed.

Lemma split_pieces sep (Q : N -> Prop) s :
  Forall (fun c => c = sep \/ (c <> sep /\ Q c)) s ->
  Forall (Forall Q) (Applications.split sep s).
Proof.
  induction 1 as [|c s Hc _ IH]; cbn [Applications.split]; [repeat constructor|].
  destruct (unit_eqb c sep) eqn:E.
  - constructor; [constructor | exact IH].
  - destruct Hc as [-> | [_ Hq]].
    + unfold unit_eqb in E. now rewrite N.eqb_refl in E.
    + destruct (Applications.split sep s) as [|p ps]; [repeat constructor; exact Hq|].
      inversion IH; subst. constructor; [constructor; assumption | assumption].
Qed.

Lemma split_without_separator sep s :
  Forall (fun p => ~ In sep p) (Applications.split sep s).
Proof.
  assert (H : Forall (fun c => c = sep \/ (c <> sep /\ c <> sep)) s).
  { apply List.Forall_forall. intros c _. destruct (N.eq_dec c sep); auto. }
  apply (split_pieces sep (fun c => c <> sep)) in H.
  eapply Forall_impl; [exact H|]. cbn beta. intros p Hp Hin.
  rewrite List.Forall_forall in Hp. now apply (Hp sep Hin).
Qed.

(** X15.  Whatever text the form holds, the technology stack that
    [handleSubmit] stores has at most 20 entries, and every entry is a
    non-empty text of at most 50 code units that holds no comma and does not
    begin with white space. *)
Theorem tech_stack_is_bounded (technology_stack : jsstring) :
  (length (Applications.techStack technology_stack) <= 20)%nat
  /\ Forall (fun t => t <> [] /\ (length t <= 50)%nat
                      /\ ~ In Applications.comma t /\ trim_start t = t)
       (Applications.techStack technology_stack).
Proof.
  unfold Applications.techStack. split.
  - rewrite length_take. lia.
  - apply Forall_take, List.Forall_forall. intros t Ht.
    apply filter_In in Ht as [Ht Hne]. apply in_map_iff in Ht as (p & <- & Hp).
    split; [|split; [|split]].
    + intros E. rewrite E in Hne. discriminate.
    + rewrite length_take. lia.
    + intros Hin. apply take_sub, trim_sub in Hin.
      pose proof (split_without_separator Applications.comma technology_stack) as H.
      rewrite List.Forall_forall in H. exact (H p Hp Hin).
    + apply take_no_leading_space, trim_no_leading_space.
Qed.










(** ** The scan the page creates *)

(** X18.  The application and the scan that [handleSubmit] inserts for the
    signed-in user pass the two checks the handler of [index.ts] makes on
    the tables, for that user; any other user is turned away with 403; and
    the scan passes the policy that lets its creator read it. *)
Theorem submitted_scan_passes_the_checks
  (env : Env) (user other applicationId scanId : jsstring)
  (name description url technology_stack : jsstring) (d : Db) (w : World) :
  db w = Applications.handleSubmit_inserts user applicationId scanId name description url
           technology_stack d ->
  answers env SelectApplication = true ->
  answers env SelectScan = true ->
  other <> user ->
  SecurityScanner.verify_application env user applicationId w
  = Next (Applications.new_application user name description url technology_stack) w
  /\ SecurityScanner.verify_scan env scanId applicationId w = Next tt w
  /\ SecurityScanner.verify_application env other applicationId w
     = Respond (error_response 403 "You do not have permission to scan this application") w
  /\ Policy.view_scan user (db w) (Applications.new_scan applicationId) = true
  /\ Policy.view_scan other (db w) (Applications.new_scan applicationId) = false.
Proof.
  intros Hdb Ha Hs Hother.
  assert (Hal : applications (db w) !! applicationId
                = Some (Applications.new_application user name description url
                          technology_stack)).
  { rewrite Hdb. unfold Applications.handleSubmit_inserts. cbn [applications].
    apply lookup_insert_eq. }
  assert (Hsl : security_scans (db w) !! scanId = Some (Applications.new_scan applicationId)).
  { rewrite Hdb. unfold Applications.handleSubmit_inserts. cbn [security_scans].
    apply lookup_insert_eq. }
  split; [now apply verify_application_passes|].
  split; [now apply verify_scan_passes with (scan := Applications.new_scan applicationId)|].
  split.
  { apply verify_application_foreign
      with (app := Applications.new_application user name description url technology_stack).
    - unfold single. rewrite Ha. exact Hal.
    - cbn [Applications.new_application app_user_id]. congruence. }
  unfold Policy.view_scan, Policy.view_application.
  cbn [Applications.new_scan scan_application_id]. rewrite Hal.
  cbn [Applications.new_application app_user_id].
  split; [apply jsstring_eqb_refl | now apply jsstring_eqb_neq].
Qed.

Lemma submitted_scan_passes_the_checks_witness :
  let env := run prose in
  let app := Applications.new_application bob (js "Wiki") [] (js "https://wiki.example")
               (js "Django, PostgreSQL") in
  SecurityScanner.verify_application env bob Scenario.wiki Scenario.submitted
  = Next app Scenario.submitted
  /\ SecurityScanner.verify_scan env Scenario.scan2 Scenario.wiki Scenario.submitted
     = Next tt Scenario.submitted
  /\ SecurityScanner.verify_application env alice Scenario.wiki Scenario.submitted
     = Respond (error_response 403 "You do not have permission to scan this application")
         Scenario.submitted
  /\ Policy.view_scan bob (db Scenario.submitted) (Applications.new_scan Scenario.wiki) = true
  /\ Policy.view_scan alice (db Scenario.submitted) (Applications.new_scan Scenario.wiki)
     = false.
Proof.
  apply (submitted_scan_passes_the_checks (run prose) bob alice Scenario.wiki Scenario.scan2
           (js "Wiki") [] (js "https://wiki.example") (js "Django, PostgreSQL")
           (db world) Scenario.submitted).
  - reflexivity.
  - reflexivity.
  - reflexivity.
  - vm_compute. discriminate.
Defined.

(** * The page [ScanResults] *)

Lemma severity_class v :
  let c := ScanResults.strict_eq v "critical" in
  let h := ScanResults.strict_eq v "high" in
  let m := ScanResults.strict_eq v "medium" in
  (c = true /\ h = false /\ m = false)
  \/ (c = false /\ h = true /\ m = false)
  \/ (c = false /\ h = false /\ m = true)
  \/ (c = false /\ h = false /\ m = false).
Proof.
  destruct v as [| |b|q|s|l|fields]; try (do 3 right; repeat split; reflexivity).
  cbn zeta. unfold ScanResults.strict_eq.
  destruct (jsstring_eqb s (js "critical")) eqn:E1.
  { apply jsstring_eqb_eq in E1. subst. left. repeat split; vm_compute; reflexivity. }
  destruct (jsstring_eqb s (js "high")) eqn:E2.
  { apply jsstring_eqb_eq in E2. subst. right; left. repeat split; vm_compute; reflexivity. }
  destruct (jsstring_eqb s (js "medium")) eqn:E3; [right; right; left | do 3 right]; auto.
Qed.

(** X19.  The three counters of the report (critical, high, medium) never
    show more than there are findings, and they add up to the number of
    findings exactly when no finding has another severity: a finding that is
    [low] or [info] is listed below but counted by none of them. *)
Theorem counters_leave_out_low_and_info (rows : list Vulnerability) :
  let shown := (ScanResults.count "critical" rows + ScanResults.count "high" rows
                + ScanResults.count "medium" rows)%nat in
  (shown <= length rows)%nat
  /\ (shown = length rows
      <-> Forall (fun v => ScanResults.strict_eq (severity v) "critical"
                           || ScanResults.strict_eq (severity v) "high"
                           || ScanResults.strict_eq (severity v) "medium" = true) rows).
Proof.
  cbn zeta. unfold ScanResults.count.
  induction rows as [|v rows (IH1 & IH2 & IH3)].
  - cbn. split; [lia | split; [constructor | reflexivity]].
  - cbn [List.filter].
    destruct (severity_class (severity v))
      as [(Ec & Eh & Em) | [(Ec & Eh & Em) | [(Ec & Eh & Em) | (Ec & Eh & Em)]]];
      cbn zeta in Ec, Eh, Em; rewrite Ec, Eh, Em; cbn [length].
    1-3: split; [lia|]; split;
      [ intros H; constructor; [cbn beta; rewrite Ec, Eh, Em; reflexivity | apply IH2; lia]
      | intros H; apply List.Forall_inv_tail in H; apply IH3 in H; lia ].
    split; [lia|]. split; [lia|].
    intros H. apply List.Forall_inv in H. cbn beta in H.
    rewrite Ec, Eh, Em in H. discriminate.
Qed.

Lemma rows_of_scan_Forall (P : Vulnerability -> Prop) k d :
  Forall P (vulnerabilities d) -> Forall P (rows_of_scan k d).
Proof.
  unfold rows_of_scan. rewrite !List.Forall_forall. intros H v Hv.
  apply filter_In in Hv as [Hv _]. auto.
Qed.

Lemma cards_of_text_severities rows :
  Forall (fun v => exists t, severity v = VStr t) rows ->
  exists cards, map_eval ScanResults.card rows = Ok cards.
Proof.
  induction 1 as [|v rows (t & Ht) _ (cards & IH)]; [now exists []|].
  cbn [map_eval]. unfold ScanResults.card at 1. rewrite Ht, IH. eauto.
Qed.

(** X20.  Whatever the session and the state before, the state [loadData]
    leaves can be rendered without an exception, provided the severities
    the backend returns are texts, as the column is: the component reads the
    name of the application only where [loadData] has stored one, and it
    prints the findings of the state only where [loadData] has loaded
    them. *)
Theorem page_renders_after_loadData
  (backend : ScanResults.Backend) (session : option jsstring) (id : jsstring)
  (s : ScanResults.State) :
  (forall k rows, ScanResults.select_vulnerabilities backend k = Some rows ->
                  Forall (fun v => exists t, severity v = VStr t) rows) ->
  exists view, ScanResults.render (fst (ScanResults.loadData backend session id s)) = Ok view.
Proof.
  intros Htext.
  unfold ScanResults.loadData. destruct session as [user|]; [|eexists; reflexivity].
  destruct (ScanResults.select_application backend id user) as [app|];
    [|eexists; reflexivity].
  cbn [fst]. unfold ScanResults.render.
  cbn [ScanResults.loading ScanResults.application ScanResults.scans
       ScanResults.vulnerabilities].
  destruct (default [] (ScanResults.select_scans backend id)) as [|[k latest] older];
    [eexists; reflexivity|].
  assert (Hc : exists cards,
             map_eval ScanResults.card
               (default [] (ScanResults.select_vulnerabilities backend k)) = Ok cards).
  { apply cards_of_text_severities.
    destruct (ScanResults.select_vulnerabilities backend k) as [rows|] eqn:E;
      [exact (Htext k rows E) | constructor]. }
  destruct Hc as (cards & ->).
  destruct (scan_status latest); eexists; reflexivity.
Qed.

Lemma page_renders_after_loadData_witness :
  exists view,
    ScanResults.render
      (fst (ScanResults.loadData Scenario.listing (Some alice) shop ScanResults.initial))
    = Ok view.
Proof.
  apply (page_renders_after_loadData Scenario.listing (Some alice) shop ScanResults.initial).
  intros k rows E. injection E as <-.
  repeat (apply List.Forall_cons; [eexists; reflexivity|]). apply List.Forall_nil.
Defined.

(** X21.  A scan whose completion call failed is shown as a finished
    report.  The handler of [index.ts] answered the generic 500 and left the
    scan [running]; the page shows the notice "scan in progress" only for a
    scan that is [pending].  So when the page loads that scan as the newest
    of the application, with no score and no rows yet, it shows the score 0,
    the three counters at 0 and the line that the application is secure. *)
Theorem failed_completion_is_shown_as_a_clean_report
  (rt : Runtime) (env : Env) (req : Request) (w : World)
  (user scanId applicationId : jsstring) (app : Application) (st : Z)
  (text : option jsstring) (scan : Scan)
  (backend : ScanResults.Backend) (s : ScanResults.State) :
  jsstring_eqb (method req) (js "OPTIONS") = false ->
  preconditions rt env req w user scanId applicationId app ->
  completion env = Responded st text ->
  ok_status st = false ->
  accepts env MarkScanRunning = true ->
  security_scans (db w) !! scanId = Some scan ->
  truthy (overall_score scan) = false ->
  rows_of_scan scanId (db w) = [] ->
  let d' := db (snd (SecurityScanner.serve rt env req w)) in
  ScanResults.select_application backend applicationId user
  = applications d' !! applicationId ->
  (exists scans,
     ScanResults.select_scans backend applicationId = Some scans
     /\ head scans = pair scanId <$> security_scans d' !! scanId) ->
  ScanResults.select_vulnerabilities backend scanId = Some (rows_of_scan scanId d') ->
  fst (SecurityScanner.serve rt env req w) = SecurityScanner.scan_failed env
  /\ ScanResults.render (fst (ScanResults.loadData backend (Some user) applicationId s))
     = Ok (ScanResults.Report (app_name app) (num_of_Z 0) 0 0 0
             ScanResults.secure_summary []).
Proof.
  intros Hm Hpre Hc Hok Hacc Hsl Hscore Hrows.
  rewrite (scanner_hides_completion_failure rt env req w user scanId applicationId app
             st text Hm Hpre Hc Hok).
  cbn [fst snd]. intros Happ (scans & Hscans & Hhead) Hvul.
  set (d' := db (scanning env (VStr scanId) (VStr applicationId) w)) in *.
  split; [reflexivity|].
  assert (Hsl' : security_scans d' !! scanId = Some (set_running (started_time env) scan)).
  { subst d'. unfold scanning. rewrite send_application_keeps_scans.
    unfold send. rewrite Hacc. cbn [db apply_write security_scans].
    now apply update_row_hit. }
  assert (Hal' : exists app', applications d' !! applicationId = Some app'
                              /\ app_name app' = app_name app).
  { destruct (evolves_scanning env (VStr scanId) (VStr applicationId) w) as (HA & _).
    destruct Hpre as [_ _ (_ & Hal & _) _].
    specialize (HA applicationId). rewrite Hal in HA.
    apply option_Forall2_Some_l in HA as (app' & Hal' & (_ & Hn & _)). eauto. }
  destruct Hal' as (app' & Hal' & Hname).
  assert (Hrows' : rows_of_scan scanId d' = []).
  { subst d'. unfold rows_of_scan in *. now rewrite scanning_rows. }
  rewrite Hsl' in Hhead. cbn [fmap option_fmap option_map] in Hhead.
  destruct scans as [|[k latest] older]; [discriminate|].
  cbn [head] in Hhead. inversion Hhead; subst k latest.
  unfold ScanResults.loadData. rewrite Happ, Hal', Hscans.
  cbn [default from_option id fst].
  rewrite Hvul, Hrows'. cbn [default from_option id].
  unfold ScanResults.render.
  cbn [ScanResults.loading ScanResults.application ScanResults.scans
       ScanResults.vulnerabilities set_running scan_status overall_score].
  now rewrite Hscore, Hname.
Qed.

Lemma failed_completion_is_shown_as_a_clean_report_witness :
  let run := SecurityScanner.serve runtime (run unavailable) request world in
  fst run = SecurityScanner.scan_failed (Fixture.run unavailable)
  /\ ScanResults.render
       (fst (ScanResults.loadData (Scenario.backend (snd run)) (Some alice) shop
               ScanResults.initial))
     = Ok (ScanResults.Report (js "Shop") (num_of_Z 0) 0 0 0 ScanResults.secure_summary []).
Proof.
  apply (failed_completion_is_shown_as_a_clean_report runtime (run unavailable) request
           world alice scan1 shop (application alice "Shop") 503
           (Some (js "upstream connect error: 10.0.3.7:8443")) (pending_scan shop)
           (Scenario.backend (snd (SecurityScanner.serve runtime (Fixture.run unavailable)
                                     request world)))
           ScanResults.initial).
  - reflexivity.
  - apply fixture_preconditions.
  - reflexivity.
  - reflexivity.
  - reflexivity.
  - vm_compute. reflexivity.
  - reflexivity.
  - reflexivity.
  - vm_compute. reflexivity.
  - eexists. split; vm_compute; reflexivity.
  - reflexivity.
Defined.

(** * The trigger [handle_new_user] *)








(** * The schema *)

(** X24.  The fixed result fits the schema, whatever the application is
    called and whichever scan it is stored for: its score and its risk
    level pass the constraints of [security_scans], and the row the handlers
    build from its one finding passes those of [vulnerabilities], so the
    tables have no reason to refuse what the fallback writes. *)
Theorem fallback_fits_the_schema (name scanId : jsstring) :
  Schema.overall_score_check (prop (fallback name) "overall_score") = true
  /\ Schema.risk_level_check (prop (fallback name) "risk_level") = true
  /\ exists finding row,
       get_prop (fallback name) (js "vulnerabilities") = Ok (VArr [finding])
       /\ row_of (VStr scanId) finding = Ok row
       /\ Schema.vulnerability_check row = true.
Proof.
  split; [vm_compute; reflexivity|]. split; [vm_compute; reflexivity|].
  eexists _, _. split; [reflexivity|]. split; [reflexivity|].
  vm_compute. reflexivity.
Qed.
